(** * json-diff: structural diff, patch and merge of JSON trees

    A shallow embedding of the diff / patch engine of [src/index.js] and of
    the merge module ([mergeJson], [flattenObject], [unflattenObject],
    [threeWayMerge] and their helpers), with the properties of the
    specification stated and settled over it, followed by the summary, the
    [--ignore] filter and the CSV quoting of the command line, by
    [deepMerge], and by further properties of all of these.

    Modelling conventions.
    - A JSON tree is a value of [json]; an object lists its own properties in
      the order [Object.keys] enumerates them, and its keys are pairwise
      distinct ([wf]).  Numbers are integers: no function here computes with
      them, they are only compared and tested for truthiness.
    - [JSON.parse(JSON.stringify(x))] is the identity on JSON trees;
      [JSON.stringify] is injective on them, so comparing two serialisations
      is comparing the two trees, key order included ([json_eqb]).
    - A property read on a plain object sees the members inherited from
      [Object.prototype] ([Inherited]); the scripts are not in strict mode,
      so an assignment to a property of a primitive is silently dropped.
    - A run that raises is [Throws]; a run that goes on with a value that is
      not a JSON tree (an array with a hole or a named property, a builtin
      reached through a prototype) is [Outside] and is not followed further. *)

From Stdlib Require Import List String Ascii ZArith Bool Lia Arith DecimalString DecimalNat
  Permutation.
Import ListNotations.
Local Open Scope string_scope.
Local Open Scope list_scope.

(** ** JSON values *)

Unset Elimination Schemes.
Inductive json : Type :=
| JNull
| JBool (b : bool)
| JNum (n : Z)
| JStr (s : string)
| JArr (xs : list json)
| JObj (kvs : list (string * json)).
Set Elimination Schemes.

Section JsonInduction.
Variable P : json -> Prop.
Hypothesis Hnull : P JNull.
Hypothesis Hbool : forall b, P (JBool b).
Hypothesis Hnum : forall n, P (JNum n).
Hypothesis Hstr : forall s, P (JStr s).
Hypothesis Harr : forall xs, Forall P xs -> P (JArr xs).
Hypothesis Hobj : forall kvs, Forall (fun kv => P (snd kv)) kvs -> P (JObj kvs).

Fixpoint json_induction (j : json) : P j :=
  match j with
  | JNull => Hnull
  | JBool b => Hbool b
  | JNum n => Hnum n
  | JStr s => Hstr s
  | JArr xs =>
      Harr xs ((fix all (l : list json) : Forall P l :=
                  match l with
                  | [] => Forall_nil _
                  | x :: l' => Forall_cons x (json_induction x) (all l')
                  end) xs)
  | JObj kvs =>
      Hobj kvs ((fix all (l : list (string * json)) : Forall (fun kv => P (snd kv)) l :=
                   match l with
                   | [] => Forall_nil _
                   | kv :: l' => Forall_cons kv (json_induction (snd kv)) (all l')
                   end) kvs)
  end.
End JsonInduction.

(** [JSON.stringify(a) === JSON.stringify(b)]: equality of trees, the order
    of the keys included. *)
Fixpoint json_eqb (a b : json) : bool :=
  match a, b with
  | JNull, JNull => true
  | JBool x, JBool y => Bool.eqb x y
  | JNum x, JNum y => Z.eqb x y
  | JStr x, JStr y => String.eqb x y
  | JArr xs, JArr ys =>
      (fix go (l : list json) (r : list json) : bool :=
         match l, r with
         | [], [] => true
         | x :: l', y :: r' => json_eqb x y && go l' r'
         | _, _ => false
         end) xs ys
  | JObj xs, JObj ys =>
      (fix go (l : list (string * json)) (r : list (string * json)) : bool :=
         match l, r with
         | [], [] => true
         | (k, x) :: l', (k', y) :: r' => String.eqb k k' && json_eqb x y && go l' r'
         | _, _ => false
         end) xs ys
  | _, _ => false
  end.

(** ** Outcomes of a run *)

Inductive outcome (A : Type) : Type :=
| Done (a : A)
| Throws
| Outside.
Arguments Done {A} a.
Arguments Throws {A}.
Arguments Outside {A}.

Definition bind {A B : Type} (m : outcome A) (f : A -> outcome B) : outcome B :=
  match m with
  | Done a => f a
  | Throws => Throws
  | Outside => Outside
  end.

Notation "x <- m ;; k" := (bind m (fun x => k))
  (at level 61, m at next level, right associativity).

(** ** The fragment of JavaScript the sources use *)

Module Js.

(** [typeof v] for a JSON value. *)
Inductive jstype : Type := TObject | TBoolean | TNumber | TString.

Definition jstype_eqb (a b : jstype) : bool :=
  match a, b with
  | TObject, TObject | TBoolean, TBoolean | TNumber, TNumber
  | TString, TString => true
  | _, _ => false
  end.

Definition typeof (v : json) : jstype :=
  match v with
  | JNull | JArr _ | JObj _ => TObject
  | JBool _ => TBoolean
  | JNum _ => TNumber
  | JStr _ => TString
  end.

Definition isArray (v : json) : bool :=
  match v with JArr _ => true | _ => false end.

Definition is_null (v : json) : bool :=
  match v with JNull => true | _ => false end.

(** [!v] is false: the value is truthy. *)
Definition truthy (v : json) : bool :=
  match v with
  | JNull => false
  | JBool b => b
  | JNum n => negb (Z.eqb n 0)
  | JStr s => negb (String.eqb s EmptyString)
  | JArr _ | JObj _ => true
  end.

(** *** Strings *)

Definition nat_to_string (n : nat) : string :=
  NilEmpty.string_of_uint (Nat.to_uint n).

Definition is_digit (c : ascii) : bool :=
  let n := nat_of_ascii c in (48 <=? n)%nat && (n <=? 57)%nat.

Definition digit_val (c : ascii) : nat := nat_of_ascii c - 48.

Fixpoint all_digits (s : string) : bool :=
  match s with
  | EmptyString => true
  | String c s' => is_digit c && all_digits s'
  end.

(** The value of a run of decimal digits, most significant first. *)
Fixpoint digits_val (acc : nat) (s : string) : nat :=
  match s with
  | EmptyString => acc
  | String c s' => digits_val (10 * acc + digit_val c) s'
  end.

(** [/^(\d+)$/]: the whole segment is a non-empty run of digits;
    the result is [parseInt] of it. *)
Definition match_digits (s : string) : option nat :=
  match s with
  | EmptyString => None
  | _ => if all_digits s then Some (digits_val 0 s) else None
  end.

(** An array index in canonical form: what [Object.keys] of an array
    lists, and the only strings that name an element. *)
Definition as_index (s : string) : option nat :=
  match match_digits s with
  | Some n => if String.eqb (nat_to_string n) s then Some n else None
  | None => None
  end.

(** [s.split(sep)] for a one-character separator. *)
Fixpoint split (sep : ascii) (s : string) : list string :=
  match s with
  | EmptyString => [EmptyString]
  | String c s' =>
      if Ascii.eqb c sep then EmptyString :: split sep s'
      else match split sep s' with
           | [] => [String c EmptyString]
           | w :: ws => String c w :: ws
           end
  end.

(** [s.replace(/\./g, '/')] and its like: every [a] becomes [b]. *)
Fixpoint replace_all (a b : ascii) (s : string) : string :=
  match s with
  | EmptyString => EmptyString
  | String c s' => String (if Ascii.eqb c a then b else c) (replace_all a b s')
  end.

Definition nonempty (s : string) : bool := negb (String.eqb s EmptyString).

(** *** Own properties of plain objects *)

Fixpoint assoc (k : string) (kvs : list (string * json)) : option json :=
  match kvs with
  | [] => None
  | (k', v) :: rest => if String.eqb k k' then Some v else assoc k rest
  end.

Definition has_key (k : string) (kvs : list (string * json)) : bool :=
  match assoc k kvs with Some _ => true | None => false end.

Definition keys (kvs : list (string * json)) : list string := map fst kvs.

(** A new integer-like key goes before the first key that is not
    integer-like or is a larger integer; any other new key goes last. *)
Fixpoint insert_index (n : nat) (k : string) (v : json) (kvs : list (string * json))
  : list (string * json) :=
  match kvs with
  | [] => [(k, v)]
  | (k', v') :: rest =>
      match as_index k' with
      | Some m => if (m <? n)%nat then (k', v') :: insert_index n k v rest
                  else (k, v) :: kvs
      | None => (k, v) :: kvs
      end
  end.

Fixpoint update (k : string) (v : json) (kvs : list (string * json))
  : list (string * json) :=
  match kvs with
  | [] => []
  | (k', v') :: rest =>
      if String.eqb k k' then (k', v) :: rest else (k', v') :: update k v rest
  end.

(** [o[k] = v] on a plain object. *)
Definition obj_set (k : string) (v : json) (kvs : list (string * json))
  : list (string * json) :=
  if has_key k kvs then update k v kvs
  else match as_index k with
       | Some n => insert_index n k v kvs
       | None => kvs ++ [(k, v)]
       end.

(** [delete o[k]]. *)
Fixpoint obj_delete (k : string) (kvs : list (string * json)) : list (string * json) :=
  match kvs with
  | [] => []
  | (k', v') :: rest =>
      if String.eqb k k' then obj_delete k rest else (k', v') :: obj_delete k rest
  end.

(** The members of [Object.prototype]: what a read of a key that is not an
    own property of a plain object finds there. *)
Definition object_prototype : list string :=
  [ "constructor"; "__defineGetter__"; "__defineSetter__"; "hasOwnProperty";
    "__lookupGetter__"; "__lookupSetter__"; "isPrototypeOf";
    "propertyIsEnumerable"; "toString"; "valueOf"; "__proto__";
    "toLocaleString" ].

Definition proto_member (k : string) : bool :=
  existsb (String.eqb k) object_prototype.

(** The result of a read [o[k]]. *)
Inductive lookup : Type :=
| Own (v : json)
| Inherited
| Missing.

Definition get (kvs : list (string * json)) (k : string) : lookup :=
  match assoc k kvs with
  | Some v => Own v
  | None => if proto_member k then Inherited else Missing
  end.

(** [Object.keys] of an array, with the elements. *)
Fixpoint indexed (i : nat) (xs : list json) : list (string * json) :=
  match xs with
  | [] => []
  | x :: xs' => (nat_to_string i, x) :: indexed (S i) xs'
  end.

(** [xs[i] = v] for [i <= length xs]. *)
Fixpoint set_nth (i : nat) (v : json) (xs : list json) : list json :=
  match i, xs with
  | _, [] => [v]
  | O, _ :: xs' => v :: xs'
  | S i', x :: xs' => x :: set_nth i' v xs'
  end.

(** [o[k] = v] on a plain object that still has [Object.prototype] as its
    prototype: the key [__proto__], unless it is an own property, reaches
    the prototype's setter, which ignores a scalar and replaces the
    prototype by anything else. *)
Definition put (k : string) (v : json) (kvs : list (string * json))
  : outcome (list (string * json)) :=
  if String.eqb k "__proto__" && negb (has_key k kvs) then
    match v with
    | JBool _ | JNum _ | JStr _ => Done kvs
    | JNull | JArr _ | JObj _ => Outside
    end
  else Done (obj_set k v kvs).

(** The one-character strings of a string, in order. *)
Fixpoint chars (s : string) : list json :=
  match s with
  | EmptyString => []
  | String c s' => JStr (String c EmptyString) :: chars s'
  end.

(** The members a property read on a number or a boolean finds in the
    prototypes of their wrappers. *)
Definition scalar_member (k : string) : bool :=
  proto_member k || existsb (String.eqb k) ["toExponential"; "toFixed"; "toPrecision"].

Definition nth_lookup (xs : list json) (i : nat) : lookup :=
  match nth_error xs i with Some v => Own v | None => Missing end.

(** The read [t[key]] on any JSON value. *)
Definition read (t : json) (key : string) : outcome lookup :=
  match t with
  | JNull => Throws
  | JObj kvs => Done (get kvs key)
  | JArr xs =>
      match as_index key with
      | Some i => Done (nth_lookup xs i)
      | None => Outside
      end
  | JBool _ | JNum _ => Done (if scalar_member key then Inherited else Missing)
  | JStr s =>
      match as_index key with
      | Some i => Done (nth_lookup (chars s) i)
      | None => Outside
      end
  end.

(** The assignment [t[key] = v] on any JSON value; the result is [t]
    afterwards. *)
Definition write (t : json) (key : string) (v : json) : outcome json :=
  match t with
  | JNull => Throws
  | JObj kvs => kvs' <- put key v kvs ;; Done (JObj kvs')
  | JArr xs =>
      match as_index key with
      | Some i => if (i <=? List.length xs)%nat then Done (JArr (set_nth i v xs)) else Outside
      | None => Outside
      end
  | JBool _ | JNum _ | JStr _ => Done t
  end.

End Js.

(** ** Well-formed trees and structural equality *)

(** The keys of every object are pairwise distinct. *)
Fixpoint wf (j : json) : Prop :=
  match j with
  | JArr xs =>
      (fix all (l : list json) : Prop :=
         match l with [] => True | x :: l' => wf x /\ all l' end) xs
  | JObj kvs =>
      NoDup (Js.keys kvs) /\
      (fix all (l : list (string * json)) : Prop :=
         match l with [] => True | (_, v) :: l' => wf v /\ all l' end) kvs
  | _ => True
  end.

(** Structural equality of two trees: the same scalars, arrays equal element
    by element, objects with the same keys bound to structurally equal
    values, in whatever order the keys come. *)
Fixpoint json_equivb (a b : json) : bool :=
  match a, b with
  | JNull, JNull => true
  | JBool x, JBool y => Bool.eqb x y
  | JNum x, JNum y => Z.eqb x y
  | JStr x, JStr y => String.eqb x y
  | JArr xs, JArr ys =>
      (fix go (l : list json) (r : list json) : bool :=
         match l, r with
         | [], [] => true
         | x :: l', y :: r' => json_equivb x y && go l' r'
         | _, _ => false
         end) xs ys
  | JObj xs, JObj ys =>
      Nat.eqb (List.length xs) (List.length ys) &&
      (fix all (l : list (string * json)) : bool :=
         match l with
         | [] => true
         | (k, x) :: l' =>
             match Js.assoc k ys with
             | Some y => json_equivb x y && all l'
             | None => false
             end
         end) xs
  | _, _ => false
  end.

Definition json_equiv (a b : json) : Prop := json_equivb a b = true.

(** ** The diff engine of [index.js] *)

Module Diff.
Import Js.

(** *** Change records *)

Inductive kind : Type := N | D | E.

Record change : Type := mkChange {
  ckind : kind;
  cpath : string;
  lhs : option json;
  rhs : option json
}.

Definition added (p : string) (v : json) : change := mkChange N p None (Some v).
Definition removed (p : string) (v : json) : change := mkChange D p (Some v) None.
Definition edited (p : string) (v w : json) : change := mkChange E p (Some v) (Some w).

(** [obj1 !== obj2] negated, for two values of which at most one is an
    array or an object (or which come from two separate parses): scalars
    are compared by value, [null] is identical to [null], and an array or
    an object is identical to nothing else. *)
Definition strict_eq (a b : json) : bool :=
  match a, b with
  | JNull, JNull => true
  | JBool x, JBool y => Bool.eqb x y
  | JNum x, JNum y => Z.eqb x y
  | JStr x, JStr y => String.eqb x y
  | _, _ => false
  end.

(** [basePath ? `${basePath}.${key}` : key] *)
Definition key_path (basePath key : string) : string :=
  if nonempty basePath then basePath ++ "." ++ key else key.

(** [basePath ? `${basePath}[${i}]` : `[${i}]`] *)
Definition index_path (basePath : string) (i : nat) : string :=
  if nonempty basePath then basePath ++ "[" ++ nat_to_string i ++ "]"
  else "[" ++ nat_to_string i ++ "]".

(** The own enumerable properties of a value of type ['object']. *)
Definition entries (v : json) : list (string * json) :=
  match v with
  | JObj kvs => kvs
  | JArr xs => indexed 0 xs
  | _ => []
  end.

(** First loop of the object case: the keys of [obj1] that [obj2] lacks. *)
Fixpoint removed_keys (basePath : string) (e1 e2 : list (string * json)) : list change :=
  match e1 with
  | [] => []
  | (k, v) :: rest =>
      if has_key k e2 then removed_keys basePath rest e2
      else removed (key_path basePath k) v :: removed_keys basePath rest e2
  end.

(** Second loop: the keys of [obj2] that [obj1] lacks. *)
Fixpoint added_keys (basePath : string) (e1 e2 : list (string * json)) : list change :=
  match e2 with
  | [] => []
  | (k, v) :: rest =>
      if has_key k e1 then added_keys basePath e1 rest
      else added (key_path basePath k) v :: added_keys basePath e1 rest
  end.

(** Body of the third loop, for a key [k] of [obj1] bound to [v1]; [rec] is
    the recursive comparison of [v1] with its argument. *)
Definition common_key (rec : json -> string -> list change)
           (basePath k : string) (v1 : json) (e2 : list (string * json)) : list change :=
  match assoc k e2 with
  | None => []
  | Some v2 =>
      let currentPath := key_path basePath k in
      if jstype_eqb (typeof v1) TObject && jstype_eqb (typeof v2) TObject
         && negb (is_null v1) && negb (is_null v2)
      then rec v2 currentPath
      else if negb (json_eqb v1 v2) then [edited currentPath v1 v2]
      else []
  end.

(** The tail of the longer right array: indices present only in [obj2]. *)
Fixpoint added_tail (basePath : string) (i : nat) (ys : list json) : list change :=
  match ys with
  | [] => []
  | y :: ys' => added (index_path basePath i) y :: added_tail basePath (S i) ys'
  end.

Fixpoint deepCompare (obj1 obj2 : json) (basePath : string) {struct obj1} : list change :=
  if negb (jstype_eqb (typeof obj1) (typeof obj2)) then [edited basePath obj1 obj2]
  else
    match obj1, obj2 with
    | JArr xs, JArr ys =>
        (fix loop (i : nat) (l r : list json) {struct l} : list change :=
           match l with
           | [] => added_tail basePath i r
           | x :: l' =>
               match r with
               | [] => removed (index_path basePath i) x :: loop (S i) l' []
               | y :: r' => deepCompare x y (index_path basePath i) ++ loop (S i) l' r'
               end
           end) 0%nat xs ys
    | _, _ =>
        if jstype_eqb (typeof obj1) TObject && negb (is_null obj1) && negb (is_null obj2)
        then
          let e2 := entries obj2 in
          removed_keys basePath (entries obj1) e2
          ++ added_keys basePath (entries obj1) e2
          ++ match obj1 with
             | JObj kvs =>
                 (fix loop (l : list (string * json)) : list change :=
                    match l with
                    | [] => []
                    | (k, v1) :: l' =>
                        common_key (deepCompare v1) basePath k v1 e2 ++ loop l'
                    end) kvs
             | JArr xs =>
                 (fix loop (i : nat) (l : list json) : list change :=
                    match l with
                    | [] => []
                    | v1 :: l' =>
                        common_key (deepCompare v1) basePath (nat_to_string i) v1 e2
                        ++ loop (S i) l'
                    end) 0%nat xs
             | _ => []
             end
        else if negb (strict_eq obj1 obj2) then [edited basePath obj1 obj2]
        else []
    end.

(** *** Patches *)

Inductive opcode : Type := Add | Remove | Replace.

Record patch : Type := mkPatch {
  op : opcode;
  ppath : string;
  value : option json
}.

(** [change.path ? `/${change.path.replace(/\./g, '/')}` : ''] *)
Definition pointer (p : string) : string :=
  if nonempty p then String "/" (replace_all "." "/" p) else EmptyString.

Definition compile (c : change) : patch :=
  match ckind c with
  | N => mkPatch Add (pointer (cpath c)) (rhs c)
  | D => mkPatch Remove (pointer (cpath c)) None
  | E => mkPatch Replace (pointer (cpath c)) (rhs c)
  end.

Definition generatePatch (differences : list change) : list patch :=
  map compile differences.

End Diff.

(** ** Applying a patch ([applyPatch] of [index.js]) *)

Module Patch.
Import Js Diff.

(** *** [parseInt] *)

Definition is_space (c : ascii) : bool :=
  let n := nat_of_ascii c in
  Nat.eqb n 32 || ((9 <=? n)%nat && (n <=? 13)%nat).

Fixpoint skip_spaces (s : string) : string :=
  match s with
  | String c s' => if is_space c then skip_spaces s' else s
  | EmptyString => s
  end.

Definition hex_val (c : ascii) : option Z :=
  let n := nat_of_ascii c in
  if (48 <=? n)%nat && (n <=? 57)%nat then Some (Z.of_nat (n - 48))
  else if (97 <=? n)%nat && (n <=? 102)%nat then Some (Z.of_nat (n - 87))
  else if (65 <=? n)%nat && (n <=? 70)%nat then Some (Z.of_nat (n - 55))
  else None.

Definition dec_val (c : ascii) : option Z :=
  if is_digit c then Some (Z.of_nat (digit_val c)) else None.

(** The longest prefix of digits in the given radix, read as a number;
    [None] when it is empty. *)
Fixpoint read_digits (digit : ascii -> option Z) (radix : Z) (acc : option Z) (s : string)
  : option Z :=
  match s with
  | EmptyString => acc
  | String c s' =>
      match digit c with
      | Some d =>
          read_digits digit radix
                      (Some (radix * match acc with Some a => a | None => 0 end + d)%Z) s'
      | None => acc
      end
  end.

(** [parseInt(s)]; [None] is [NaN]. *)
Definition parseInt (s : string) : option Z :=
  let s1 := skip_spaces s in
  let '(neg, s2) :=
    match s1 with
    | String "-" r => (true, r)
    | String "+" r => (false, r)
    | _ => (false, s1)
    end in
  let magnitude :=
    match s2 with
    | String "0" (String "x" r) | String "0" (String "X" r) => read_digits hex_val 16 None r
    | _ => read_digits dec_val 10 None s2
    end in
  match magnitude with
  | Some m => Some (if neg then (- m)%Z else m)
  | None => None
  end.

(** [parseInt(lastPart)] where [lastPart] may be [undefined]. *)
Definition parseInt_part (lastPart : option string) : option Z :=
  match lastPart with
  | Some s => parseInt s
  | None => parseInt "undefined"
  end.

(** *** [Array.prototype.splice] *)

(** The start position [splice] works at: [NaN] is 0, a negative start
    counts from the end, and the result is clamped to the array. *)
Definition splice_start (len : nat) (start : option Z) : nat :=
  match start with
  | None => 0%nat
  | Some z =>
      if (z <? 0)%Z then Z.to_nat (Z.max (Z.of_nat len + z) 0)
      else Nat.min (Z.to_nat z) len
  end.

(** [xs.splice(start, 0, v)] *)
Definition splice_insert (start : option Z) (v : json) (xs : list json) : list json :=
  let s := splice_start (List.length xs) start in
  firstn s xs ++ v :: skipn s xs.

(** [xs.splice(start, 1)] *)
Definition splice_remove (start : option Z) (xs : list json) : list json :=
  let s := splice_start (List.length xs) start in
  firstn s xs ++ skipn (S s) xs.

(** *** One operation *)

(** [pathParts = patch.path.split('/').filter(p => p)] *)
Definition pathParts (p : string) : list string :=
  filter nonempty (split "/" p).

(** [pathParts[pathParts.length - 1]], [undefined] when there is no part. *)
Definition lastPart (parts : list string) : option string :=
  match parts with
  | [] => None
  | _ => Some (last parts EmptyString)
  end.

(** A property key made from [lastPart]. *)
Definition part_key (lp : option string) : string :=
  match lp with Some s => s | None => "undefined" end.

(** [o[key] = v] as the last step of an operation on a plain object. *)
Definition assign (key : string) (v : option json) (kvs : list (string * json))
  : outcome json :=
  match v with
  | None => Outside
  | Some w => kvs' <- put key w kvs ;; Done (JObj kvs')
  end.

(** The [switch (patch.op)] on the container [current] the walk ended in. *)
Definition final (p : patch) (lp : option string) (current : json) : outcome json :=
  match current with
  | JArr xs =>
      let index := parseInt_part lp in
      match op p with
      | Add =>
          match value p with
          | Some v => Done (JArr (splice_insert index v xs))
          | None => Outside
          end
      | Remove => Done (JArr (splice_remove index xs))
      | Replace =>
          match index, value p with
          | Some z, Some v =>
              if (0 <=? z)%Z && (z <=? Z.of_nat (List.length xs))%Z
              then Done (JArr (set_nth (Z.to_nat z) v xs))
              else Outside
          | _, _ => Outside
          end
      end
  | JObj kvs =>
      match op p with
      | Add | Replace => assign (part_key lp) (value p) kvs
      | Remove => Done (JObj (obj_delete (part_key lp) kvs))
      end
  | JNull => Throws
  | JBool _ | JNum _ | JStr _ => Done current
  end.

(** [if (!current[part]) current[part] = {}; current = current[part]] for
    a property that exists: the value the walk goes on with. *)
Definition enter (v : json) : json :=
  if truthy v then v else JObj [].

(** The loop over all parts but the last, then [final]; the result is the
    container [current] as the operation leaves it.  On [null] the read
    [current[part]] raises.  On a number or a boolean it is [undefined]
    (unless [part] names a member of the wrapper's prototype), the
    assignment of [{}] is dropped, [current] becomes [undefined], and the
    next access raises.  A walk through a string, through an array by a part
    that is not a run of digits or past its end, or through a member of
    [Object.prototype] leaves the JSON trees. *)
Fixpoint walk (parts : list string) (fin : json -> outcome json) (current : json)
  : outcome json :=
  match parts with
  | [] => fin current
  | part :: rest =>
      match match_digits part, current with
      | Some index, JArr xs =>
          match nth_error xs index with
          | Some v =>
              r <- walk rest fin (enter v) ;;
              Done (JArr (set_nth index r xs))
          | None =>
              if Nat.eqb index (List.length xs)
              then r <- walk rest fin (JObj []) ;; Done (JArr (xs ++ [r]))
              else Outside
          end
      | _, JObj kvs =>
          match get kvs part with
          | Own v =>
              r <- walk rest fin (enter v) ;;
              Done (JObj (obj_set part r kvs))
          | Missing =>
              r <- walk rest fin (JObj []) ;;
              Done (JObj (obj_set part r kvs))
          | Inherited => Outside
          end
      | _, JNull => Throws
      | _, JArr _ => Outside
      | _, JBool _ | _, JNum _ =>
          if scalar_member part then Outside else Throws
      | _, JStr _ => Outside
      end
  end.

Definition apply_one (result : json) (p : patch) : outcome json :=
  let parts := pathParts (ppath p) in
  walk (removelast parts) (final p (lastPart parts)) result.

Fixpoint applyPatch (obj : json) (patches : list patch) : outcome json :=
  match patches with
  | [] => Done obj
  | p :: rest => r <- apply_one obj p ;; applyPatch r rest
  end.

End Patch.

(** ** The merge module *)

Module Merge.
Import Js.

(** *** Two-way merge *)

Inductive strategy : Type := Overwrite | Preserve | MergeValues.
(** [UnknownPolicy] is any string the [switch] has no case for. *)
Inductive arrayMerge : Type := ArrOverwrite | Concatenate | MergeUnique | UnknownPolicy.

Record options : Type := mkOptions {
  opt_strategy : strategy;
  opt_arrayMerge : arrayMerge
}.

Definition is_preserve (o : options) : bool :=
  match opt_strategy o with Preserve => true | _ => false end.

(** [Array.isArray(v) ? 'array' : typeof v] *)
Inductive mtype : Type := MArray | MOf (t : jstype).

Definition mtype_of (v : json) : mtype :=
  match v with JArr _ => MArray | _ => MOf (typeof v) end.

Definition mtype_eqb (a b : mtype) : bool :=
  match a, b with
  | MArray, MArray => true
  | MOf x, MOf y => jstype_eqb x y
  | _, _ => false
  end.

(** [mergeArrays]: the items of [arr2] that [result] does not hold yet are
    pushed, an object or an array being looked up by its serialisation and
    anything else with [includes]. *)
Fixpoint mergeArrays_loop (result arr2 : list json) : list json :=
  match arr2 with
  | [] => result
  | item :: rest =>
      if jstype_eqb (typeof item) TObject && negb (is_null item) then
        if negb (existsb (fun i => json_eqb i item) result)
        then mergeArrays_loop (result ++ [item]) rest
        else mergeArrays_loop result rest
      else if negb (existsb (fun i => Diff.strict_eq i item) result)
        then mergeArrays_loop (result ++ [item]) rest
        else mergeArrays_loop result rest
  end.

Definition mergeArrays (arr1 arr2 : list json) : list json :=
  mergeArrays_loop arr1 arr2.

(** The body of the loop of [merge] for the key [key] of [s] bound to
    [sourceValue]; [rec] merges [sourceValue] into its argument.  An
    inherited member is a function, of a type no JSON value has, but for
    [__proto__], which reads as the prototype, an object: against it an
    empty object has nothing to merge, a non-empty object is merged into
    the prototype itself, where the run leaves the JSON trees, and any
    other value goes the way of the strategy. *)
Definition merge_key (o : options) (rec : json -> outcome json)
           (key : string) (sourceValue : json) (t : json) : outcome json :=
  tv <- read t key ;;
  match tv with
  | Missing => write t key sourceValue
  | Inherited =>
      match sourceValue with
      | JObj kvs =>
          if String.eqb key "__proto__" then
            match kvs with [] => Done t | _ :: _ => Outside end
          else if is_preserve o then Done t else write t key sourceValue
      | _ => if is_preserve o then Done t else write t key sourceValue
      end
  | Own targetValue =>
      let sourceType := mtype_of sourceValue in
      let targetType := mtype_of targetValue in
      if negb (mtype_eqb sourceType targetType) then
        if is_preserve o then Done t else write t key sourceValue
      else
        match sourceValue, targetValue with
        | JArr sxs, JArr txs =>
            match opt_arrayMerge o with
            | ArrOverwrite => write t key sourceValue
            | Concatenate => write t key (JArr (txs ++ sxs))
            | MergeUnique => write t key (JArr (mergeArrays txs sxs))
            | UnknownPolicy => Done t
            end
        | _, _ =>
            if mtype_eqb sourceType (MOf TObject) && negb (is_null sourceValue) then
              tv' <- rec targetValue ;; write t key tv'
            else if is_preserve o then Done t else write t key sourceValue
        end
  end.

(** The inner function [merge(t, s)]; the result is [t] as the call
    leaves it. *)
Fixpoint merge (o : options) (s : json) (t : json) {struct s} : outcome json :=
  match s with
  | JNull => Throws
  | JBool _ | JNum _ => Done t
  | JStr str =>
      (fix loop (i : nat) (l : list json) (t : json) : outcome json :=
         match l with
         | [] => Done t
         | sv :: l' =>
             t' <- merge_key o (fun _ => Outside) (nat_to_string i) sv t ;;
             loop (S i) l' t'
         end) 0%nat (chars str) t
  | JArr xs =>
      (fix loop (i : nat) (l : list json) (t : json) : outcome json :=
         match l with
         | [] => Done t
         | sv :: l' =>
             t' <- merge_key o (merge o sv) (nat_to_string i) sv t ;;
             loop (S i) l' t'
         end) 0%nat xs t
  | JObj kvs =>
      (fix loop (l : list (string * json)) (t : json) : outcome json :=
         match l with
         | [] => Done t
         | (k, sv) :: l' =>
             t' <- merge_key o (merge o sv) k sv t ;;
             loop l' t'
         end) kvs t
  end.

Definition mergeJson (target source : json) (o : options) : outcome json :=
  merge o source target.

(** *** Flattening *)

(** [path ? `${path}${separator}${key}` : key], with the default
    separator. *)
Definition newPath (path key : string) : string :=
  if nonempty path then path ++ "." ++ key else key.

(** The inner function [flatten(current, path)], threading [result]. *)
Fixpoint flatten (current : json) (path : string) (result : list (string * json))
  : outcome (list (string * json)) :=
  match current with
  | JObj kvs =>
      (fix loop (l : list (string * json)) (result : list (string * json))
         : outcome (list (string * json)) :=
         match l with
         | [] => Done result
         | (key, v) :: l' =>
             result' <- flatten v (newPath path key) result ;;
             loop l' result'
         end) kvs result
  | _ => put path current result
  end.

Definition flattenObject (obj : json) : outcome (list (string * json)) :=
  flatten obj EmptyString [].

(** The walk shared by [unflattenObject] and [setValue]:
    [if (!current[key] || typeof current[key] !== 'object') current[key] = {}]
    along all keys but the last, then [current[last] = value]. *)
Fixpoint set_path (ks : list string) (value : json) (current : json) : outcome json :=
  match ks with
  | [] => Done current
  | [k] => write current k value
  | k :: rest =>
      tv <- read current k ;;
      match tv with
      | Own v =>
          match v with
          | JArr _ | JObj _ =>
              r <- set_path rest value v ;; write current k r
          | _ =>
              match current with
              | JObj _ | JArr _ =>
                  r <- set_path rest value (JObj []) ;; write current k r
              | _ => Outside
              end
          end
      | Inherited =>
          match current with
          | JObj _ =>
              if String.eqb k "__proto__" then Outside
              else r <- set_path rest value (JObj []) ;; write current k r
          | _ => Outside
          end
      | Missing =>
          match current with
          | JObj _ | JArr _ =>
              r <- set_path rest value (JObj []) ;; write current k r
          | _ => Throws
          end
      end
  end.

(** [unflattenObject(obj)] for the object whose entries are [obj]. *)
Fixpoint unflatten_loop (obj : list (string * json)) (result : json) : outcome json :=
  match obj with
  | [] => Done result
  | (path, value) :: rest =>
      result' <- set_path (split "." path) value result ;;
      unflatten_loop rest result'
  end.

Definition unflattenObject (obj : list (string * json)) : outcome json :=
  unflatten_loop obj (JObj []).

Definition setValue (obj : json) (path : string) (value : json) : outcome json :=
  set_path (split "." path) value obj.

(** *** Three-way merge *)

(** An entry of a change map: [{ from, value }]. *)
Record fchange : Type := mkFchange {
  cfrom : lookup;
  cvalue : json
}.

(** [flatFrom[path] !== value]: the two flattenings come from two trees
    parsed apart, so an array of one is never the array of the other. *)
Definition differs (old : lookup) (value : json) : bool :=
  match old with
  | Own v => negb (Diff.strict_eq v value)
  | Inherited | Missing => true
  end.

Fixpoint changes_of (flatFrom flatTo : list (string * json)) : list (string * fchange) :=
  match flatTo with
  | [] => []
  | (path, value) :: rest =>
      if differs (get flatFrom path) value
      then (path, mkFchange (get flatFrom path) value) :: changes_of flatFrom rest
      else changes_of flatFrom rest
  end.

Definition compareChanges (from to : json) : outcome (list (string * fchange)) :=
  flatFrom <- flattenObject from ;;
  flatTo <- flattenObject to ;;
  Done (changes_of flatFrom flatTo).

Fixpoint change_at (path : string) (changes : list (string * fchange)) : option fchange :=
  match changes with
  | [] => None
  | (p, c) :: rest => if String.eqb path p then Some c else change_at path rest
  end.

(** [remoteChanges[path]?.value]: the value of an own entry, [undefined]
    for anything else (the members of [Object.prototype] have no
    [value]). *)
Definition value_at (path : string) (changes : list (string * fchange)) : option json :=
  match change_at path changes with
  | Some c => Some (cvalue c)
  | None => None
  end.

(** [remoteChanges[path] && JSON.stringify(localChanges[path].value) !==
    JSON.stringify(remoteChanges[path].value)]: an own entry is an object,
    hence truthy; so is a member of [Object.prototype], whose [value] is
    [undefined] and serialises to [undefined], which no string equals. *)
Definition conflicting (path : string) (localValue : json)
           (remoteChanges : list (string * fchange)) : bool :=
  match change_at path remoteChanges with
  | Some c => negb (json_eqb localValue (cvalue c))
  | None => proto_member path
  end.

Fixpoint findConflicts (localChanges remoteChanges : list (string * fchange)) : list string :=
  match localChanges with
  | [] => []
  | (path, c) :: rest =>
      if conflicting path (cvalue c) remoteChanges
      then path :: findConflicts rest remoteChanges
      else findConflicts rest remoteChanges
  end.

Definition includes (conflicts : list string) (path : string) : bool :=
  existsb (String.eqb path) conflicts.

(** The two loops that apply the changes outside [conflicts]. *)
Fixpoint apply_changes (conflicts : list string) (changes : list (string * fchange))
         (result : json) : outcome json :=
  match changes with
  | [] => Done result
  | (path, c) :: rest =>
      if includes conflicts path then apply_changes conflicts rest result
      else result' <- setValue result path (cvalue c) ;;
           apply_changes conflicts rest result'
  end.

Record conflict : Type := mkConflict {
  conflict_path : string;
  local : option json;
  remote : option json
}.

Record merged_result : Type := mkMerged {
  merged : json;
  conflicts : list conflict
}.

Definition threeWayMerge (base local remote : json) : outcome merged_result :=
  localChanges <- compareChanges base local ;;
  remoteChanges <- compareChanges base remote ;;
  let conflicts := findConflicts localChanges remoteChanges in
  r1 <- apply_changes conflicts localChanges base ;;
  r2 <- apply_changes conflicts remoteChanges r1 ;;
  Done (mkMerged r2
          (map (fun path => mkConflict path (value_at path localChanges)
                                       (value_at path remoteChanges))
               conflicts)).

End Merge.

(** * The vocabulary of the properties *)

Import Js Diff Patch Merge.

(** ** The inner loops of the sources, as functions of their own *)

(** The loop over the indices of two arrays, from index [i] on. *)
Fixpoint compare_arrays (basePath : string) (i : nat) (l r : list json) : list change :=
  match l with
  | [] => added_tail basePath i r
  | x :: l' =>
      match r with
      | [] => removed (index_path basePath i) x :: compare_arrays basePath (S i) l' []
      | y :: r' =>
          deepCompare x y (index_path basePath i) ++ compare_arrays basePath (S i) l' r'
      end
  end.

(** The third loop of the object case, over the entries of [obj1]. *)
Fixpoint common_keys (basePath : string) (l e2 : list (string * json)) : list change :=
  match l with
  | [] => []
  | (k, v1) :: l' =>
      common_key (deepCompare v1) basePath k v1 e2 ++ common_keys basePath l' e2
  end.

(** ** The order of the records of a diff *)

(** The path [q] is [p] or lies below it. *)
Definition extends (p q : string) : Prop := exists s, q = (p ++ s)%string.

(** Every record lies at the path [p] or below it. *)
Definition below_path (p : string) (cs : list change) : Prop :=
  Forall (fun c => extends p (cpath c)) cs.

(** The place of a kind in the order Removed, Added, Edited. *)
Definition rank (k : kind) : nat :=
  match k with D => 0 | N => 1 | E => 2 end.

(** No number is followed by a smaller one. *)
Fixpoint nondecreasing (l : list nat) : bool :=
  match l with
  | a :: (b :: _) as rest => (a <=? b)%nat && nondecreasing rest
  | _ => true
  end.

(** Removed records, then Added records, then Edited records. *)
Definition removed_added_edited (l : list change) : bool :=
  nondecreasing (map (fun c => rank (ckind c)) l).

(** ** The loops of [merge] *)

(** The options of a merge that preserves the target's values. *)
Definition preserving (am : arrayMerge) : options := mkOptions Preserve am.

(** Over the entries of an object. *)
Fixpoint merge_entries (o : options) (l : list (string * json)) (t : json) : outcome json :=
  match l with
  | [] => Done t
  | (k, sv) :: l' => t' <- merge_key o (merge o sv) k sv t ;; merge_entries o l' t'
  end.

(** Over the elements of an array, from index [i] on. *)
Fixpoint merge_items (o : options) (i : nat) (l : list json) (t : json) : outcome json :=
  match l with
  | [] => Done t
  | sv :: l' =>
      t' <- merge_key o (merge o sv) (nat_to_string i) sv t ;; merge_items o (S i) l' t'
  end.

(** Over the characters of a string, from index [i] on. *)
Fixpoint merge_chars (o : options) (i : nat) (l : list json) (t : json) : outcome json :=
  match l with
  | [] => Done t
  | sv :: l' =>
      t' <- merge_key o (fun _ => Outside) (nat_to_string i) sv t ;; merge_chars o (S i) l' t'
  end.

(** ** Addresses as sequences of keys *)

(** The value a tree holds where a sequence of keys leads through its
    objects. *)
Fixpoint at_path (ks : list string) (j : json) : option json :=
  match ks with
  | [] => Some j
  | k :: ks' =>
      match j with
      | JObj kvs =>
          match assoc k kvs with
          | Some v => at_path ks' v
          | None => None
          end
      | _ => None
      end
  end.











(** The keys joined by a separator: the string an address is rendered to. *)
Fixpoint join (sep : ascii) (ks : list string) : string :=
  match ks with
  | [] => EmptyString
  | [k] => k
  | k :: rest => k ++ String sep (join sep rest)
  end.

(** No character of the string is [c]. *)
Fixpoint free_of (c : ascii) (s : string) : bool :=
  match s with
  | EmptyString => true
  | String a s' => negb (Ascii.eqb a c) && free_of c s'
  end.

(** A key an address can carry through a pointer: not empty, free of the
    two separators, and other than [__proto__]. *)
Definition clean_key (k : string) : bool :=
  nonempty k && free_of "." k && free_of "/" k && negb (String.eqb k "__proto__").

(** ** Updates addressed by keys *)

(** The binding of a key after an update of the value below it: bound to
    the new value, or unbound. *)
Definition rebind (k : string) (c : option json) (r : list (string * json))
  : list (string * json) :=
  match c with
  | Some v => obj_set k v r
  | None => obj_delete k r
  end.

(** A sequence of updates, each addressed by a sequence of keys, run one
    after the other by [run]. *)
Fixpoint run_all (X : Type) (run : list string -> X -> json -> outcome json)
         (ops : list (list string * X)) (j : json) : outcome json :=
  match ops with
  | [] => Done j
  | (ks, x) :: ops' => j' <- run ks x j ;; run_all X run ops' j'
  end.

(** The same updates seen from their first key [k], run on its binding by
    [step]. *)
Fixpoint step_all (X : Type)
         (step : string -> list string -> X -> option json -> outcome (option json))
         (k : string) (tails : list (list string * X)) (c : option json)
  : outcome (option json) :=
  match tails with
  | [] => Done c
  | (rest, x) :: tails' => c' <- step k rest x c ;; step_all X step k tails' c'
  end.

(** The updates that start with [k], without that first key. *)
Fixpoint below (X : Type) (k : string) (ops : list (list string * X))
  : list (list string * X) :=
  match ops with
  | [] => []
  | ([], _) :: ops' => below X k ops'
  | (k' :: rest, x) :: ops' =>
      if String.eqb k k' then (rest, x) :: below X k ops' else below X k ops'
  end.

(** The update starts with a key, and a good one. *)
Definition headed (X : Type) (good : string -> Prop) (op : list string * X) : Prop :=
  match fst op with
  | [] => False
  | k :: _ => good k
  end.

(** ** Flattening *)

(** A key that survives flattening: not empty, free of the separator, and
    not [__proto__]. *)
Definition flat_key (k : string) : bool :=
  nonempty k && free_of "." k && negb (String.eqb k "__proto__").

(** An object tree without arrays, with keys that survive flattening, and
    in which every object below the root has at least one key. *)
Fixpoint flat_tree (j : json) : bool :=
  match j with
  | JObj kvs =>
      (fix all (l : list (string * json)) : bool :=
         match l with
         | [] => true
         | (k, v) :: l' =>
             flat_key k
             && match v with
                | JArr _ => false
                | JObj [] => false
                | _ => flat_tree v
                end
             && all l'
         end) kvs
  | JArr _ => false
  | _ => true
  end.

(** What [flat_tree] asks of a value bound to a key. *)
Definition flat_value (v : json) : bool :=
  match v with
  | JArr _ => false
  | JObj [] => false
  | _ => flat_tree v
  end.

(** The leaves of a tree, each with the keys that lead to it. *)
Fixpoint leaves (j : json) : list (list string * json) :=
  match j with
  | JObj kvs =>
      (fix go (l : list (string * json)) : list (list string * json) :=
         match l with
         | [] => []
         | (k, v) :: l' => map (fun e => (k :: fst e, snd e)) (leaves v) ++ go l'
         end) kvs
  | _ => [([], j)]
  end.

(** The leaves below the entries of an object. *)
Definition leaves_entries (l : list (string * json)) : list (list string * json) :=
  flat_map (fun kv => map (fun e => (fst kv :: fst e, snd e)) (leaves (snd kv))) l.

(** The loop of [flatten] over the entries of an object. *)
Fixpoint flatten_entries (path : string) (l result : list (string * json))
  : outcome (list (string * json)) :=
  match l with
  | [] => Done result
  | (key, v) :: l' =>
      result' <- flatten v (newPath path key) result ;; flatten_entries path l' result'
  end.

(** The object [set_path] goes on with below a key. *)
Definition child_of (c : option json) : json :=
  match c with
  | Some (JArr xs) => JArr xs
  | Some (JObj kvs) => JObj kvs
  | _ => JObj []
  end.

(** [set_path] seen from its first key [k], which plays no part of its
    own. *)
Definition set_step (k : string) (rest : list string) (v : json) (c : option json)
  : outcome (option json) :=
  match rest with
  | [] => Done (Some v)
  | _ => c' <- set_path rest v (child_of c) ;; Done (Some c')
  end.

(** The entries of a flat object, each path split into its keys. *)
Definition keyed (obj : list (string * json)) : list (list string * json) :=
  map (fun pv => (split "." (fst pv), snd pv)) obj.

(** The key is not the accessor [__proto__]. *)
Definition not_proto (k : string) : Prop := String.eqb k "__proto__" = false.

(** ** Diff and patch on sequences of keys *)

(** An object tree without arrays whose keys a pointer can carry. *)
Fixpoint clean_tree (j : json) : bool :=
  match j with
  | JObj kvs =>
      (fix all (l : list (string * json)) : bool :=
         match l with
         | [] => true
         | (k, v) :: l' => clean_key k && clean_tree v && all l'
         end) kvs
  | JArr _ => false
  | _ => true
  end.

(** What an operation does, apart from where: its code and its value. *)
Definition payload : Type := (opcode * option json)%type.

(** One operation addressed by its parsed segments. *)
Definition patch_run (ks : list string) (x : payload) (j : json) : outcome json :=
  walk (removelast ks) (final (mkPatch (fst x) EmptyString (snd x)) (lastPart ks)) j.

(** An operation seen from its first segment [k]. *)
Definition patch_step (k : string) (rest : list string) (x : payload) (c : option json)
  : outcome (option json) :=
  match rest with
  | [] =>
      match fst x with
      | Remove => Done None
      | Add | Replace =>
          match snd x with
          | Some v => Done (Some v)
          | None => Outside
          end
      end
  | _ =>
      match c with
      | Some v => c' <- patch_run rest x (enter v) ;; Done (Some c')
      | None =>
          if proto_member k then Outside
          else c' <- patch_run rest x (JObj []) ;; Done (Some c')
      end
  end.

(** The operations compiled from a list of changes, with parsed pointers. *)
Definition keyed_ops (cs : list change) : list (list string * payload) :=
  map (fun c => (pathParts (ppath (compile c)), (op (compile c), value (compile c)))) cs.

(** The entries of [g], each under the key of its entry of [l]. *)
Definition under {X : Type} (l : list (string * json))
           (g : string * json -> list (list string * X)) : list (list string * X) :=
  flat_map (fun kv => map (fun e => (fst kv :: fst e, snd e)) (g kv)) l.

(** The three loops of the object case of the diff, on sequences of keys
    relative to the two objects compared. *)
Definition removed_below (b : list (string * json)) (kv : string * json)
  : list (list string * payload) :=
  if has_key (fst kv) b then [] else [([], (Remove, None))].

(** The second loop: a key of the right object the left one lacks. *)
Definition added_below (a : list (string * json)) (kv : string * json)
  : list (list string * payload) :=
  if has_key (fst kv) a then [] else [([], (Add, Some (snd kv)))].

(** The third loop: a key of the left object the right one has. *)
Definition common_below (rec : json -> list (list string * payload))
           (b : list (string * json)) (kv : string * json)
  : list (list string * payload) :=
  match assoc (fst kv) b with
  | None => []
  | Some v2 =>
      match snd kv, v2 with
      | JObj _, JObj _ => rec v2
      | _, _ => if json_eqb (snd kv) v2 then [] else [([], (Replace, Some v2))]
      end
  end.

(** The operations of the diff of two object trees without arrays. *)
Fixpoint kdiff (A B : json) {struct A} : list (list string * payload) :=
  match A, B with
  | JObj a, JObj b =>
      under a (removed_below b)
      ++ under b (added_below a)
      ++ (fix loop (l : list (string * json)) : list (list string * payload) :=
            match l with
            | [] => []
            | (k, v1) :: l' =>
                map (fun e => (k :: fst e, snd e)) (common_below (kdiff v1) b (k, v1))
                ++ loop l'
            end) a
  | _, _ => []
  end.

(** * The rest of the sources *)

(** ** Summary, ignore filter and CSV export of the command line *)

Module Report.

(** [{ total, added, removed, edited }] *)
Record summary : Type := mkSummary {
  s_total : nat;
  s_added : nat;
  s_removed : nat;
  s_edited : nat
}.

(** The loop of [getDiffSummary] over the records. *)
Fixpoint count_kinds (differences : list change) (s : summary) : summary :=
  match differences with
  | [] => s
  | change :: rest =>
      count_kinds rest
        match ckind change with
        | N => mkSummary (s_total s) (S (s_added s)) (s_removed s) (s_edited s)
        | D => mkSummary (s_total s) (s_added s) (S (s_removed s)) (s_edited s)
        | E => mkSummary (s_total s) (s_added s) (s_removed s) (S (s_edited s))
        end
  end.

Definition getDiffSummary (differences : list change) : summary :=
  count_kinds differences (mkSummary (List.length differences) 0 0 0).

(** [s.startsWith(p)] *)
Definition startsWith (s p : string) : bool := String.prefix p s.

(** [ignorePaths.some(igp => diffPath.startsWith(igp))] with
    [diffPath = d.path || '']. *)
Definition ignored (ignorePaths : list string) (d : change) : bool :=
  existsb (fun igp => startsWith (cpath d) igp) ignorePaths.

(** [differences.filter(d => !ignorePaths.some(...))] of the [diff]
    command. *)
Definition filterIgnored (ignorePaths : list string) (differences : list change)
  : list change :=
  filter (fun d => negb (ignored ignorePaths d)) differences.

(** [options.ignore.split(',').map(p => p.trim())]; [trim] is
    [String.prototype.trim]. *)
Definition ignorePaths_of (trim : string -> string) (option : string) : list string :=
  map trim (split "," option).

(** The filter as the [diff] command runs it: only for an [--ignore]
    option that is given and not the empty string. *)
Definition applyIgnore (trim : string -> string) (ignore : option string)
           (differences : list change) : list change :=
  match ignore with
  | Some text =>
      if nonempty text then filterIgnored (ignorePaths_of trim text) differences
      else differences
  | None => differences
  end.

(** The double quote. *)
Definition dquote : ascii := ascii_of_nat 34.

(** The [replace] of the CSV export: every double quote of the cell is
    written twice. *)
Fixpoint escape_quotes (cell : string) : string :=
  match cell with
  | EmptyString => EmptyString
  | String c rest =>
      if Ascii.eqb c dquote then String dquote (String dquote (escape_quotes rest))
      else String c (escape_quotes rest)
  end.

(** The cell of the CSV export: the escaped text between two double
    quotes. *)
Definition csv_cell (cell : string) : string :=
  String dquote (escape_quotes cell ++ String dquote EmptyString).

(** [row.map(cell => ...).join(',')] *)
Definition csv_row (row : list string) : string :=
  join "," (map csv_cell row).

End Report.

(** ** [deepMerge] of the merge module *)

Module MergeAll.

(** The loop [result = mergeJson(result, objects[i], options)]. *)
Fixpoint deepMerge_loop (result : json) (rest : list json) (o : options) : outcome json :=
  match rest with
  | [] => Done result
  | x :: rest' => r <- mergeJson result x o ;; deepMerge_loop r rest' o
  end.

(** [deepMerge(objects, options)] for an array [objects]. *)
Definition deepMerge (objects : list json) (o : options) : outcome json :=
  match objects with
  | [] => Done (JObj [])
  | first :: rest => deepMerge_loop first rest o
  end.

End MergeAll.

(** ** The vocabulary of the further properties *)

Import Report MergeAll.

(** No array anywhere in the tree. *)
Fixpoint array_free (j : json) : bool :=
  match j with
  | JArr _ => false
  | JObj kvs =>
      (fix all (l : list (string * json)) : bool :=
         match l with
         | [] => true
         | (_, v) :: l' => array_free v && all l'
         end) kvs
  | _ => true
  end.

(** The value is [null], a boolean, a number or a string. *)
Definition scalar (v : json) : bool :=
  match v with
  | JArr _ | JObj _ => false
  | _ => true
  end.

(** A record with its two sides exchanged: Added for Removed, and the
    two values of an Edited record swapped. *)
Definition swap (c : change) : change :=
  match ckind c with
  | N => mkChange D (cpath c) (rhs c) (lhs c)
  | D => mkChange N (cpath c) (rhs c) (lhs c)
  | E => mkChange E (cpath c) (rhs c) (lhs c)
  end.

(** The record is of the given kind. *)
Definition of_kind (k : kind) (c : change) : bool :=
  match k, ckind c with
  | N, N | D, D | E, E => true
  | _, _ => false
  end.

(** The number of records of a kind. *)
Definition count_kind (k : kind) (ds : list change) : nat :=
  List.length (filter (of_kind k) ds).

(** What [flatten] keeps true of its [result]: distinct keys, none of them
    [__proto__], and values that satisfy [L]. *)
Definition flat_result (L : json -> Prop) (result : list (string * json)) : Prop :=
  NoDup (keys result) /\ has_key "__proto__" result = false
  /\ Forall (fun kv => L (snd kv)) result.


(** ** Reading a CSV cell back *)

(** The text of a quoted cell after its opening quote: a doubled quote
    stands for a quote, a single one ends the cell.  The result is the
    cell and what follows it. *)
Fixpoint read_quoted (s : string) : option (string * string) :=
  match s with
  | EmptyString => None
  | String c rest =>
      if Ascii.eqb c dquote then
        match rest with
        | String c' rest' =>
            if Ascii.eqb c' dquote then
              match read_quoted rest' with
              | Some (cell, r) => Some (String dquote cell, r)
              | None => None
              end
            else Some (EmptyString, rest)
        | EmptyString => Some (EmptyString, EmptyString)
        end
      else
        match read_quoted rest with
        | Some (cell, r) => Some (String c cell, r)
        | None => None
        end
  end.

(** A quoted cell at the head of a text. *)
Definition read_cell (s : string) : option (string * string) :=
  match s with
  | String c rest => if Ascii.eqb c dquote then read_quoted rest else None
  | EmptyString => None
  end.

(** The text does not start with a double quote. *)
Definition no_quote_ahead (s : string) : bool :=
  match s with
  | String c _ => negb (Ascii.eqb c dquote)
  | EmptyString => true
  end.

(** No object of the tree, the root or one reached from it through the
    values of objects, has a key [__proto__]. *)
Fixpoint proto_free (j : json) : bool :=
  match j with
  | JObj kvs =>
      (fix all (l : list (string * json)) : bool :=
         match l with
         | [] => true
         | (k, v) :: l' => negb (String.eqb k "__proto__") && proto_free v && all l'
         end) kvs
  | _ => true
  end.

(** * Properties *)

(** ** Basic facts *)

Lemma json_eqb_refl (a : json) : json_eqb a a = true.
Proof.
  induction a as [ | b | n | s | xs IH | kvs IH ] using json_induction; simpl.
  - reflexivity.
  - apply Bool.eqb_reflx.
  - apply Z.eqb_refl.
  - apply String.eqb_refl.
  - induction IH as [ | x l Hx _ IHl ]; [ reflexivity | ].
    rewrite Hx, IHl. reflexivity.
  - induction IH as [ | [k x] l Hx _ IHl ]; [ reflexivity | ].
    simpl in Hx. rewrite String.eqb_refl, Hx, IHl. reflexivity.
Qed.

Lemma json_eqb_eq (a b : json) : json_eqb a b = true -> a = b.
Proof.
  revert b.
  induction a as [ | x | x | x | xs IH | kvs IH ] using json_induction; intros [ | y | y | y | ys | ys ];
    simpl; try discriminate; intros H.
  - reflexivity.
  - apply Bool.eqb_prop in H. congruence.
  - apply Z.eqb_eq in H. congruence.
  - apply String.eqb_eq in H. congruence.
  - f_equal. revert ys H.
    induction IH as [ | x l Hx _ IHl ]; intros [ | y r ] H; try discriminate.
    + reflexivity.
    + apply andb_prop in H. destruct H as [H1 H2].
      f_equal; [ apply Hx; exact H1 | apply IHl; exact H2 ].
  - f_equal. revert ys H.
    induction IH as [ | [k x] l Hx _ IHl ]; intros [ | [k' y] r ] H; try discriminate.
    + reflexivity.
    + apply andb_prop in H. destruct H as [H12 H3].
      apply andb_prop in H12. destruct H12 as [H1 H2].
      apply String.eqb_eq in H1. simpl in Hx.
      f_equal; [ f_equal; [ exact H1 | apply Hx; exact H2 ] | apply IHl; exact H3 ].
Qed.

Lemma str_app_assoc (a b c : string) : ((a ++ b) ++ c = a ++ (b ++ c))%string.
Proof. induction a as [ | x a IH ]; simpl; [ reflexivity | rewrite IH; reflexivity ]. Qed.

(** ** The loops of [deepCompare] *)

Lemma deepCompare_arrays (xs ys : list json) (p : string) :
  deepCompare (JArr xs) (JArr ys) p = compare_arrays p 0 xs ys.
Proof.
  simpl. generalize 0%nat. revert ys.
  induction xs as [ | x l IH ]; intros ys i; [ reflexivity | ].
  destruct ys as [ | y r ]; simpl; rewrite IH; reflexivity.
Qed.

Lemma deepCompare_objects (o1 o2 : list (string * json)) (p : string) :
  deepCompare (JObj o1) (JObj o2) p
  = removed_keys p o1 o2 ++ added_keys p o1 o2 ++ common_keys p o1 o2.
Proof.
  simpl. do 2 f_equal.
  induction o1 as [ | [k v1] l IH ]; [ reflexivity | ].
  simpl. rewrite IH. reflexivity.
Qed.

Lemma removed_keys_filter (p : string) (o1 o2 : list (string * json)) :
  removed_keys p o1 o2
  = map (fun kv => removed (key_path p (fst kv)) (snd kv))
        (filter (fun kv => negb (has_key (fst kv) o2)) o1).
Proof.
  induction o1 as [ | [k v] l IH ]; [ reflexivity | ].
  simpl. destruct (has_key k o2); simpl; rewrite IH; reflexivity.
Qed.

Lemma added_keys_filter (p : string) (o1 o2 : list (string * json)) :
  added_keys p o1 o2
  = map (fun kv => added (key_path p (fst kv)) (snd kv))
        (filter (fun kv => negb (has_key (fst kv) o1)) o2).
Proof.
  induction o2 as [ | [k v] l IH ]; [ reflexivity | ].
  simpl. destruct (has_key k o1); simpl; rewrite IH; reflexivity.
Qed.

Lemma common_keys_filter (p : string) (l o2 : list (string * json)) :
  common_keys p l o2
  = flat_map (fun kv => common_key (deepCompare (snd kv)) p (fst kv) (snd kv) o2)
             (filter (fun kv => has_key (fst kv) o2) l).
Proof.
  induction l as [ | [k v1] l IH ]; [ reflexivity | ].
  cbn [common_keys filter fst snd]. rewrite IH.
  unfold has_key at 2.
  destruct (assoc k o2) as [v2 | ] eqn:Hk.
  - reflexivity.
  - unfold common_key. rewrite Hk. reflexivity.
Qed.

Lemma added_tail_map (p : string) (i : nat) (ys : list json) :
  added_tail p i ys
  = map (fun iy => added (index_path p (fst iy)) (snd iy))
        (combine (seq i (List.length ys)) ys).
Proof.
  revert i. induction ys as [ | y r IH ]; intros i; [ reflexivity | ].
  simpl. rewrite IH. reflexivity.
Qed.

Lemma compare_arrays_shape (p : string) (l r : list json) (i : nat) :
  compare_arrays p i l r
  = flat_map (fun ixy => deepCompare (fst (snd ixy)) (snd (snd ixy)) (index_path p (fst ixy)))
             (combine (seq i (Nat.min (List.length l) (List.length r))) (combine l r))
    ++ map (fun ix => removed (index_path p (fst ix)) (snd ix))
           (combine (seq (i + List.length r) (List.length l - List.length r))
                    (skipn (List.length r) l))
    ++ map (fun iy => added (index_path p (fst iy)) (snd iy))
           (combine (seq (i + List.length l) (List.length r - List.length l))
                    (skipn (List.length l) r)).
Proof.
  revert r i. induction l as [ | x l IH ]; intros r i.
  - cbn [compare_arrays List.length Nat.min combine seq flat_map skipn Nat.sub map app].
    rewrite added_tail_map, Nat.add_0_r, Nat.sub_0_r.
    destruct r; reflexivity.
  - destruct r as [ | y r ].
    + cbn [compare_arrays]. rewrite IH.
      cbn [List.length]. rewrite Nat.min_0_r, !Nat.add_0_r, !Nat.sub_0_r.
      cbn [seq combine flat_map skipn Nat.sub map app fst snd].
      destruct l; reflexivity.
    + cbn [compare_arrays]. rewrite IH.
      cbn [List.length Nat.min seq combine flat_map skipn Nat.sub fst snd].
      rewrite <- app_assoc.
      replace (S i + List.length r)%nat with (i + S (List.length r))%nat by lia.
      replace (S i + List.length l)%nat with (i + S (List.length l))%nat by lia.
      reflexivity.
Qed.

(** ** C2: a change of container kind *)

(** C2 (the code departs from it).  An array compared with a plain object
    passes the [typeof] test, since both are ['object'], and is compared key
    by key: [deepCompare([1], {a: 1})] is a Removed record at [0] and an
    Added record at [a], not one Edited record at the root. *)
Theorem C2_array_against_object :
  deepCompare (JArr [JNum 1]) (JObj [("a", JNum 1)]) EmptyString
  = [removed "0" (JNum 1); added "a" (JNum 1)].
Proof. reflexivity. Qed.

(** Where [typeof] does tell the two sides apart, the diff is the single
    Edited record the specification describes. *)
Lemma deepCompare_typeof_differs (a b : json) (p : string) :
  typeof a <> typeof b -> deepCompare a b p = [edited p a b].
Proof.
  intros H.
  assert (Hne : jstype_eqb (typeof a) (typeof b) = false).
  { destruct (typeof a), (typeof b); try reflexivity; exfalso; apply H; reflexivity. }
  destruct a; simpl in *; rewrite Hne; reflexivity.
Qed.

(** ** C3: pointers *)

(** C3 (the code departs from it).  [generatePatch] only turns every [.]
    into [/] behind a leading [/]: the address [a[2].b] compiles to the
    pointer [/a[2]/b], brackets kept, and not to [/a/2/b]. *)
Theorem C3_bracket_kept :
  generatePatch [edited "a[2].b" (JNum 1) (JNum 2)]
  = [mkPatch Replace "/a[2]/b" (Some (JNum 2))].
Proof. reflexivity. Qed.

(** ** Records lie below the base path *)

Lemma extends_refl (p : string) : extends p p.
Proof. exists EmptyString. induction p as [ | c p IH ]; simpl; congruence. Qed.

Lemma extends_trans (p q r : string) : extends p q -> extends q r -> extends p r.
Proof.
  intros [s ->] [t ->]. exists (s ++ t)%string. apply str_app_assoc.
Qed.

Lemma extends_key_path (p k : string) : extends p (key_path p k).
Proof.
  unfold key_path. destruct p as [ | c p ]; [ exists k; reflexivity | ].
  cbn [nonempty String.eqb negb]. eexists. reflexivity.
Qed.

Lemma extends_index_path (p : string) (i : nat) : extends p (index_path p i).
Proof.
  unfold index_path. destruct p as [ | c p ]; [ eexists; reflexivity | ].
  cbn [nonempty String.eqb negb]. eexists. reflexivity.
Qed.

Lemma below_path_weaken (p q : string) (cs : list change) :
  extends p q -> below_path q cs -> below_path p cs.
Proof.
  intros Hpq. apply Forall_impl. intros c Hc. exact (extends_trans _ _ _ Hpq Hc).
Qed.

Lemma removed_keys_below (p : string) (e1 e2 : list (string * json)) :
  below_path p (removed_keys p e1 e2).
Proof.
  induction e1 as [ | [k v] l IH ]; [ constructor | ].
  cbn [removed_keys]. destruct (has_key k e2); [ exact IH | ].
  constructor; [ apply extends_key_path | exact IH ].
Qed.

Lemma added_keys_below (p : string) (e1 e2 : list (string * json)) :
  below_path p (added_keys p e1 e2).
Proof.
  induction e2 as [ | [k v] l IH ]; [ constructor | ].
  cbn [added_keys]. destruct (has_key k e1); [ exact IH | ].
  constructor; [ apply extends_key_path | exact IH ].
Qed.

Lemma added_tail_below (p : string) (i : nat) (ys : list json) :
  below_path p (Diff.added_tail p i ys).
Proof.
  revert i. induction ys as [ | y ys IH ]; intros i; [ constructor | ].
  constructor; [ apply extends_index_path | apply IH ].
Qed.

Lemma common_keys_below (p : string) (l e2 : list (string * json)) :
  Forall (fun kv => forall b q, below_path q (deepCompare (snd kv) b q)) l ->
  below_path p (common_keys p l e2).
Proof.
  induction 1 as [ | [k v1] l Hv _ IH ]; [ constructor | ].
  cbn [common_keys]. apply Forall_app. split; [ | exact IH ].
  unfold common_key. destruct (assoc k e2) as [v2 | ]; [ | constructor ].
  destruct (_ && _).
  - apply (below_path_weaken _ _ _ (extends_key_path p k)). apply Hv.
  - destruct (negb _); constructor; [ apply extends_key_path | constructor ].
Qed.

Lemma compare_arrays_below (p : string) (l : list json) :
  Forall (fun x => forall b q, below_path q (deepCompare x b q)) l ->
  forall r i, below_path p (compare_arrays p i l r).
Proof.
  induction 1 as [ | x l Hx _ IH ]; intros r i.
  - apply added_tail_below.
  - destruct r as [ | y r ]; cbn [compare_arrays].
    + constructor; [ apply extends_index_path | apply IH ].
    + apply Forall_app. split; [ | apply IH ].
      apply (below_path_weaken _ _ _ (extends_index_path p i)). apply Hx.
Qed.

Lemma indexed_values (P : json -> Prop) (xs : list json) (i : nat) :
  Forall P xs -> Forall (fun kv => P (snd kv)) (indexed i xs).
Proof.
  intros H. revert i. induction H as [ | x l Hx _ IH ]; intros i; constructor; auto.
Qed.

(** The object case, for any two values of type ['object'] that are not
    both arrays. *)
Lemma deepCompare_containers (obj1 obj2 : json) (p : string) :
  typeof obj1 = TObject -> typeof obj2 = TObject ->
  is_null obj1 = false -> is_null obj2 = false ->
  isArray obj1 && isArray obj2 = false ->
  deepCompare obj1 obj2 p
  = removed_keys p (entries obj1) (entries obj2)
    ++ added_keys p (entries obj1) (entries obj2)
    ++ common_keys p (entries obj1) (entries obj2).
Proof.
  intros H1 H2 Hn1 Hn2 Harr.
  destruct obj1 as [ | | | | xs | o1 ]; try discriminate;
    destruct obj2 as [ | | | | ys | o2 ]; try discriminate.
  - cbn [deepCompare typeof jstype_eqb negb is_null andb entries].
    do 2 apply f_equal. clear. generalize 0%nat.
    induction xs as [ | x l IH ]; intros i; [ reflexivity | ].
    cbn [indexed common_keys]. rewrite IH. reflexivity.
  - cbn [deepCompare typeof jstype_eqb negb is_null andb entries].
    do 2 apply f_equal. clear.
    induction o1 as [ | [k v1] l IH ]; [ reflexivity | ].
    cbn [common_keys]. rewrite IH. reflexivity.
  - apply deepCompare_objects.
Qed.

(** Every record of a diff lies at the base path or below it. *)
Lemma deepCompare_below (a : json) :
  forall b p, below_path p (deepCompare a b p).
Proof.
  assert (Hedit : forall p v w, below_path p [edited p v w]).
  { intros p v w. constructor; [ apply extends_refl | constructor ]. }
  induction a as [ | x | x | x | xs IH | kvs IH ] using json_induction; intros b p;
    try (destruct b; cbn [deepCompare typeof jstype_eqb negb is_null andb strict_eq];
         repeat match goal with
                | |- context [ if ?c then _ else _ ] => destruct c
                end;
         (apply Hedit || constructor)).
  - destruct b as [ | y | y | y | ys | o2 ];
      try (match goal with
           | |- below_path ?q (deepCompare ?u ?w ?q) => exact (Hedit q u w)
           end).
    + rewrite deepCompare_arrays. apply compare_arrays_below. exact IH.
    + rewrite deepCompare_containers by reflexivity.
      apply Forall_app. split; [ apply removed_keys_below | ].
      apply Forall_app. split; [ apply added_keys_below | ].
      apply common_keys_below. cbn [entries].
      apply (indexed_values (fun x => forall b q, below_path q (deepCompare x b q))).
      exact IH.
  - destruct b as [ | y | y | y | ys | o2 ];
      try (match goal with
           | |- below_path ?q (deepCompare ?u ?w ?q) => exact (Hedit q u w)
           end).
    + rewrite deepCompare_containers by reflexivity.
      apply Forall_app. split; [ apply removed_keys_below | ].
      apply Forall_app. split; [ apply added_keys_below | ].
      apply common_keys_below. exact IH.
    + rewrite deepCompare_containers by reflexivity.
      apply Forall_app. split; [ apply removed_keys_below | ].
      apply Forall_app. split; [ apply added_keys_below | ].
      apply common_keys_below. exact IH.
Qed.

(** ** C5: order of the records *)

(** C5, as stated, fails on arrays: in [deepCompare([1, 2], [3])] the Edited
    record of index 0 comes before the Removed record of index 1. *)
Lemma C5_counterexample :
  deepCompare (JArr [JNum 1; JNum 2]) (JArr [JNum 3]) EmptyString
  = [edited "[0]" (JNum 1) (JNum 3); removed "[1]" (JNum 2)]
  /\ removed_added_edited (deepCompare (JArr [JNum 1; JNum 2]) (JArr [JNum 3]) EmptyString) = false.
Proof. split; reflexivity. Qed.

(** C5 (amended).  The diff is a function of its arguments.  Of two objects
    it is the Removed records of the left keys the right object lacks, in
    left order, then the Added records of the right keys the left object
    lacks, in right order, then, for each left key the right object has, in
    left order, the whole diff of the two values (or their single Edited
    record).  Of two arrays it is, index by index over the common indices,
    the whole diff of the two elements, and then the Removed records of the
    surplus left elements or the Added records of the surplus right ones.
    The traversal is depth first: the records of the diff of any two values
    [x] and [y] all lie at its base path or below it, so those of a child
    form one block at the place of the child. *)
Theorem C5_record_order (o1 o2 : list (string * json)) (a1 a2 : list json) (x y : json)
        (p : string) :
  deepCompare (JObj o1) (JObj o2) p
  = map (fun kv => removed (key_path p (fst kv)) (snd kv))
        (filter (fun kv => negb (has_key (fst kv) o2)) o1)
    ++ map (fun kv => added (key_path p (fst kv)) (snd kv))
           (filter (fun kv => negb (has_key (fst kv) o1)) o2)
    ++ flat_map (fun kv => common_key (deepCompare (snd kv)) p (fst kv) (snd kv) o2)
                (filter (fun kv => has_key (fst kv) o2) o1)
  /\
  deepCompare (JArr a1) (JArr a2) p
  = flat_map (fun ixy => deepCompare (fst (snd ixy)) (snd (snd ixy)) (index_path p (fst ixy)))
             (combine (seq 0 (Nat.min (List.length a1) (List.length a2))) (combine a1 a2))
    ++ map (fun ix => removed (index_path p (fst ix)) (snd ix))
           (combine (seq (List.length a2) (List.length a1 - List.length a2))
                    (skipn (List.length a2) a1))
    ++ map (fun iy => added (index_path p (fst iy)) (snd iy))
           (combine (seq (List.length a1) (List.length a2 - List.length a1))
                    (skipn (List.length a1) a2))
  /\
  below_path p (deepCompare x y p).
Proof.
  split; [ | split ].
  - rewrite deepCompare_objects, removed_keys_filter, added_keys_filter, common_keys_filter.
    reflexivity.
  - rewrite deepCompare_arrays. apply (compare_arrays_shape p a1 a2 0).
  - apply deepCompare_below.
Qed.

(** ** C6: a three-way conflict *)

(** C6.  With [base = {x: 1}], [local = {x: 2}] and [remote = {x: 3}] the
    merge reports exactly one conflict, at [x], with the local value 2 and
    the remote value 3, and the merged tree keeps the base's [x: 1]. *)
Theorem C6_conflict_on_x :
  threeWayMerge (JObj [("x", JNum 1)]) (JObj [("x", JNum 2)]) (JObj [("x", JNum 3)])
  = Done (mkMerged (JObj [("x", JNum 1)])
                   [mkConflict "x" (Some (JNum 2)) (Some (JNum 3))]).
Proof. reflexivity. Qed.

(** ** C9: the flat comparison *)

(** C9 (the code departs from it).  [compareChanges] compares the two
    flattenings with [!==], which on arrays is identity and not equality of
    contents: the array leaf [a: [1]], equal on both sides, is reported as a
    change. *)
Theorem C9_equal_array_reported :
  compareChanges (JObj [("a", JArr [JNum 1])]) (JObj [("a", JArr [JNum 1])])
  = Done [("a", mkFchange (Own (JArr [JNum 1])) (JArr [JNum 1]))].
Proof. reflexivity. Qed.

(** On a leaf of the first tree that is not an array, [!==] is comparison by
    value: an equal leaf is not reported. *)
Lemma differs_scalar (v w : json) :
  isArray v = false -> typeof v <> TObject \/ v = JNull ->
  differs (Own v) w = negb (json_eqb v w).
Proof.
  intros Hv Hs. destruct v; try discriminate; simpl;
    try (destruct w; reflexivity).
  destruct Hs as [Hs | Hs]; [ exfalso; apply Hs; reflexivity | discriminate ].
Qed.

(** ** C10: the two values of a conflict *)

(** C10 (the code departs from it).  [findConflicts] tests
    [remoteChanges[path]] for truthiness; for a path that names a member of
    [Object.prototype] the read succeeds on an empty change map, so with
    [base = {}], [local = {constructor: 1}] and [remote = {}] the path
    [constructor] is reported as a conflict whose remote value is absent. *)
Theorem C10_conflict_without_remote :
  threeWayMerge (JObj []) (JObj [("constructor", JNum 1)]) (JObj [])
  = Done (mkMerged (JObj []) [mkConflict "constructor" (Some (JNum 1)) None]).
Proof. reflexivity. Qed.

Lemma change_at_in (path : string) (changes : list (string * fchange)) :
  In path (map fst changes) -> exists c, change_at path changes = Some c.
Proof.
  induction changes as [ | [p c] rest IH ]; simpl; [ intros [] | ].
  intros [H | H].
  - subst p. rewrite String.eqb_refl. eauto.
  - destruct (String.eqb path p); eauto.
Qed.

Lemma findConflicts_in (path : string) (ls rs : list (string * fchange)) :
  In path (findConflicts ls rs) ->
  In path (map fst ls) /\
  (proto_member path = false -> In path (map fst rs)).
Proof.
  induction ls as [ | [p c] rest IH ]; simpl; [ intros [] | ].
  destruct (conflicting p (cvalue c) rs) eqn:Hc.
  - intros [H | H].
    + subst p. split; [ left; reflexivity | ].
      intros Hp. unfold conflicting in Hc.
      destruct (change_at path rs) as [c' | ] eqn:Hat; [ | congruence ].
      clear - Hat. induction rs as [ | [q d] rs IHrs ]; simpl in *; [ discriminate | ].
      destruct (String.eqb_spec path q); [ left; congruence | right; auto ].
    + destruct (IH H) as [H1 H2]. split; [ right; exact H1 | exact H2 ].
  - intros H. destruct (IH H) as [H1 H2]. split; [ right; exact H1 | exact H2 ].
Qed.

(** Away from the members of [Object.prototype] the invariant holds: a
    conflict carries both values. *)
Lemma conflicts_carry_both (base local remote : json) (r : merged_result) (c : conflict) :
  threeWayMerge base local remote = Done r ->
  In c (conflicts r) ->
  proto_member (conflict_path c) = false ->
  (exists v, Merge.local c = Some v) /\ (exists w, Merge.remote c = Some w).
Proof.
  unfold threeWayMerge. intros Hrun Hin Hproto.
  destruct (compareChanges base local) as [ls | | ]; simpl in Hrun; try discriminate.
  destruct (compareChanges base remote) as [rs | | ]; simpl in Hrun; try discriminate.
  destruct (apply_changes (findConflicts ls rs) ls base) as [r1 | | ];
    simpl in Hrun; try discriminate.
  destruct (apply_changes (findConflicts ls rs) rs r1) as [r2 | | ];
    simpl in Hrun; try discriminate.
  injection Hrun as <-. simpl in Hin.
  apply in_map_iff in Hin. destruct Hin as [path [<- Hpath]]. simpl in *.
  destruct (findConflicts_in _ _ _ Hpath) as [Hl Hr].
  unfold value_at. split.
  - destruct (change_at_in _ _ Hl) as [d ->]. eauto.
  - destruct (change_at_in _ _ (Hr Hproto)) as [d ->]. eauto.
Qed.

(** ** Own properties: lookups after updates *)

Lemma assoc_in_nodup (k : string) (v : json) (kvs : list (string * json)) :
  NoDup (keys kvs) -> In (k, v) kvs -> assoc k kvs = Some v.
Proof.
  induction kvs as [ | [k' v'] rest IH ]; simpl; [ intros _ [] | ].
  intros Hnd [Heq | Hin].
  - injection Heq as -> ->. rewrite String.eqb_refl. reflexivity.
  - inversion Hnd as [ | ? ? Hnotin Hnd' ]; subst.
    destruct (String.eqb_spec k k') as [-> | Hne].
    + exfalso. apply Hnotin. apply in_map_iff. exists (k', v). split; [ reflexivity | exact Hin ].
    + apply IH; assumption.
Qed.

Lemma update_same (k : string) (v : json) (kvs : list (string * json)) :
  assoc k kvs = Some v -> update k v kvs = kvs.
Proof.
  induction kvs as [ | [k' v'] rest IH ]; simpl; [ reflexivity | ].
  destruct (String.eqb_spec k k') as [-> | Hne].
  - intros H. injection H as ->. reflexivity.
  - intros H. rewrite IH by exact H. reflexivity.
Qed.

Lemma put_same (k : string) (v : json) (kvs : list (string * json)) :
  assoc k kvs = Some v -> put k v kvs = Done kvs.
Proof.
  intros H. unfold put, obj_set, has_key. rewrite H.
  rewrite Bool.andb_false_r. rewrite update_same by exact H. reflexivity.
Qed.

Lemma set_nth_same (i : nat) (v : json) (xs : list json) :
  nth_error xs i = Some v -> set_nth i v xs = xs.
Proof.
  revert i. induction xs as [ | x xs IH ]; intros [ | i ]; simpl; try discriminate.
  - intros H. injection H as ->. reflexivity.
  - intros H. rewrite IH by exact H. reflexivity.
Qed.

(** ** Array indices as property keys *)

Lemma digits_val_of_uint (d : Decimal.uint) (acc : nat) :
  digits_val acc (NilEmpty.string_of_uint d) = Nat.of_uint_acc d acc.
Proof.
  revert acc. induction d; intros acc; simpl; [ reflexivity | .. ];
    rewrite IHd, Nat.tail_mul_spec; unfold digit_val; simpl; f_equal; lia.
Qed.

Lemma all_digits_of_uint (d : Decimal.uint) :
  all_digits (NilEmpty.string_of_uint d) = true.
Proof. induction d; simpl; auto. Qed.

Lemma to_uint_not_nil (n : nat) : Nat.to_uint n <> Decimal.Nil.
Proof.
  rewrite <- (DecimalNat.Unsigned.of_to n) at 1.
  rewrite DecimalNat.Unsigned.to_of. unfold Decimal.unorm.
  destruct (Decimal.nzhead (Nat.to_uint n)); discriminate.
Qed.

Lemma match_digits_nat_to_string (n : nat) :
  match_digits (nat_to_string n) = Some n.
Proof.
  unfold match_digits, nat_to_string.
  rewrite all_digits_of_uint, digits_val_of_uint.
  change (Nat.of_uint_acc (Nat.to_uint n) 0) with (Nat.of_uint (Nat.to_uint n)).
  rewrite DecimalNat.Unsigned.of_to.
  destruct (Nat.to_uint n) eqn:Hd; try reflexivity.
  exfalso. exact (to_uint_not_nil n Hd).
Qed.

Lemma as_index_nat_to_string (n : nat) : as_index (nat_to_string n) = Some n.
Proof.
  unfold as_index. rewrite match_digits_nat_to_string, String.eqb_refl. reflexivity.
Qed.

(** ** C8: merging a tree with itself *)

Lemma merge_object (o : options) (kvs : list (string * json)) (t : json) :
  merge o (JObj kvs) t = merge_entries o kvs t.
Proof.
  simpl. revert t. induction kvs as [ | [k sv] l IH ]; intros t; [ reflexivity | ].
  simpl. destruct (merge_key o (merge o sv) k sv t); simpl; auto.
Qed.

Lemma merge_array (o : options) (xs : list json) (t : json) :
  merge o (JArr xs) t = merge_items o 0 xs t.
Proof.
  simpl. generalize 0%nat. revert t. induction xs as [ | sv l IH ]; intros t i; [ reflexivity | ].
  simpl. destruct (merge_key o (merge o sv) (nat_to_string i) sv t); simpl; auto.
Qed.

Lemma merge_string (o : options) (s : string) (t : json) :
  merge o (JStr s) t = merge_chars o 0 (chars s) t.
Proof.
  simpl. generalize 0%nat. revert t. induction (chars s) as [ | sv l IH ]; intros t i;
    [ reflexivity | ].
  simpl. destruct (merge_key o (fun _ => Outside) (nat_to_string i) sv t); simpl; auto.
Qed.

Lemma mergeArrays_loop_present (result arr2 : list json) :
  (forall item, In item arr2 -> In item result) ->
  mergeArrays_loop result arr2 = result.
Proof.
  induction arr2 as [ | item rest IH ]; intros Hin; [ reflexivity | ].
  assert (Hitem : In item result) by (apply Hin; left; reflexivity).
  assert (Hrest : forall x, In x rest -> In x result) by (intros x Hx; apply Hin; right; exact Hx).
  simpl.
  destruct (jstype_eqb (typeof item) TObject && negb (is_null item)) eqn:Hobj.
  - assert (Hex : existsb (fun i => json_eqb i item) result = true).
    { apply existsb_exists. exists item. split; [ exact Hitem | apply json_eqb_refl ]. }
    rewrite Hex. simpl. apply IH. exact Hrest.
  - assert (Hex : existsb (fun i => strict_eq i item) result = true).
    { apply existsb_exists. exists item. split; [ exact Hitem | ].
      destruct item; simpl in *; try discriminate;
        auto using Bool.eqb_reflx, Z.eqb_refl, String.eqb_refl. }
    rewrite Hex. simpl. apply IH. exact Hrest.
Qed.

Lemma mergeArrays_self (xs : list json) : mergeArrays xs xs = xs.
Proof. apply mergeArrays_loop_present. auto. Qed.

Lemma wf_object (kvs : list (string * json)) :
  wf (JObj kvs) <-> NoDup (keys kvs) /\ Forall (fun kv => wf (snd kv)) kvs.
Proof.
  simpl. split; intros [Hnd H]; split; try exact Hnd; clear Hnd.
  - induction kvs as [ | [k v] l IH ]; [ constructor | ].
    destruct H as [Hv Hl]. constructor; [ exact Hv | apply IH; exact Hl ].
  - induction H as [ | [k v] l Hv _ IH ]; [ exact I | ]. split; [ exact Hv | exact IH ].
Qed.

Lemma wf_array (xs : list json) : wf (JArr xs) <-> Forall wf xs.
Proof.
  simpl. split; intros H.
  - induction xs as [ | x l IH ]; [ constructor | ].
    destruct H as [Hx Hl]. constructor; [ exact Hx | apply IH; exact Hl ].
  - induction H as [ | x l Hx _ IH ]; [ exact I | ]. split; [ exact Hx | exact IH ].
Qed.

Section MergeSelf.
Variable am : arrayMerge.
Hypothesis not_concatenate : am <> Concatenate.

(** One turn of the loop on a key the target binds to the very value the
    source has: the target is left as it is. *)
Lemma merge_key_self (key : string) (sv t : json) :
  read t key = Done (Own sv) ->
  write t key sv = Done t ->
  (sv <> JNull -> merge (preserving am) sv sv = Done sv) ->
  merge_key (preserving am) (merge (preserving am) sv) key sv t = Done t.
Proof.
  intros Hread Hwrite Hrec.
  unfold merge_key. rewrite Hread. cbn [bind].
  assert (Hty : mtype_eqb (mtype_of sv) (mtype_of sv) = true)
    by (destruct sv; reflexivity).
  rewrite Hty. cbn [negb].
  destruct sv as [ | b | n | s | xs | kvs ]; try reflexivity.
  - unfold preserving. cbn [opt_arrayMerge]. destruct am; try exact Hwrite; try reflexivity.
    + exfalso. apply not_concatenate. reflexivity.
    + rewrite mergeArrays_self. exact Hwrite.
  - cbn [mtype_of typeof mtype_eqb jstype_eqb is_null negb andb].
    rewrite Hrec by discriminate. exact Hwrite.
Qed.

Lemma merge_self (T : json) : wf T -> T <> JNull -> merge (preserving am) T T = Done T.
Proof.
  induction T as [ | b | n | s | xs IH | kvs IH ] using json_induction; intros Hwf Hnn.
  - exfalso. apply Hnn. reflexivity.
  - reflexivity.
  - reflexivity.
  - rewrite merge_string.
    assert (Hloop : forall l pre, chars s = pre ++ l ->
               merge_chars (preserving am) (List.length pre) l (JStr s) = Done (JStr s)).
    { induction l as [ | c l IHl ]; intros pre Hsplit; [ reflexivity | ].
      simpl.
      assert (Hc : nth_error (chars s) (List.length pre) = Some c).
      { rewrite Hsplit, nth_error_app2, Nat.sub_diag by lia. reflexivity. }
      assert (Hstr : exists a, c = JStr a).
      { assert (Hall : Forall (fun x => exists a, x = JStr a) (chars s)).
        { clear. induction s; simpl; constructor; eauto. }
        rewrite Forall_forall in Hall. apply Hall. rewrite Hsplit.
        apply in_or_app. right. left. reflexivity. }
      destruct Hstr as [a ->].
      unfold merge_key. simpl.
      rewrite as_index_nat_to_string. unfold nth_lookup. rewrite Hc. simpl.
      specialize (IHl (pre ++ [JStr a])).
      rewrite length_app in IHl. simpl in IHl.
      rewrite Nat.add_1_r in IHl. apply IHl.
      rewrite <- app_assoc. exact Hsplit. }
    apply (Hloop (chars s) []). reflexivity.
  - rewrite merge_array.
    apply wf_array in Hwf.
    assert (Hloop : forall l pre, xs = pre ++ l ->
               merge_items (preserving am) (List.length pre) l (JArr xs) = Done (JArr xs)).
    { induction l as [ | sv l IHl ]; intros pre Hsplit; [ reflexivity | ].
      simpl.
      assert (Hsv : nth_error xs (List.length pre) = Some sv).
      { rewrite Hsplit, nth_error_app2, Nat.sub_diag by lia. reflexivity. }
      assert (Hin : In sv xs).
      { rewrite Hsplit. apply in_or_app. right. left. reflexivity. }
      rewrite merge_key_self.
      - simpl. specialize (IHl (pre ++ [sv])).
        rewrite length_app in IHl. simpl in IHl.
        rewrite Nat.add_1_r in IHl. apply IHl.
        rewrite <- app_assoc. exact Hsplit.
      - simpl. rewrite as_index_nat_to_string. unfold nth_lookup. rewrite Hsv. reflexivity.
      - simpl. rewrite as_index_nat_to_string.
        assert (Hlt : (List.length pre < List.length xs)%nat).
        { apply nth_error_Some. rewrite Hsv. discriminate. }
        destruct (Nat.leb_spec (List.length pre) (List.length xs)); [ | lia ].
        rewrite set_nth_same by exact Hsv. reflexivity.
      - rewrite Forall_forall in IH, Hwf. intros Hnull. apply IH; auto. }
    apply (Hloop xs []). reflexivity.
  - rewrite merge_object.
    apply wf_object in Hwf. destruct Hwf as [Hnd Hwf].
    assert (Hloop : forall l, (forall kv, In kv l -> In kv kvs) ->
               merge_entries (preserving am) l (JObj kvs) = Done (JObj kvs)).
    { induction l as [ | [k sv] l IHl ]; intros Hsub; [ reflexivity | ].
      simpl.
      assert (Hin : In (k, sv) kvs) by (apply Hsub; left; reflexivity).
      assert (Hk : assoc k kvs = Some sv) by (apply assoc_in_nodup; assumption).
      rewrite merge_key_self.
      - simpl. apply IHl. intros kv Hkv. apply Hsub. right. exact Hkv.
      - simpl. unfold get. rewrite Hk. reflexivity.
      - simpl. rewrite put_same by exact Hk. reflexivity.
      - rewrite Forall_forall in IH, Hwf. intros Hnull.
        apply (IH (k, sv) Hin); [ apply (Hwf (k, sv) Hin) | exact Hnull ]. }
    apply Hloop. auto.
Qed.
End MergeSelf.

(** C8, as stated, fails under the concatenating array policy: every array
    bound to a key is doubled. *)
Lemma C8_counterexample :
  mergeJson (JObj [("a", JArr [JNum 1])]) (JObj [("a", JArr [JNum 1])])
            (mkOptions Preserve Concatenate)
  = Done (JObj [("a", JArr [JNum 1; JNum 1])])
  /\ json_equivb (JObj [("a", JArr [JNum 1; JNum 1])]) (JObj [("a", JArr [JNum 1])]) = false.
Proof. split; reflexivity. Qed.

(** C8 (amended).  For every JSON tree [T] other than [null] and every
    array policy other than concatenation, merging [T] with itself under the
    Preserve value policy returns [T]. *)
Theorem C8_merge_self_preserve (T : json) (am : arrayMerge) :
  wf T -> T <> JNull -> am <> Concatenate ->
  mergeJson T T (mkOptions Preserve am) = Done T.
Proof.
  intros Hwf Hnn Ham. unfold mergeJson. apply merge_self; assumption.
Qed.

(** The theorem on a tree with an array, nested objects and [null]. *)
Lemma C8_witness :
  mergeJson (JObj [("a", JArr [JNum 1; JObj [("k", JNull)]]); ("b", JObj [("c", JStr "x")])])
            (JObj [("a", JArr [JNum 1; JObj [("k", JNull)]]); ("b", JObj [("c", JStr "x")])])
            (mkOptions Preserve MergeUnique)
  = Done (JObj [("a", JArr [JNum 1; JObj [("k", JNull)]]); ("b", JObj [("c", JStr "x")])]).
Proof.
  apply C8_merge_self_preserve.
  - simpl. repeat split; repeat constructor; simpl; intuition discriminate.
  - discriminate.
  - discriminate.
Defined.

(** ** Own properties: assignment and deletion *)

Lemma assoc_update_eq (k : string) (v : json) (r : list (string * json)) :
  has_key k r = true -> assoc k (update k v r) = Some v.
Proof.
  unfold has_key. induction r as [ | [k' v'] r IH ]; simpl; [ discriminate | ].
  destruct (String.eqb_spec k k') as [-> | Hne]; simpl.
  - rewrite String.eqb_refl. reflexivity.
  - destruct (String.eqb_spec k k'); [ contradiction | exact IH ].
Qed.

Lemma assoc_update_ne (k k' : string) (v : json) (r : list (string * json)) :
  k' <> k -> assoc k' (update k v r) = assoc k' r.
Proof.
  intros Hne. induction r as [ | [k0 v0] r IH ]; simpl; [ reflexivity | ].
  destruct (String.eqb_spec k k0) as [-> | Hk]; simpl.
  - destruct (String.eqb_spec k' k0); [ contradiction | reflexivity ].
  - rewrite IH. reflexivity.
Qed.

Lemma keys_update (k : string) (v : json) (r : list (string * json)) :
  keys (update k v r) = keys r.
Proof.
  unfold keys. induction r as [ | [k0 v0] r IH ]; simpl; [ reflexivity | ].
  destruct (String.eqb k k0); simpl; [ reflexivity | rewrite IH; reflexivity ].
Qed.

Lemma insert_index_perm (n : nat) (k : string) (v : json) (r : list (string * json)) :
  Permutation (insert_index n k v r) ((k, v) :: r).
Proof.
  induction r as [ | [k0 v0] r IH ]; simpl; [ apply Permutation_refl | ].
  destruct (as_index k0) as [m | ]; [ | apply Permutation_refl ].
  destruct (m <? n)%nat; [ | apply Permutation_refl ].
  eapply Permutation_trans; [ apply perm_skip; exact IH | apply perm_swap ].
Qed.

Lemma assoc_insert_index (n : nat) (k k' : string) (v : json) (r : list (string * json)) :
  has_key k r = false ->
  assoc k' (insert_index n k v r) = if String.eqb k' k then Some v else assoc k' r.
Proof.
  unfold has_key. induction r as [ | [k0 v0] r IH ]; simpl; intros Hk.
  - reflexivity.
  - destruct (String.eqb_spec k k0) as [-> | Hne]; [ discriminate | ].
    destruct (as_index k0) as [m | ]; [ destruct (m <? n)%nat | ]; simpl; try reflexivity.
    rewrite (IH Hk).
    destruct (String.eqb_spec k' k0) as [-> | Hne'].
    + destruct (String.eqb_spec k0 k); [ congruence | reflexivity ].
    + reflexivity.
Qed.

Lemma assoc_app_last (k k' : string) (v : json) (r : list (string * json)) :
  has_key k r = false ->
  assoc k' (r ++ [(k, v)]) = if String.eqb k' k then Some v else assoc k' r.
Proof.
  unfold has_key. induction r as [ | [k0 v0] r IH ]; simpl; intros Hk.
  - reflexivity.
  - destruct (String.eqb_spec k k0) as [-> | Hne]; [ discriminate | ].
    rewrite (IH Hk).
    destruct (String.eqb_spec k' k0) as [-> | Hne'].
    + destruct (String.eqb_spec k0 k); [ congruence | reflexivity ].
    + reflexivity.
Qed.

Lemma assoc_obj_set (k k' : string) (v : json) (r : list (string * json)) :
  assoc k' (obj_set k v r) = if String.eqb k' k then Some v else assoc k' r.
Proof.
  unfold obj_set. destruct (has_key k r) eqn:Hk.
  - destruct (String.eqb_spec k' k) as [-> | Hne].
    + apply assoc_update_eq. exact Hk.
    + apply assoc_update_ne. exact Hne.
  - destruct (as_index k) as [n | ].
    + apply assoc_insert_index. exact Hk.
    + apply assoc_app_last. exact Hk.
Qed.

Lemma has_key_in (k : string) (r : list (string * json)) :
  has_key k r = true <-> In k (keys r).
Proof.
  unfold has_key, keys. induction r as [ | [k0 v0] r IH ]; simpl.
  - split; [ discriminate | intros [] ].
  - destruct (String.eqb_spec k k0) as [-> | Hne].
    + split; auto.
    + rewrite IH. split; [ auto | intros [H | H]; [ congruence | exact H ] ].
Qed.

Lemma obj_set_nodup (k : string) (v : json) (r : list (string * json)) :
  NoDup (keys r) -> NoDup (keys (obj_set k v r)).
Proof.
  intros Hnd. unfold obj_set. destruct (has_key k r) eqn:Hk.
  - rewrite keys_update. exact Hnd.
  - assert (Hnot : ~ In k (keys r)).
    { intros Hin. apply has_key_in in Hin. congruence. }
    assert (Hcons : NoDup (keys ((k, v) :: r))) by (constructor; assumption).
    destruct (as_index k) as [n | ].
    + eapply Permutation_NoDup; [ | exact Hcons ].
      apply Permutation_map. apply Permutation_sym. apply insert_index_perm.
    + eapply Permutation_NoDup; [ | exact Hcons ].
      apply Permutation_map. apply Permutation_cons_append.
Qed.

Lemma assoc_obj_delete (k k' : string) (r : list (string * json)) :
  assoc k' (obj_delete k r) = if String.eqb k' k then None else assoc k' r.
Proof.
  induction r as [ | [k0 v0] r IH ]; simpl.
  - destruct (String.eqb k' k); reflexivity.
  - destruct (String.eqb_spec k k0) as [-> | Hne]; simpl.
    + rewrite IH. destruct (String.eqb_spec k' k0); reflexivity.
    + rewrite IH. destruct (String.eqb_spec k' k0) as [-> | Hne'].
      * destruct (String.eqb_spec k0 k); [ congruence | reflexivity ].
      * reflexivity.
Qed.

Lemma obj_delete_nodup (k : string) (r : list (string * json)) :
  NoDup (keys r) -> NoDup (keys (obj_delete k r)).
Proof.
  unfold keys. induction r as [ | [k0 v0] r IH ]; simpl; intros Hnd; [ constructor | ].
  inversion Hnd as [ | ? ? Hnotin Hnd' ]; subst.
  destruct (String.eqb k k0); [ apply IH; exact Hnd' | ].
  simpl. constructor; [ | apply IH; exact Hnd' ].
  intros Hin. apply Hnotin. clear - Hin.
  induction r as [ | [k1 v1] r IHr ]; simpl in *; [ exact Hin | ].
  destruct (String.eqb k k1); simpl in *; [ right; auto | ].
  destruct Hin as [H | H]; [ left; exact H | right; auto ].
Qed.

Lemma get_plain (r : list (string * json)) (k : string) :
  proto_member k = false ->
  get r k = match assoc k r with Some v => Own v | None => Missing end.
Proof. intros Hk. unfold get. rewrite Hk. reflexivity. Qed.

Lemma put_plain (k : string) (v : json) (r : list (string * json)) :
  String.eqb k "__proto__" = false -> put k v r = Done (obj_set k v r).
Proof. intros Hk. unfold put. rewrite Hk. reflexivity. Qed.

Lemma proto_member_proto (k : string) :
  proto_member k = false -> String.eqb k "__proto__" = false.
Proof.
  intros H. destruct (String.eqb_spec k "__proto__") as [-> | ]; [ discriminate | reflexivity ].
Qed.

(** ** C4: missing parents *)


Lemma lastPart_cons (k k' : string) (rest : list string) :
  lastPart (k :: k' :: rest) = lastPart (k' :: rest).
Proof. reflexivity. Qed.

Lemma walk_step_object (k : string) (rest : list string) (fin : json -> outcome json)
      (r0 : list (string * json)) :
  proto_member k = false ->
  walk (k :: rest) fin (JObj r0)
  = r <- walk rest fin (match assoc k r0 with Some v => enter v | None => JObj [] end) ;;
    Done (JObj (obj_set k r r0)).
Proof.
  intros Hk. cbn [walk]. rewrite (get_plain _ _ Hk).
  destruct (match_digits k); destruct (assoc k r0); reflexivity.
Qed.







Section ParentChain.
Variable p : patch.
Hypothesis has_value : op p = Remove \/ exists v, value p = Some v.




End ParentChain.



(** ** Addresses as sequences of keys *)

Lemma split_free (c : ascii) (k : string) : free_of c k = true -> split c k = [k].
Proof.
  induction k as [ | a k IH ]; simpl; [ reflexivity | ].
  intros H. apply andb_prop in H. destruct H as [Ha Hk].
  apply negb_true_iff in Ha. rewrite Ha, (IH Hk). reflexivity.
Qed.

Lemma split_app_free (c : ascii) (k rest : string) :
  free_of c k = true -> split c (k ++ String c rest) = k :: split c rest.
Proof.
  induction k as [ | a k IH ]; simpl.
  - intros _. rewrite Ascii.eqb_refl. reflexivity.
  - intros H. apply andb_prop in H. destruct H as [Ha Hk].
    apply negb_true_iff in Ha. rewrite Ha, (IH Hk). reflexivity.
Qed.

Lemma split_join (c : ascii) (ks : list string) :
  ks <> [] -> Forall (fun k => free_of c k = true) ks -> split c (join c ks) = ks.
Proof.
  induction ks as [ | k ks IH ]; intros Hne Hfree; [ congruence | ].
  inversion Hfree as [ | ? ? Hk Hks ]; subst.
  destruct ks as [ | k' rest ].
  - apply split_free. exact Hk.
  - change (join c (k :: k' :: rest)) with (k ++ String c (join c (k' :: rest)))%string.
    rewrite split_app_free by exact Hk.
    rewrite IH; [ reflexivity | discriminate | exact Hks ].
Qed.

Lemma join_snoc (c : ascii) (pre : list string) (k : string) :
  pre <> [] -> join c (pre ++ [k]) = (join c pre ++ String c k)%string.
Proof.
  induction pre as [ | a pre IH ]; intros Hne; [ congruence | ].
  destruct pre as [ | b rest ].
  - reflexivity.
  - change (join c ((a :: b :: rest) ++ [k]))
      with (a ++ String c (join c ((b :: rest) ++ [k])))%string.
    rewrite IH by discriminate.
    change (join c (a :: b :: rest)) with (a ++ String c (join c (b :: rest)))%string.
    rewrite str_app_assoc. reflexivity.
Qed.

Lemma nonempty_app (a b : string) : nonempty a = true -> nonempty (a ++ b) = true.
Proof. destruct a; [ discriminate | reflexivity ]. Qed.

Lemma join_nonempty (c : ascii) (ks : list string) :
  ks <> [] -> Forall (fun k => nonempty k = true) ks -> nonempty (join c ks) = true.
Proof.
  intros Hne Hks. destruct ks as [ | k ks ]; [ congruence | ].
  inversion Hks as [ | ? ? Hk _ ]; subst.
  destruct ks; [ exact Hk | ]. apply nonempty_app. exact Hk.
Qed.

(** Extending the path of a container by one key, as [deepCompare] and
    [flatten] do, is extending the sequence of keys. *)
Lemma key_path_join (pre : list string) (k : string) :
  Forall (fun k => nonempty k = true) pre ->
  key_path (join "." pre) k = join "." (pre ++ [k]).
Proof.
  intros Hpre. unfold key_path. destruct pre as [ | a pre ]; [ reflexivity | ].
  rewrite join_nonempty by (discriminate || exact Hpre).
  rewrite join_snoc by discriminate. reflexivity.
Qed.

Lemma replace_all_app (a b : ascii) (x y : string) :
  replace_all a b (x ++ y) = (replace_all a b x ++ replace_all a b y)%string.
Proof. induction x as [ | c x IH ]; simpl; [ reflexivity | rewrite IH; reflexivity ]. Qed.

Lemma replace_all_free (a b : ascii) (x : string) :
  free_of a x = true -> replace_all a b x = x.
Proof.
  induction x as [ | c x IH ]; simpl; [ reflexivity | ].
  intros H. apply andb_prop in H. destruct H as [Hc Hx].
  apply negb_true_iff in Hc. rewrite Hc, (IH Hx). reflexivity.
Qed.

Lemma replace_all_join (a b : ascii) (ks : list string) :
  Forall (fun k => free_of a k = true) ks ->
  replace_all a b (join a ks) = join b ks.
Proof.
  induction ks as [ | k ks IH ]; intros Hks; [ reflexivity | ].
  inversion Hks as [ | ? ? Hk Hks' ]; subst.
  destruct ks as [ | k' rest ].
  - apply replace_all_free. exact Hk.
  - change (join a (k :: k' :: rest)) with (k ++ String a (join a (k' :: rest)))%string.
    rewrite replace_all_app, (replace_all_free _ _ _ Hk).
    cbn [replace_all]. rewrite Ascii.eqb_refl, (IH Hks'). reflexivity.
Qed.

Lemma clean_key_parts (k : string) :
  clean_key k = true ->
  nonempty k = true /\ free_of "." k = true /\ free_of "/" k = true
  /\ String.eqb k "__proto__" = false.
Proof.
  unfold clean_key. intros H.
  repeat (apply andb_prop in H; destruct H as [H ?]).
  repeat split; try assumption. apply negb_true_iff. assumption.
Qed.

(** The pointer compiled from an address of clean keys parses back into
    those keys. *)
Lemma pathParts_pointer (ks : list string) :
  Forall (fun k => clean_key k = true) ks ->
  pathParts (pointer (join "." ks)) = ks.
Proof.
  intros Hks. destruct ks as [ | k ks ]; [ reflexivity | ].
  assert (Hne : Forall (fun k => nonempty k = true) (k :: ks)).
  { eapply Forall_impl; [ | exact Hks ]. intros a Ha. apply (clean_key_parts a Ha). }
  assert (Hdot : Forall (fun k => free_of "." k = true) (k :: ks)).
  { eapply Forall_impl; [ | exact Hks ]. intros a Ha. apply (clean_key_parts a Ha). }
  assert (Hslash : Forall (fun k => free_of "/" k = true) (k :: ks)).
  { eapply Forall_impl; [ | exact Hks ]. intros a Ha. apply (clean_key_parts a Ha). }
  unfold pointer, pathParts.
  rewrite join_nonempty by (discriminate || exact Hne).
  rewrite replace_all_join by exact Hdot.
  cbn [split]. rewrite Ascii.eqb_refl.
  rewrite split_join by (discriminate || exact Hslash).
  transitivity (filter nonempty (k :: ks)); [ reflexivity | ].
  apply forallb_filter_id. apply forallb_forall. rewrite Forall_forall in Hne. exact Hne.
Qed.

(** ** Updates addressed by keys, seen from one key of the root *)

Lemma assoc_rebind (k k' : string) (c : option json) (r : list (string * json)) :
  assoc k' (rebind k c r) = if String.eqb k' k then c else assoc k' r.
Proof. destruct c; [ apply assoc_obj_set | apply assoc_obj_delete ]. Qed.

Lemma rebind_nodup (k : string) (c : option json) (r : list (string * json)) :
  NoDup (keys r) -> NoDup (keys (rebind k c r)).
Proof. destruct c; [ apply obj_set_nodup | apply obj_delete_nodup ]. Qed.

Section HeadLocal.
Variable X : Type.
(** The keys the updates may start with. *)
Variable good : string -> Prop.
(** One update, addressed by a sequence of keys, on a tree. *)
Variable run : list string -> X -> json -> outcome json.
(** The same update seen from the first key: what it makes of the binding
    of that key, given the rest of the address. *)
Variable step : string -> list string -> X -> option json -> outcome (option json).

Hypothesis run_head :
  forall k rest x r,
    good k ->
    run (k :: rest) x (JObj r)
    = c <- step k rest x (assoc k r) ;; Done (JObj (rebind k c r)).

(** A sequence of updates on an object succeeds as soon as, for every key,
    the updates below that key succeed on its binding; and then every key
    is bound to what the updates below it make of its binding. *)
Lemma run_all_by_key (ops : list (list string * X)) :
  Forall (headed X good) ops ->
  forall r,
    (forall k, exists c, step_all X step k (below X k ops) (assoc k r) = Done c) ->
    exists r', run_all X run ops (JObj r) = Done (JObj r')
               /\ (forall k, step_all X step k (below X k ops) (assoc k r) = Done (assoc k r'))
               /\ (NoDup (keys r) -> NoDup (keys r')).
Proof.
  induction ops as [ | [ks x] ops IH ]; intros Hheaded r Hsteps.
  - exists r. repeat split; auto.
  - inversion Hheaded as [ | ? ? Hop Hrest ]; subst.
    destruct ks as [ | k0 rest ]; [ destruct Hop | ].
    unfold headed in Hop. cbn [fst] in Hop.
    cbn [run_all]. rewrite (run_head _ _ _ _ Hop).
    destruct (Hsteps k0) as [c0 Hk0].
    cbn [below] in Hk0. rewrite String.eqb_refl in Hk0. cbn [step_all] in Hk0.
    destruct (step k0 rest x (assoc k0 r)) as [c1 | | ] eqn:Hstep; try discriminate.
    cbn [bind] in *.
    destruct (IH Hrest (rebind k0 c1 r)) as [r' [Hrun [Hkeys Hnd]]].
    { intros k. rewrite assoc_rebind.
      destruct (String.eqb_spec k k0) as [-> | Hne].
      - exists c0. exact Hk0.
      - destruct (Hsteps k) as [c Hc]. cbn [below] in Hc.
        destruct (String.eqb_spec k k0); [ contradiction | ].
        exists c. exact Hc. }
    exists r'. split; [ exact Hrun | split ].
    + intros k. specialize (Hkeys k). rewrite assoc_rebind in Hkeys.
      cbn [below].
      destruct (String.eqb k k0) eqn:Hk.
      * apply String.eqb_eq in Hk. subst k.
        cbn [step_all]. rewrite Hstep. exact Hkeys.
      * exact Hkeys.
    + intros H. apply Hnd. apply rebind_nodup. exact H.
Qed.

Lemma below_perm (k : string) (ops ops' : list (list string * X)) :
  Permutation ops ops' -> Permutation (below X k ops) (below X k ops').
Proof.
  induction 1 as [ | [ks x] l l' _ IH | [ks x] [ks' x'] l | l l' l'' _ IH1 _ IH2 ].
  - constructor.
  - destruct ks as [ | k0 rest ]; cbn [below]; [ exact IH | ].
    destruct (String.eqb k k0); [ constructor; exact IH | exact IH ].
  - destruct ks as [ | k0 rest ], ks' as [ | k1 rest' ]; cbn [below];
      repeat match goal with
             | |- context [ String.eqb ?a ?b ] => destruct (String.eqb a b)
             end;
      try apply Permutation_refl; apply perm_swap.
  - eapply Permutation_trans; eassumption.
Qed.

Lemma below_app (k : string) (ops ops' : list (list string * X)) :
  below X k (ops ++ ops') = below X k ops ++ below X k ops'.
Proof.
  induction ops as [ | [ks x] ops IH ]; [ reflexivity | ].
  destruct ks as [ | k0 rest ]; cbn [below app]; [ exact IH | ].
  destruct (String.eqb k k0); cbn [app]; rewrite IH; reflexivity.
Qed.

Lemma below_cons_map (k k0 : string) (ops : list (list string * X)) :
  below X k (map (fun e => (k0 :: fst e, snd e)) ops)
  = if String.eqb k k0 then ops else [].
Proof.
  induction ops as [ | [ks x] ops IH ]; cbn [map below fst snd].
  - destruct (String.eqb k k0); reflexivity.
  - rewrite IH. destruct (String.eqb k k0); reflexivity.
Qed.
End HeadLocal.

(** ** Structural equality, key by key *)

Lemma json_equivb_objects (xs ys : list (string * json)) :
  json_equivb (JObj xs) (JObj ys)
  = Nat.eqb (List.length xs) (List.length ys)
    && forallb (fun kv => match assoc (fst kv) ys with
                          | Some y => json_equivb (snd kv) y
                          | None => false
                          end) xs.
Proof.
  cbn [json_equivb]. f_equal.
  induction xs as [ | [k x] l IH ]; [ reflexivity | ].
  cbn [forallb fst snd]. destruct (assoc k ys); [ | reflexivity ].
  rewrite IH. reflexivity.
Qed.

Lemma assoc_some_in (k : string) (r : list (string * json)) :
  (exists v, assoc k r = Some v) <-> In k (keys r).
Proof.
  rewrite <- has_key_in. unfold has_key. destruct (assoc k r).
  - split; eauto.
  - split; [ intros [v H]; discriminate | discriminate ].
Qed.

Lemma equiv_by_keys (r t : list (string * json)) :
  NoDup (keys r) -> NoDup (keys t) ->
  (forall k, match assoc k r, assoc k t with
             | Some x, Some y => json_equivb x y = true
             | None, None => True
             | _, _ => False
             end) ->
  json_equivb (JObj r) (JObj t) = true.
Proof.
  intros Hr Ht Hkeys. rewrite json_equivb_objects. apply andb_true_intro. split.
  - apply Nat.eqb_eq.
    assert (Hperm : Permutation (keys r) (keys t)).
    { apply NoDup_Permutation; try assumption.
      intros k. rewrite <- !assoc_some_in. specialize (Hkeys k).
      destruct (assoc k r), (assoc k t); try contradiction.
      - split; eauto.
      - split; intros [v H]; discriminate. }
    apply Permutation_length in Hperm. unfold keys in Hperm.
    rewrite !length_map in Hperm. exact Hperm.
  - apply forallb_forall. intros [k x] Hin. cbn [fst snd].
    specialize (Hkeys k). rewrite (assoc_in_nodup k x r Hr Hin) in Hkeys.
    destruct (assoc k t); [ exact Hkeys | contradiction ].
Qed.

(** ** C7: flattening and back *)

Lemma flat_tree_object (kvs : list (string * json)) :
  flat_tree (JObj kvs)
  = forallb (fun kv => flat_key (fst kv) && flat_value (snd kv)) kvs.
Proof.
  cbn [flat_tree].
  induction kvs as [ | [k v] l IH ]; [ reflexivity | ].
  cbn [forallb fst snd]. rewrite IH. reflexivity.
Qed.

Lemma leaves_object (kvs : list (string * json)) :
  leaves (JObj kvs) = leaves_entries kvs.
Proof.
  cbn [leaves]. unfold leaves_entries.
  induction kvs as [ | [k v] l IH ]; [ reflexivity | ].
  cbn [flat_map fst snd]. rewrite IH. reflexivity.
Qed.

Lemma flatten_object (kvs : list (string * json)) (path : string)
      (result : list (string * json)) :
  flatten (JObj kvs) path result = flatten_entries path kvs result.
Proof.
  cbn [flatten]. revert result.
  induction kvs as [ | [k v] l IH ]; intros result; [ reflexivity | ].
  cbn [flatten_entries]. destruct (flatten v (newPath path k) result); cbn [bind]; auto.
Qed.

Lemma flat_key_parts (k : string) :
  flat_key k = true ->
  nonempty k = true /\ free_of "." k = true /\ String.eqb k "__proto__" = false.
Proof.
  unfold flat_key. intros H.
  repeat (apply andb_prop in H; destruct H as [H ?]).
  repeat split; try assumption. apply negb_true_iff. assumption.
Qed.

Lemma flat_keys_nonempty (ks : list string) :
  Forall (fun k => flat_key k = true) ks -> Forall (fun k => nonempty k = true) ks.
Proof. apply Forall_impl. intros k Hk. apply (flat_key_parts k Hk). Qed.

Lemma flat_keys_free (ks : list string) :
  Forall (fun k => flat_key k = true) ks -> Forall (fun k => free_of "." k = true) ks.
Proof. apply Forall_impl. intros k Hk. apply (flat_key_parts k Hk). Qed.

Lemma join_flat_inj (a b : list string) :
  Forall (fun k => flat_key k = true) a -> Forall (fun k => flat_key k = true) b ->
  a <> [] -> b <> [] -> join "." a = join "." b -> a = b.
Proof.
  intros Ha Hb Hna Hnb Heq.
  rewrite <- (split_join "." a Hna (flat_keys_free a Ha)).
  rewrite <- (split_join "." b Hnb (flat_keys_free b Hb)).
  rewrite Heq. reflexivity.
Qed.

Lemma join_flat_not_proto (ks : list string) :
  Forall (fun k => flat_key k = true) ks ->
  String.eqb (join "." ks) "__proto__" = false.
Proof.
  intros Hks. destruct (String.eqb_spec (join "." ks) "__proto__") as [Heq | ]; [ | reflexivity ].
  exfalso. destruct ks as [ | k ks ]; [ discriminate | ].
  assert (Hsplit := split_join "." (k :: ks) ltac:(discriminate) (flat_keys_free _ Hks)).
  rewrite Heq in Hsplit. cbv in Hsplit. injection Hsplit as <- <-.
  inversion Hks as [ | ? ? Hk _ ]; subst. discriminate.
Qed.

Lemma obj_set_fresh_perm (k : string) (v : json) (r : list (string * json)) :
  ~ In k (keys r) -> Permutation (obj_set k v r) (r ++ [(k, v)]).
Proof.
  intros Hnot. unfold obj_set.
  destruct (has_key k r) eqn:Hk.
  - exfalso. apply Hnot. apply has_key_in. exact Hk.
  - destruct (as_index k).
    + eapply Permutation_trans; [ apply insert_index_perm | apply Permutation_cons_append ].
    + apply Permutation_refl.
Qed.

Lemma leaves_flat (T : json) :
  flat_tree T = true ->
  forall e, In e (leaves T) -> Forall (fun k => flat_key k = true) (fst e).
Proof.
  induction T as [ | b | n | s | xs IH | kvs IH ] using json_induction; intros Hflat e Hin;
    try (destruct Hin as [<- | []]; constructor).
  rewrite leaves_object in Hin. rewrite flat_tree_object in Hflat.
  unfold leaves_entries in Hin. apply in_flat_map in Hin.
  destruct Hin as [[k v] [Hkv Hin]]. cbn [fst snd] in Hin.
  apply in_map_iff in Hin. destruct Hin as [e' [<- He']]. cbn [fst].
  rewrite forallb_forall in Hflat. specialize (Hflat _ Hkv). cbn [fst snd] in Hflat.
  apply andb_prop in Hflat. destruct Hflat as [Hk Hv].
  rewrite Forall_forall in IH. specialize (IH _ Hkv). cbn [snd] in IH.
  constructor; [ exact Hk | ]. apply IH; [ | exact He' ].
  destruct v as [ | | | | | [ | ] ]; try reflexivity; try discriminate; exact Hv.
Qed.

Lemma flat_value_tree (v : json) : flat_value v = true -> flat_tree v = true.
Proof. destruct v as [ | | | | | [ | ] ]; simpl; auto; discriminate. Qed.

Lemma in_leaves_entries (e : list string * json) (l : list (string * json)) :
  In e (leaves_entries l) <->
  exists k v e', In (k, v) l /\ In e' (leaves v) /\ e = (k :: fst e', snd e').
Proof.
  unfold leaves_entries. rewrite in_flat_map. split.
  - intros [[k v] [Hkv Hin]]. cbn [fst snd] in Hin.
    apply in_map_iff in Hin. destruct Hin as [e' [<- He']].
    exists k, v, e'. auto.
  - intros [k [v [e' [Hkv [He' ->]]]]]. exists (k, v). split; [ exact Hkv | ].
    cbn [fst snd]. apply in_map_iff. exists e'. auto.
Qed.

Lemma flat_entry (kvs : list (string * json)) (k : string) (v : json) :
  flat_tree (JObj kvs) = true -> In (k, v) kvs ->
  flat_key k = true /\ flat_value v = true.
Proof.
  rewrite flat_tree_object, forallb_forall. intros H Hin.
  specialize (H _ Hin). cbn [fst snd] in H. apply andb_prop in H. exact H.
Qed.

Lemma wf_entry (kvs : list (string * json)) (k : string) (v : json) :
  wf (JObj kvs) -> In (k, v) kvs -> wf v.
Proof.
  intros Hwf Hin. apply wf_object in Hwf. destruct Hwf as [_ Hall].
  rewrite Forall_forall in Hall. apply (Hall _ Hin).
Qed.

(** [flatten] adds to [result] one entry for each leaf of the tree, under
    the joined keys of the leaf. *)
Lemma flatten_perm (T : json) :
  wf T -> flat_tree T = true ->
  forall pre result,
    Forall (fun k => flat_key k = true) pre ->
    (forall e, In e (leaves T) -> ~ In (join "." (pre ++ fst e)) (keys result)) ->
    exists result',
      flatten T (join "." pre) result = Done result'
      /\ Permutation result'
           (result ++ map (fun e => (join "." (pre ++ fst e), snd e)) (leaves T)).
Proof.
  induction T as [ | b | n | s | xs IH | kvs IH ] using json_induction;
    intros Hwf Hflat pre result Hpre Hfresh;
    try (cbn [flatten leaves map fst snd];
         rewrite put_plain by (apply join_flat_not_proto; exact Hpre);
         eexists; split; [ reflexivity | ];
         rewrite app_nil_r; apply obj_set_fresh_perm;
         specialize (Hfresh _ (or_introl eq_refl)); cbn [fst] in Hfresh;
         rewrite app_nil_r in Hfresh; exact Hfresh).
  rewrite flatten_object, leaves_object. rewrite leaves_object in Hfresh.
  assert (Hnd : NoDup (keys kvs)) by (apply wf_object in Hwf; apply Hwf).
  assert (Hloop : forall l result,
             (forall kv, In kv l -> In kv kvs) -> NoDup (keys l) ->
             (forall e, In e (leaves_entries l) ->
                        ~ In (join "." (pre ++ fst e)) (keys result)) ->
             exists result',
               flatten_entries (join "." pre) l result = Done result'
               /\ Permutation result'
                    (result ++ map (fun e => (join "." (pre ++ fst e), snd e))
                                   (leaves_entries l))).
  { clear Hfresh result.
    induction l as [ | [k v] l IHl ]; intros result Hsub Hndl Hfresh.
    - exists result. split; [ reflexivity | ]. cbn [leaves_entries flat_map map].
      rewrite app_nil_r. apply Permutation_refl.
    - assert (Hkv : In (k, v) kvs) by (apply Hsub; left; reflexivity).
      destruct (flat_entry _ _ _ Hflat Hkv) as [Hk Hv].
      assert (Hpre' : Forall (fun k => flat_key k = true) (pre ++ [k])).
      { apply Forall_app. split; [ exact Hpre | constructor; [ exact Hk | constructor ] ]. }
      rewrite Forall_forall in IH.
      destruct (IH _ Hkv (wf_entry _ _ _ Hwf Hkv) (flat_value_tree _ Hv)
                   (pre ++ [k]) result Hpre') as [result1 [Hrun1 Hperm1]].
      { intros e He. rewrite <- app_assoc. cbn [app].
        apply (Hfresh (k :: fst e, snd e)).
        apply in_leaves_entries. exists k, v, e. repeat split; auto. left; reflexivity. }
      cbn [flatten_entries].
      change (newPath (join "." pre) k) with (key_path (join "." pre) k).
      rewrite key_path_join by (apply flat_keys_nonempty; exact Hpre).
      cbn [snd] in Hrun1. rewrite Hrun1. cbn [bind].
      inversion Hndl as [ | ? ? Hknot Hndl' ]; subst.
      destruct (IHl result1) as [result2 [Hrun2 Hperm2]].
      + intros kv Hin. apply Hsub. right. exact Hin.
      + exact Hndl'.
      + intros e He Hin.
        apply (Permutation_in _ (Permutation_map fst Hperm1)) in Hin.
        rewrite map_app in Hin. apply in_app_or in Hin. destruct Hin as [Hin | Hin].
        * apply (Hfresh e); [ | exact Hin ].
          cbn [leaves_entries flat_map]. apply in_or_app. right. exact He.
        * rewrite map_map in Hin. cbn [fst] in Hin.
          apply in_map_iff in Hin. destruct Hin as [e1 [Heq He1]].
          apply in_leaves_entries in He.
          destruct He as [k' [v' [e' [Hkv' [He' ->]]]]]. cbn [fst] in Heq.
          assert (Hkv'k : In (k', v') kvs) by (apply Hsub; right; exact Hkv').
          destruct (flat_entry _ _ _ Hflat Hkv'k) as [Hk' Hv'].
          apply join_flat_inj in Heq.
          -- rewrite <- app_assoc in Heq. apply app_inv_head in Heq.
             cbn [app] in Heq. injection Heq as Hkk _. subst k'.
             apply Hknot. apply in_map_iff. exists (k, v'). auto.
          -- apply Forall_app. split; [ exact Hpre' | ].
             apply (leaves_flat v (flat_value_tree _ Hv) e1 He1).
          -- apply Forall_app. split; [ exact Hpre | ].
             constructor; [ exact Hk' | ].
             apply (leaves_flat v' (flat_value_tree _ Hv') e' He').
          -- destruct pre; discriminate.
          -- destruct pre; discriminate.
      + exists result2. split; [ exact Hrun2 | ].
        eapply Permutation_trans; [ exact Hperm2 | ].
        cbn [leaves_entries flat_map fst snd]. fold (leaves_entries l).
        rewrite map_app, map_map, app_assoc. cbn [fst snd].
        apply Permutation_app_tail.
        eapply Permutation_trans; [ exact Hperm1 | ].
        apply Permutation_app_head.
        erewrite map_ext; [ apply Permutation_refl | ].
        intros e. cbn [fst snd]. rewrite <- app_assoc. reflexivity. }
  apply Hloop; auto.
Qed.

Lemma set_path_head (k : string) (rest : list string) (v : json)
      (r : list (string * json)) :
  String.eqb k "__proto__" = false ->
  set_path (k :: rest) v (JObj r)
  = c <- set_step k rest v (assoc k r) ;; Done (JObj (rebind k c r)).
Proof.
  intros Hk. destruct rest as [ | k' rest' ].
  - cbn [set_path set_step bind rebind write]. rewrite put_plain by exact Hk. reflexivity.
  - change (set_path (k :: k' :: rest') v (JObj r))
      with (tv <- read (JObj r) k ;;
            match tv with
            | Own v0 =>
                match v0 with
                | JArr _ | JObj _ =>
                    r1 <- set_path (k' :: rest') v v0 ;; write (JObj r) k r1
                | _ => r1 <- set_path (k' :: rest') v (JObj []) ;; write (JObj r) k r1
                end
            | Inherited =>
                if String.eqb k "__proto__" then Outside
                else r1 <- set_path (k' :: rest') v (JObj []) ;; write (JObj r) k r1
            | Missing => r1 <- set_path (k' :: rest') v (JObj []) ;; write (JObj r) k r1
            end).
    unfold set_step. generalize (set_path (k' :: rest') v). intros sp.
    cbn [read bind]. unfold get.
    destruct (assoc k r) as [v0 | ] eqn:Hv0.
    + destruct v0; cbn [child_of]; destruct (sp _) as [c' | | ]; cbn [bind write rebind];
        try reflexivity; rewrite put_plain by exact Hk; reflexivity.
    + destruct (proto_member k); rewrite ?Hk; cbn [child_of];
        destruct (sp _) as [c' | | ]; cbn [bind write rebind];
        try reflexivity; rewrite put_plain by exact Hk; reflexivity.
Qed.

Lemma unflatten_loop_keyed (obj : list (string * json)) (result : json) :
  unflatten_loop obj result = run_all json set_path (keyed obj) result.
Proof.
  revert result. induction obj as [ | [path v] obj IH ]; intros result; [ reflexivity | ].
  cbn [unflatten_loop keyed map run_all fst snd].
  destruct (set_path (split "." path) v result); cbn [bind]; auto.
Qed.

(** Below a key, updates with at least one more key each act on the object
    bound to the key, starting from an empty object when there is none. *)
Lemma step_all_deep (tails : list (list string * json)) :
  Forall (headed json not_proto) tails -> tails <> [] ->
  forall k0 c r0,
    child_of c = JObj r0 ->
    step_all json set_step k0 tails c
    = j <- run_all json set_path tails (JObj r0) ;; Done (Some j).
Proof.
  induction tails as [ | [ks v] tails IH ]; intros Hheaded Hne k0 c r0 Hc; [ congruence | ].
  inversion Hheaded as [ | ? ? Hop Hrest ]; subst.
  destruct ks as [ | k rest ]; [ destruct Hop | ].
  unfold headed, not_proto in Hop. cbn [fst] in Hop.
  cbn [run_all step_all set_step]. rewrite Hc.
  rewrite (set_path_head _ _ _ _ Hop).
  destruct (set_step k rest v (assoc k r0)) as [c1 | | ]; cbn [bind]; try reflexivity.
  destruct tails as [ | t tails ]; [ reflexivity | ].
  apply IH; [ exact Hrest | discriminate | reflexivity ].
Qed.

Lemma below_leaves_entries (k : string) (kvs : list (string * json)) :
  NoDup (keys kvs) ->
  below json k (leaves_entries kvs)
  = match assoc k kvs with Some v => leaves v | None => [] end.
Proof.
  induction kvs as [ | [k0 v0] l IH ]; intros Hnd; [ reflexivity | ].
  inversion Hnd as [ | ? ? Hnot Hnd' ]; subst.
  cbn [leaves_entries flat_map fst snd assoc]. fold (leaves_entries l).
  rewrite below_app, below_cons_map, (IH Hnd').
  destruct (String.eqb_spec k k0) as [-> | Hne]; [ | reflexivity ].
  destruct (assoc k0 l) as [v | ] eqn:Hv; [ | apply app_nil_r ].
  exfalso. apply Hnot. apply assoc_some_in. eauto.
Qed.

Lemma leaves_nonempty (v : json) : flat_value v = true -> leaves v <> [].
Proof.
  induction v as [ | b | n | s | xs IH | kvs IH ] using json_induction; intros Hv;
    try discriminate.
  destruct kvs as [ | [k v] l ]; [ discriminate | ].
  cbn [flat_value] in Hv. rewrite flat_tree_object in Hv. cbn [forallb fst snd] in Hv.
  apply andb_prop in Hv. destruct Hv as [Hkv _].
  apply andb_prop in Hkv. destruct Hkv as [_ Hv].
  inversion IH as [ | ? ? IHv _ ]; subst. cbn [snd] in IHv.
  rewrite leaves_object. cbn [leaves_entries flat_map fst snd].
  specialize (IHv Hv). destruct (leaves v); [ congruence | discriminate ].
Qed.

Lemma leaves_entries_headed (kvs : list (string * json)) :
  flat_tree (JObj kvs) = true ->
  Forall (headed json not_proto) (leaves_entries kvs).
Proof.
  intros Hflat. apply Forall_forall. intros e He.
  apply in_leaves_entries in He. destruct He as [k [v [e' [Hkv [_ ->]]]]].
  unfold headed, not_proto. cbn [fst].
  destruct (flat_entry _ _ _ Hflat Hkv) as [Hk _]. apply (flat_key_parts k Hk).
Qed.

Lemma json_equivb_scalar (v : json) :
  match v with JArr _ | JObj _ => False | _ => True end -> json_equivb v v = true.
Proof.
  destruct v; intros H; try destruct H; simpl;
    auto using Bool.eqb_reflx, Z.eqb_refl, String.eqb_refl.
Qed.

(** Setting the leaves of a tree one by one into an empty object, in any
    order, rebuilds the tree. *)
Lemma unflatten_leaves (T : json) :
  forall kvs, T = JObj kvs -> wf T -> flat_tree T = true ->
  forall E, Permutation E (leaves T) ->
  exists r, run_all json set_path E (JObj []) = Done (JObj r)
            /\ NoDup (keys r)
            /\ json_equivb (JObj r) T = true.
Proof.
  induction T as [ | b | n | s | xs IH | kvs0 IH ] using json_induction;
    intros kvs Heq Hwf Hflat E Hperm; try discriminate.
  injection Heq as ->.
  assert (Hnd : NoDup (keys kvs)) by (apply wf_object in Hwf; apply Hwf).
  rewrite leaves_object in Hperm.
  assert (Hheaded : Forall (headed json not_proto) E).
  { apply Forall_forall. intros e He.
    assert (Hall := leaves_entries_headed kvs Hflat). rewrite Forall_forall in Hall.
    apply Hall. apply (Permutation_in _ Hperm He). }
  assert (Hkey : forall k, exists c,
             step_all json set_step k (below json k E) None = Done c
             /\ match c, assoc k kvs with
                | Some x, Some y => json_equivb x y = true
                | None, None => True
                | _, _ => False
                end).
  { intros k.
    assert (Hbelow := below_perm json k _ _ Hperm).
    rewrite (below_leaves_entries k kvs Hnd) in Hbelow.
    destruct (assoc k kvs) as [v | ] eqn:Hv.
    - assert (Hin : In (k, v) kvs).
      { clear - Hv. induction kvs as [ | [k0 v0] l IHl ]; [ discriminate | ].
        cbn [assoc] in Hv. destruct (String.eqb_spec k k0) as [-> | ].
        - injection Hv as ->. left. reflexivity.
        - right. auto. }
      destruct (flat_entry _ _ _ Hflat Hin) as [_ Hfv].
      destruct v as [ | b | n | s | xs | c ];
        try (cbn [leaves] in Hbelow; apply Permutation_sym in Hbelow;
             apply Permutation_length_1_inv in Hbelow; rewrite Hbelow;
             eexists; split; [ reflexivity | ]; apply json_equivb_scalar; exact I).
      + discriminate.
      + rewrite Forall_forall in IH.
        destruct (IH _ Hin c eq_refl (wf_entry _ _ _ Hwf Hin) (flat_value_tree _ Hfv)
                     (below json k E) Hbelow) as [r' [Hrun [_ Hequiv]]].
        exists (Some (JObj r')). split; [ | exact Hequiv ].
        rewrite (step_all_deep (below json k E)) with (r0 := []).
        * rewrite Hrun. reflexivity.
        * apply Forall_forall. intros e He.
          assert (Hall := leaves_entries_headed c (flat_value_tree _ Hfv)).
          rewrite Forall_forall in Hall. apply Hall.
          rewrite <- leaves_object. apply (Permutation_in _ Hbelow He).
        * intros Hnil. rewrite Hnil in Hbelow. apply Permutation_nil in Hbelow.
          apply (leaves_nonempty _ Hfv Hbelow).
        * reflexivity.
    - apply Permutation_sym, Permutation_nil in Hbelow. rewrite Hbelow.
      exists None. split; [ reflexivity | exact I ]. }
  destruct (run_all_by_key json not_proto set_path set_step set_path_head E Hheaded [])
    as [r [Hrun [Hkeys Hndr]]].
  { intros k. destruct (Hkey k) as [c [Hc _]]. exists c. exact Hc. }
  exists r. split; [ exact Hrun | split; [ apply Hndr; constructor | ] ].
  apply equiv_by_keys; [ apply Hndr; constructor | exact Hnd | ].
  intros k. destruct (Hkey k) as [c [Hc Hmatch]].
  specialize (Hkeys k). cbn [assoc] in Hkeys. rewrite Hc in Hkeys.
  injection Hkeys as <-. exact Hmatch.
Qed.

(** C7, as stated, fails: an empty object below the root has no leaf, so
    flattening drops its key and [{a: {}}] comes back as [{}]. *)
Lemma C7_counterexample :
  (f <- flattenObject (JObj [("a", JObj [])]) ;; unflattenObject f) = Done (JObj [])
  /\ json_equivb (JObj []) (JObj [("a", JObj [])]) = false.
Proof. split; reflexivity. Qed.

(** C7 (amended).  For every object tree [T] without arrays in which every
    object below the root has at least one key and every key is non-empty,
    free of the separator and other than [__proto__], unflattening the
    flattening of [T] returns a tree structurally equal to [T]. *)
Theorem C7_flatten_unflatten (kvs : list (string * json)) :
  wf (JObj kvs) -> flat_tree (JObj kvs) = true ->
  exists R, (f <- flattenObject (JObj kvs) ;; unflattenObject f) = Done R
            /\ json_equiv R (JObj kvs).
Proof.
  intros Hwf Hflat.
  destruct (flatten_perm (JObj kvs) Hwf Hflat [] []) as [flat [Hflatten Hperm]].
  { constructor. }
  { intros e _ []. }
  unfold flattenObject. cbn [join] in Hflatten. rewrite Hflatten. cbn [bind app] in *.
  unfold unflattenObject. rewrite unflatten_loop_keyed.
  assert (Hkeyed : Permutation (keyed flat) (leaves (JObj kvs))).
  { unfold keyed. eapply Permutation_trans; [ apply Permutation_map; exact Hperm | ].
    rewrite map_map. cbn [fst snd].
    erewrite map_ext_in; [ rewrite map_id; apply Permutation_refl | ].
    intros e He. cbn [fst snd].
    assert (Hflat_e := leaves_flat _ Hflat e He).
    rewrite leaves_object in He. apply in_leaves_entries in He.
    destruct He as [k [v [e' [_ [_ ->]]]]]. cbn [fst snd] in *.
    rewrite split_join; [ reflexivity | discriminate | ].
    apply flat_keys_free. exact Hflat_e. }
  destruct (unflatten_leaves (JObj kvs) kvs eq_refl Hwf Hflat _ Hkeyed)
    as [r [Hrun [_ Hequiv]]].
  exists (JObj r). split; [ exact Hrun | exact Hequiv ].
Qed.

(** The theorem on a tree with integer-like keys and nested objects. *)
Lemma C7_witness :
  exists R, (f <- flattenObject
                    (JObj [("b", JNum 1); ("0", JObj [("x", JNull); ("y", JObj [("z", JStr "s")])]);
                           ("1", JBool true)]) ;;
             unflattenObject f) = Done R
            /\ json_equiv R
                 (JObj [("b", JNum 1); ("0", JObj [("x", JNull); ("y", JObj [("z", JStr "s")])]);
                        ("1", JBool true)]).
Proof.
  apply C7_flatten_unflatten.
  - simpl. repeat split; repeat constructor; simpl; intuition discriminate.
  - reflexivity.
Defined.

(** ** C1: diff, compile, apply *)

Lemma kdiff_objects (a b : list (string * json)) :
  kdiff (JObj a) (JObj b)
  = under a (removed_below b)
    ++ under b (added_below a)
    ++ under a (fun kv => common_below (kdiff (snd kv)) b kv).
Proof.
  cbn [kdiff]. do 2 f_equal. unfold under.
  induction a as [ | [k v1] l IH ]; [ reflexivity | ].
  cbn [flat_map fst snd]. rewrite IH. reflexivity.
Qed.

Lemma below_under {X : Type} (k : string) (l : list (string * json))
      (g : string * json -> list (list string * X)) :
  NoDup (keys l) ->
  below X k (under l g) = match assoc k l with Some v => g (k, v) | None => [] end.
Proof.
  unfold under. induction l as [ | [k0 v0] l IH ]; intros Hnd; [ reflexivity | ].
  inversion Hnd as [ | ? ? Hnot Hnd' ]; subst.
  cbn [flat_map fst snd assoc].
  rewrite below_app, below_cons_map, (IH Hnd').
  destruct (String.eqb_spec k k0) as [-> | Hne]; [ | reflexivity ].
  destruct (assoc k0 l) as [v | ] eqn:Hv; [ | apply app_nil_r ].
  exfalso. apply Hnot. apply assoc_some_in. eauto.
Qed.

Lemma json_equivb_refl (v : json) : wf v -> json_equivb v v = true.
Proof.
  induction v as [ | b | n | s | xs IH | kvs IH ] using json_induction; intros Hwf;
    try (apply json_equivb_scalar; exact I).
  - apply wf_array in Hwf. cbn [json_equivb].
    induction IH as [ | x l Hx _ IHl ]; [ reflexivity | ].
    inversion Hwf as [ | ? ? Hwx Hwl ]; subst.
    rewrite (Hx Hwx), (IHl Hwl). reflexivity.
  - apply equiv_by_keys; try (apply wf_object in Hwf; apply Hwf).
    intros k. destruct (assoc k kvs) as [v | ] eqn:Hv; [ | exact I ].
    assert (Hin : In (k, v) kvs).
    { clear - Hv. induction kvs as [ | [k0 v0] l IHl ]; [ discriminate | ].
      cbn [assoc] in Hv. destruct (String.eqb_spec k k0) as [-> | ].
      - injection Hv as ->. left. reflexivity.
      - right. auto. }
    rewrite Forall_forall in IH. apply (IH _ Hin). apply (wf_entry _ _ _ Hwf Hin).
Qed.

Lemma assoc_in (k : string) (v : json) (kvs : list (string * json)) :
  assoc k kvs = Some v -> In (k, v) kvs.
Proof.
  induction kvs as [ | [k0 v0] l IHl ]; [ discriminate | ].
  cbn [assoc]. destruct (String.eqb_spec k k0) as [-> | ].
  - intros H. injection H as ->. left. reflexivity.
  - right. auto.
Qed.

Lemma clean_tree_object (kvs : list (string * json)) :
  clean_tree (JObj kvs)
  = forallb (fun kv => clean_key (fst kv) && clean_tree (snd kv)) kvs.
Proof.
  cbn [clean_tree].
  induction kvs as [ | [k v] l IH ]; [ reflexivity | ].
  cbn [forallb fst snd]. rewrite IH. reflexivity.
Qed.

Lemma clean_entry (kvs : list (string * json)) (k : string) (v : json) :
  clean_tree (JObj kvs) = true -> In (k, v) kvs ->
  clean_key k = true /\ clean_tree v = true.
Proof.
  rewrite clean_tree_object, forallb_forall. intros H Hin.
  specialize (H _ Hin). cbn [fst snd] in H. apply andb_prop in H. exact H.
Qed.

Lemma walk_object (k : string) (rest : list string) (fin : json -> outcome json)
      (r0 : list (string * json)) :
  walk (k :: rest) fin (JObj r0)
  = match get r0 k with
    | Own v => r <- walk rest fin (enter v) ;; Done (JObj (obj_set k r r0))
    | Missing => r <- walk rest fin (JObj []) ;; Done (JObj (obj_set k r r0))
    | Inherited => Outside
    end.
Proof. cbn [walk]. destruct (match_digits k); reflexivity. Qed.

Lemma patch_run_head (k : string) (rest : list string) (x : payload)
      (r : list (string * json)) :
  not_proto k ->
  patch_run (k :: rest) x (JObj r)
  = c <- patch_step k rest x (assoc k r) ;; Done (JObj (rebind k c r)).
Proof.
  intros Hk. unfold not_proto in Hk. destruct rest as [ | k' rest' ].
  - unfold patch_run, patch_step. cbn [removelast lastPart last walk final op value].
    unfold part_key, assign.
    destruct x as [[ | | ] [v | ]]; cbn [fst snd bind rebind]; try reflexivity;
      rewrite put_plain by exact Hk; reflexivity.
  - unfold patch_run at 1.
    change (removelast (k :: k' :: rest')) with (k :: removelast (k' :: rest')).
    rewrite lastPart_cons, walk_object.
    unfold patch_step, patch_run, get.
    destruct (assoc k r); [ | destruct (proto_member k) ];
      try reflexivity; destruct (walk _ _ _); reflexivity.
Qed.

Lemma walk_ext (parts : list string) (f g : json -> outcome json) :
  (forall j, f j = g j) -> forall j, walk parts f j = walk parts g j.
Proof.
  intros Hfg. induction parts as [ | part rest IH ]; intros j; [ apply Hfg | ].
  cbn [walk].
  destruct (match_digits part); destruct j; try reflexivity;
    repeat match goal with
           | |- context [ nth_error ?l ?n ] => destruct (nth_error l n)
           | |- context [ get ?l ?n ] => destruct (get l n)
           | |- context [ Nat.eqb ?a ?b ] => destruct (Nat.eqb a b)
           end;
    try reflexivity; rewrite IH; reflexivity.
Qed.

Lemma final_payload (p : patch) (lp : option string) (j : json) :
  final p lp j = final (mkPatch (op p) EmptyString (value p)) lp j.
Proof. destruct p. reflexivity. Qed.

Lemma applyPatch_keyed (cs : list change) (obj : json) :
  applyPatch obj (generatePatch cs) = run_all payload patch_run (keyed_ops cs) obj.
Proof.
  revert obj. induction cs as [ | c cs IH ]; intros obj; [ reflexivity | ].
  cbn [generatePatch map applyPatch keyed_ops run_all].
  unfold apply_one, patch_run. cbn [fst snd].
  rewrite (walk_ext _ _ _ (final_payload (compile c) _)).
  destruct (walk _ _ obj); cbn [bind]; auto.
Qed.

Lemma clean_keys_nonempty (ks : list string) :
  Forall (fun k => clean_key k = true) ks -> Forall (fun k => nonempty k = true) ks.
Proof. apply Forall_impl. intros k Hk. apply (clean_key_parts k Hk). Qed.

Lemma parts_key_path (pre : list string) (k : string) :
  Forall (fun k => clean_key k = true) pre -> clean_key k = true ->
  pathParts (pointer (key_path (join "." pre) k)) = pre ++ [k].
Proof.
  intros Hpre Hk.
  rewrite key_path_join by (apply clean_keys_nonempty; exact Hpre).
  apply pathParts_pointer. apply Forall_app. split; [ exact Hpre | ].
  constructor; [ exact Hk | constructor ].
Qed.

(** The operations compiled from the diff of two clean object trees are
    the three loops on sequences of keys, under the keys of the base path. *)
Lemma keyed_diff (A : json) :
  forall a b pre,
    A = JObj a -> clean_tree A = true -> clean_tree (JObj b) = true ->
    Forall (fun k => clean_key k = true) pre ->
    keyed_ops (deepCompare A (JObj b) (join "." pre))
    = map (fun e => (pre ++ fst e, snd e)) (kdiff A (JObj b)).
Proof.
  induction A as [ | x | x | x | xs IH | a0 IH ] using json_induction;
    intros a b pre Heq Ha Hb Hpre; try discriminate.
  injection Heq as ->.
  rewrite deepCompare_objects, kdiff_objects. unfold keyed_ops.
  rewrite !map_app.
  apply (f_equal2 (@app _)); [ | apply (f_equal2 (@app _)) ].
  - assert (Hl : forall l, (forall kv, In kv l -> In kv a) ->
               map (fun c => (pathParts (ppath (compile c)),
                              (op (compile c), value (compile c))))
                   (removed_keys (join "." pre) l b)
               = map (fun e => (pre ++ fst e, snd e)) (under l (removed_below b))).
    { induction l as [ | [k v] l IHl ]; intros Hsub; [ reflexivity | ].
      assert (Hin : In (k, v) a) by (apply Hsub; left; reflexivity).
      destruct (clean_entry _ _ _ Ha Hin) as [Hk _].
      unfold under in *. cbn [removed_keys flat_map fst snd]. unfold removed_below at 1.
      cbn [fst]. destruct (has_key k b).
      - cbn [map app]. apply IHl. intros kv Hkv. apply Hsub. right. exact Hkv.
      - cbn [map app fst snd compile ckind removed cpath ppath op value].
        rewrite parts_key_path by assumption. apply f_equal.
        apply IHl. intros kv Hkv. apply Hsub. right. exact Hkv. }
    apply Hl. auto.
  - assert (Hl : forall l, (forall kv, In kv l -> In kv b) ->
               map (fun c => (pathParts (ppath (compile c)),
                              (op (compile c), value (compile c))))
                   (added_keys (join "." pre) a l)
               = map (fun e => (pre ++ fst e, snd e)) (under l (added_below a))).
    { induction l as [ | [k v] l IHl ]; intros Hsub; [ reflexivity | ].
      assert (Hin : In (k, v) b) by (apply Hsub; left; reflexivity).
      destruct (clean_entry _ _ _ Hb Hin) as [Hk _].
      unfold under in *. cbn [added_keys flat_map fst snd]. unfold added_below at 1.
      cbn [fst snd]. destruct (has_key k a).
      - cbn [map app]. apply IHl. intros kv Hkv. apply Hsub. right. exact Hkv.
      - cbn [map app fst snd compile ckind added cpath ppath op value rhs].
        rewrite parts_key_path by assumption. apply f_equal.
        apply IHl. intros kv Hkv. apply Hsub. right. exact Hkv. }
    apply Hl. auto.
  - assert (Hl : forall l, (forall kv, In kv l -> In kv a) ->
               map (fun c => (pathParts (ppath (compile c)),
                              (op (compile c), value (compile c))))
                   (common_keys (join "." pre) l b)
               = map (fun e => (pre ++ fst e, snd e))
                     (under l (fun kv => common_below (kdiff (snd kv)) b kv))).
    { induction l as [ | [k v1] l IHl ]; intros Hsub; [ reflexivity | ].
      assert (Hin : In (k, v1) a) by (apply Hsub; left; reflexivity).
      destruct (clean_entry _ _ _ Ha Hin) as [Hk Hv1].
      unfold under in *. cbn [common_keys flat_map fst snd].
      rewrite !map_app.
      apply (f_equal2 (@app _));
        [ | apply IHl; intros kv Hkv; apply Hsub; right; exact Hkv ].
      unfold common_key, common_below. cbn [fst snd].
      destruct (assoc k b) as [v2 | ] eqn:Hv2; [ | reflexivity ].
      destruct (clean_entry _ _ _ Hb (assoc_in _ _ _ Hv2)) as [_ Hcv2].
      assert (Hedit :
                map (fun c => (pathParts (ppath (compile c)),
                               (op (compile c), value (compile c))))
                    (if negb (json_eqb v1 v2)
                     then [edited (key_path (join "." pre) k) v1 v2] else [])
                = map (fun e => (pre ++ fst e, snd e))
                      (map (fun e => (k :: fst e, snd e))
                           (if json_eqb v1 v2 then []
                            else [([], (Replace, Some v2))]))).
      { destruct (json_eqb v1 v2); [ reflexivity | ].
        cbn [negb map fst snd compile ckind edited cpath ppath op value rhs].
        rewrite parts_key_path by assumption. reflexivity. }
      destruct v1 as [ | x1 | x1 | x1 | xs1 | o1 ]; try discriminate Hv1;
        destruct v2 as [ | x2 | x2 | x2 | xs2 | o2 ]; try discriminate Hcv2;
        try exact Hedit.
      cbn [typeof jstype_eqb is_null negb andb].
      rewrite key_path_join by (apply clean_keys_nonempty; exact Hpre).
      rewrite Forall_forall in IH.
      assert (Hpre' : Forall (fun k => clean_key k = true) (pre ++ [k])).
      { apply Forall_app. split; [ exact Hpre | constructor; [ exact Hk | constructor ] ]. }
      pose proof (IH _ Hin o1 o2 (pre ++ [k]) eq_refl Hv1 Hcv2 Hpre') as Hrec.
      unfold keyed_ops in Hrec. cbn [snd] in Hrec. rewrite Hrec.
      rewrite map_map. apply map_ext. intros e. cbn [fst snd].
      rewrite <- app_assoc. reflexivity. }
    apply Hl. auto.
Qed.

Lemma patch_step_all_deep (tails : list (list string * payload)) :
  Forall (headed payload not_proto) tails ->
  forall k0 r0,
    step_all payload patch_step k0 tails (Some (JObj r0))
    = j <- run_all payload patch_run tails (JObj r0) ;; Done (Some j).
Proof.
  induction tails as [ | [ks x] tails IH ]; intros Hheaded k0 r0; [ reflexivity | ].
  inversion Hheaded as [ | ? ? Hop Hrest ]; subst.
  destruct ks as [ | k rest ]; [ destruct Hop | ].
  unfold headed in Hop. cbn [fst] in Hop.
  cbn [run_all step_all patch_step enter truthy].
  rewrite (patch_run_head _ _ _ _ Hop).
  destruct (patch_step k rest x (assoc k r0)) as [c1 | | ]; cbn [bind]; try reflexivity.
  apply IH. exact Hrest.
Qed.

Lemma under_headed {X : Type} (good : string -> Prop) (l : list (string * json))
      (g : string * json -> list (list string * X)) :
  (forall kv, In kv l -> good (fst kv)) -> Forall (headed X good) (under l g).
Proof.
  intros Hgood. apply Forall_forall. intros e He.
  unfold under in He. apply in_flat_map in He. destruct He as [kv [Hkv He]].
  apply in_map_iff in He. destruct He as [e' [<- _]].
  unfold headed. cbn [fst]. apply Hgood. exact Hkv.
Qed.

Lemma clean_keys_not_proto (kvs : list (string * json)) :
  clean_tree (JObj kvs) = true -> forall kv, In kv kvs -> not_proto (fst kv).
Proof.
  intros Hclean [k v] Hin. destruct (clean_entry _ _ _ Hclean Hin) as [Hk _].
  apply (clean_key_parts k Hk).
Qed.

Lemma kdiff_headed (a b : list (string * json)) :
  clean_tree (JObj a) = true -> clean_tree (JObj b) = true ->
  Forall (headed payload not_proto) (kdiff (JObj a) (JObj b)).
Proof.
  intros Ha Hb. rewrite kdiff_objects.
  apply Forall_app. split; [ | apply Forall_app; split ]; apply under_headed.
  - apply clean_keys_not_proto. exact Ha.
  - apply clean_keys_not_proto. exact Hb.
  - apply clean_keys_not_proto. exact Ha.
Qed.

Lemma has_key_assoc (k : string) (r : list (string * json)) :
  has_key k r = match assoc k r with Some _ => true | None => false end.
Proof. reflexivity. Qed.

(** Applying to [A] the operations of the diff of [A] and [B], addressed by
    keys, yields a tree structurally equal to [B]. *)
Lemma roundtrip_keys (A : json) :
  forall a b,
    A = JObj a -> wf A -> wf (JObj b) ->
    clean_tree A = true -> clean_tree (JObj b) = true ->
    exists r, run_all payload patch_run (kdiff A (JObj b)) A = Done (JObj r)
              /\ NoDup (keys r)
              /\ json_equivb (JObj r) (JObj b) = true.
Proof.
  induction A as [ | x | x | x | xs IH | a0 IH ] using json_induction;
    intros a b Heq Hwa Hwb Hca Hcb; try discriminate.
  injection Heq as ->.
  assert (Hnda : NoDup (keys a)) by (apply wf_object in Hwa; apply Hwa).
  assert (Hndb : NoDup (keys b)) by (apply wf_object in Hwb; apply Hwb).
  assert (Hkey : forall k, exists c,
             step_all payload patch_step k (below payload k (kdiff (JObj a) (JObj b)))
                      (assoc k a) = Done c
             /\ match c, assoc k b with
                | Some x, Some y => json_equivb x y = true
                | None, None => True
                | _, _ => False
                end).
  { intros k. rewrite kdiff_objects, !below_app, !below_under by assumption.
    unfold removed_below, added_below, common_below. cbn [fst snd].
    rewrite !has_key_assoc.
    destruct (assoc k a) as [v1 | ] eqn:Hv1; destruct (assoc k b) as [v2 | ] eqn:Hv2;
      cbn [app].
    - assert (Hin1 := assoc_in _ _ _ Hv1). assert (Hin2 := assoc_in _ _ _ Hv2).
      assert (Hw2 := wf_entry _ _ _ Hwb Hin2).
      assert (Hscalar :
                exists c,
                  step_all payload patch_step k
                           (if json_eqb v1 v2 then [] else [([], (Replace, Some v2))])
                           (Some v1) = Done c
                  /\ match c with Some x => json_equivb x v2 = true | None => False end).
      { destruct (json_eqb v1 v2) eqn:Heq.
        - apply json_eqb_eq in Heq. subst v2.
          exists (Some v1). split; [ reflexivity | apply json_equivb_refl; exact Hw2 ].
        - exists (Some v2). split; [ reflexivity | apply json_equivb_refl; exact Hw2 ]. }
      destruct v1 as [ | x1 | x1 | x1 | xs1 | o1 ]; try exact Hscalar;
        destruct v2 as [ | x2 | x2 | x2 | xs2 | o2 ]; try exact Hscalar.
      rewrite Forall_forall in IH.
      destruct (clean_entry _ _ _ Hca Hin1) as [_ Hc1].
      destruct (clean_entry _ _ _ Hcb Hin2) as [_ Hc2].
      destruct (IH _ Hin1 o1 o2 eq_refl (wf_entry _ _ _ Hwa Hin1) Hw2 Hc1 Hc2)
        as [r' [Hrun [_ Hequiv]]].
      cbn [snd] in Hrun.
      exists (Some (JObj r')). split; [ | exact Hequiv ].
      rewrite patch_step_all_deep by (apply kdiff_headed; assumption).
      rewrite Hrun. reflexivity.
    - exists None. split; [ reflexivity | exact I ].
    - exists (Some v2). split; [ reflexivity | ].
      apply json_equivb_refl. apply (wf_entry _ _ _ Hwb (assoc_in _ _ _ Hv2)).
    - exists None. split; [ reflexivity | exact I ]. }
  destruct (run_all_by_key payload not_proto patch_run patch_step patch_run_head
                           (kdiff (JObj a) (JObj b)) (kdiff_headed a b Hca Hcb) a)
    as [r [Hrun [Hkeys Hndr]]].
  { intros k. destruct (Hkey k) as [c [Hc _]]. exists c. exact Hc. }
  exists r. split; [ exact Hrun | split; [ apply Hndr; exact Hnda | ] ].
  apply equiv_by_keys; [ apply Hndr; exact Hnda | exact Hndb | ].
  intros k. destruct (Hkey k) as [c [Hc Hmatch]].
  specialize (Hkeys k). rewrite Hc in Hkeys. injection Hkeys as <-. exact Hmatch.
Qed.

(** C1, as stated, fails: an address cannot tell a key that holds a [.]
    from two nested keys, so the edit of [{"a.b": 1}] into [{"a.b": 2}] is
    applied at [a] then [b] and leaves the key [a.b] as it was. *)
Lemma C1_counterexample :
  applyPatch (JObj [("a.b", JNum 1)])
             (generatePatch (deepCompare (JObj [("a.b", JNum 1)]) (JObj [("a.b", JNum 2)]) EmptyString))
  = Done (JObj [("a.b", JNum 1); ("a", JObj [("b", JNum 2)])])
  /\ json_equivb (JObj [("a.b", JNum 1); ("a", JObj [("b", JNum 2)])])
                 (JObj [("a.b", JNum 2)]) = false.
Proof. split; reflexivity. Qed.

(** C1 (amended).  For all object trees [A] and [B] without arrays whose
    keys are non-empty, hold neither [.] nor [/] and are other than
    [__proto__], applying to [A] the patch compiled from the diff of
    [A] and [B] yields a tree structurally equal to [B]. *)
Theorem C1_diff_patch_roundtrip (a b : list (string * json)) :
  wf (JObj a) -> wf (JObj b) ->
  clean_tree (JObj a) = true -> clean_tree (JObj b) = true ->
  exists R, applyPatch (JObj a) (generatePatch (deepCompare (JObj a) (JObj b) EmptyString)) = Done R
            /\ json_equiv R (JObj b).
Proof.
  intros Hwa Hwb Hca Hcb.
  rewrite applyPatch_keyed.
  change EmptyString with (join "." []).
  rewrite (keyed_diff (JObj a) a b [] eq_refl Hca Hcb) by constructor.
  cbn [app]. rewrite map_ext with (g := fun e => e) by (intros [ks x]; reflexivity).
  rewrite map_id.
  destruct (roundtrip_keys (JObj a) a b eq_refl Hwa Hwb Hca Hcb) as [r [Hrun [_ Hequiv]]].
  exists (JObj r). split; [ exact Hrun | exact Hequiv ].
Qed.

(** The theorem on two trees that differ by removed, added, edited and
    nested keys, one of them named like a member of [Object.prototype]. *)
Lemma C1_witness :
  exists R,
    applyPatch (JObj [("name", JStr "x"); ("cfg", JObj [("on", JBool true); ("n", JNum 1)]);
                      ("old", JNull)])
               (generatePatch
                  (deepCompare
                     (JObj [("name", JStr "x"); ("cfg", JObj [("on", JBool true); ("n", JNum 1)]);
                            ("old", JNull)])
                     (JObj [("cfg", JObj [("n", JNum 2); ("deep", JObj [("k", JStr "v")])]);
                            ("name", JObj []); ("constructor", JNum 3)])
                     EmptyString)) = Done R
    /\ json_equiv R (JObj [("cfg", JObj [("n", JNum 2); ("deep", JObj [("k", JStr "v")])]);
                           ("name", JObj []); ("constructor", JNum 3)]).
Proof.
  apply C1_diff_patch_roundtrip.
  - simpl. repeat split; repeat constructor; simpl; intuition discriminate.
  - simpl. repeat split; repeat constructor; simpl; intuition discriminate.
  - reflexivity.
  - reflexivity.
Defined.

(** * Further properties *)

(** ** The diff of a tree with itself *)

Lemma in_has_key (k : string) (v : json) (kvs : list (string * json)) :
  In (k, v) kvs -> has_key k kvs = true.
Proof.
  intros H. apply has_key_in. unfold keys.
  change k with (fst (k, v)). apply in_map. exact H.
Qed.

Lemma removed_keys_present (p : string) (l e2 : list (string * json)) :
  (forall kv, In kv l -> has_key (fst kv) e2 = true) -> removed_keys p l e2 = [].
Proof.
  induction l as [ | [k v] l IH ]; intros H; [ reflexivity | ].
  cbn [removed_keys]. pose proof (H (k, v) (or_introl eq_refl)) as Hk.
  cbn [fst] in Hk. rewrite Hk.
  apply IH. intros kv Hkv. apply H. right. exact Hkv.
Qed.

Lemma added_keys_present (p : string) (e1 l : list (string * json)) :
  (forall kv, In kv l -> has_key (fst kv) e1 = true) -> added_keys p e1 l = [].
Proof.
  induction l as [ | [k v] l IH ]; intros H; [ reflexivity | ].
  cbn [added_keys]. pose proof (H (k, v) (or_introl eq_refl)) as Hk.
  cbn [fst] in Hk. rewrite Hk.
  apply IH. intros kv Hkv. apply H. right. exact Hkv.
Qed.

Lemma deepCompare_same (A : json) : wf A -> forall p, deepCompare A A p = [].
Proof.
  induction A as [ | b | n | s | xs IH | kvs IH ] using json_induction; intros Hwf p.
  - reflexivity.
  - simpl. rewrite Bool.eqb_reflx. reflexivity.
  - simpl. rewrite Z.eqb_refl. reflexivity.
  - simpl. rewrite String.eqb_refl. reflexivity.
  - rewrite deepCompare_arrays. apply wf_array in Hwf. generalize 0%nat.
    induction IH as [ | x l Hx _ IHl ]; intros i; [ reflexivity | ].
    inversion Hwf as [ | ? ? Hwx Hwl ]; subst.
    cbn [compare_arrays]. rewrite (Hx Hwx), (IHl Hwl). reflexivity.
  - rewrite deepCompare_objects. apply wf_object in Hwf. destruct Hwf as [Hnd Hwf].
    rewrite removed_keys_present, added_keys_present;
      try (intros [k v] Hin; exact (in_has_key k v kvs Hin)).
    cbn [app].
    assert (Hall : forall l, incl l kvs -> common_keys p l kvs = []).
    { induction l as [ | [k v1] l IHl ]; intros Hincl; [ reflexivity | ].
      assert (Hin : In (k, v1) kvs) by (apply Hincl; left; reflexivity).
      cbn [common_keys]. rewrite IHl by (intros x Hx; apply Hincl; right; exact Hx).
      rewrite app_nil_r. unfold common_key.
      rewrite (assoc_in_nodup k v1 kvs Hnd Hin).
      rewrite Forall_forall in IH, Hwf.
      destruct (jstype_eqb (typeof v1) TObject && jstype_eqb (typeof v1) TObject
                && negb (is_null v1) && negb (is_null v1)).
      - apply (IH (k, v1) Hin). apply (Hwf (k, v1) Hin).
      - rewrite json_eqb_refl. reflexivity. }
    apply Hall. apply incl_refl.
Qed.

(** X1.  The diff of a tree with itself is empty, at whatever base path:
    no record is produced for any two equal trees whose objects have
    pairwise distinct keys. *)
Theorem diff_of_equal_trees_is_empty (A : json) (p : string) :
  wf A -> deepCompare A A p = [].
Proof. intros Hwf. apply deepCompare_same. exact Hwf. Qed.

Lemma diff_of_equal_trees_is_empty_witness :
  deepCompare (JObj [("a", JArr [JNum 1; JObj [("b", JNull)]]); ("c", JStr "x")])
              (JObj [("a", JArr [JNum 1; JObj [("b", JNull)]]); ("c", JStr "x")])
              EmptyString = [].
Proof.
  apply diff_of_equal_trees_is_empty.
  simpl. repeat split; repeat constructor; simpl; intuition discriminate.
Defined.

(** ** Arrays that grow or shrink at the end *)

Lemma compare_arrays_extended (p : string) (xs ys : list json) :
  Forall wf xs ->
  forall i, compare_arrays p i xs (xs ++ ys) = added_tail p (i + List.length xs) ys.
Proof.
  induction 1 as [ | x l Hx _ IH ]; intros i.
  - simpl. rewrite Nat.add_0_r. reflexivity.
  - cbn [compare_arrays app List.length]. rewrite (deepCompare_same x Hx), IH.
    cbn [app]. rewrite Nat.add_succ_r. reflexivity.
Qed.

Lemma compare_arrays_removed (p : string) (ys : list json) :
  forall i, compare_arrays p i ys []
            = map (fun iy => removed (index_path p (fst iy)) (snd iy))
                  (combine (seq i (List.length ys)) ys).
Proof.
  induction ys as [ | y r IH ]; intros i; [ reflexivity | ].
  simpl. rewrite IH. reflexivity.
Qed.

Lemma compare_arrays_truncated (p : string) (xs ys : list json) :
  Forall wf xs ->
  forall i, compare_arrays p i (xs ++ ys) xs
            = compare_arrays p (i + List.length xs) ys [].
Proof.
  induction 1 as [ | x l Hx _ IH ]; intros i.
  - simpl. rewrite Nat.add_0_r. destruct ys; reflexivity.
  - cbn [compare_arrays app List.length]. rewrite (deepCompare_same x Hx), IH.
    cbn [app]. rewrite Nat.add_succ_r. reflexivity.
Qed.

(** X2.  Comparing an array with the same array followed by more elements
    gives exactly one Added record for each extra element, at its index in
    brackets under the base path and in the order of the elements;
    comparing the longer array with the shorter one gives the Removed
    records of the same elements in the same way. *)
Theorem diff_of_array_extension (xs ys : list json) (p : string) :
  wf (JArr xs) ->
  deepCompare (JArr xs) (JArr (xs ++ ys)) p
  = map (fun iy => added (index_path p (fst iy)) (snd iy))
        (combine (seq (List.length xs) (List.length ys)) ys)
  /\ deepCompare (JArr (xs ++ ys)) (JArr xs) p
     = map (fun iy => removed (index_path p (fst iy)) (snd iy))
           (combine (seq (List.length xs) (List.length ys)) ys).
Proof.
  intros Hwf. apply wf_array in Hwf. rewrite !deepCompare_arrays. split.
  - rewrite compare_arrays_extended by exact Hwf. apply added_tail_map.
  - rewrite compare_arrays_truncated by exact Hwf. apply compare_arrays_removed.
Qed.

Lemma diff_of_array_extension_witness :
  deepCompare (JArr [JNum 1; JNum 2]) (JArr ([JNum 1; JNum 2] ++ [JNum 3])) EmptyString
  = [added "[2]" (JNum 3)]
  /\ deepCompare (JArr ([JNum 1; JNum 2] ++ [JNum 3])) (JArr [JNum 1; JNum 2]) EmptyString
     = [removed "[2]" (JNum 3)].
Proof.
  apply (diff_of_array_extension [JNum 1; JNum 2] [JNum 3] EmptyString).
  simpl. auto.
Defined.

(** ** Bracketed indices in a pointer *)

Lemma digit_not (c a : ascii) : is_digit c = true -> is_digit a = false -> Ascii.eqb c a = false.
Proof.
  intros Hc Ha. destruct (Ascii.eqb_spec c a) as [-> | ]; [ congruence | reflexivity ].
Qed.

Lemma all_digits_free (a : ascii) (s : string) :
  is_digit a = false -> all_digits s = true -> free_of a s = true.
Proof.
  intros Ha. induction s as [ | c s IH ]; simpl; [ reflexivity | ].
  intros H. apply andb_prop in H. destruct H as [Hc Hs].
  rewrite (digit_not c a Hc Ha), (IH Hs). reflexivity.
Qed.

Lemma free_of_app (a : ascii) (x y : string) :
  free_of a (x ++ y) = free_of a x && free_of a y.
Proof.
  induction x as [ | c x IH ]; simpl; [ reflexivity | ].
  rewrite IH. apply Bool.andb_assoc.
Qed.

Lemma bracket_free (a : ascii) (n : nat) :
  is_digit a = false -> Ascii.eqb "[" a = false -> Ascii.eqb "]" a = false ->
  free_of a ("[" ++ nat_to_string n ++ "]") = true.
Proof.
  intros Ha Hl Hr. cbn [append free_of]. rewrite Hl. cbn [negb andb].
  rewrite free_of_app. rewrite (all_digits_free a (nat_to_string n) Ha (all_digits_of_uint (Nat.to_uint n))).
  cbn [free_of]. rewrite Hr. reflexivity.
Qed.

(** The pointer of a root-level array index has one segment, the index in
    its brackets. *)
Lemma pathParts_index (n : nat) :
  pathParts (pointer (index_path EmptyString n)) = [("[" ++ nat_to_string n ++ "]")%string].
Proof.
  unfold index_path, pointer, pathParts. cbn [nonempty String.eqb negb].
  change (nonempty ("[" ++ nat_to_string n ++ "]")%string) with true. cbv iota.
  rewrite replace_all_free by (apply bracket_free; reflexivity).
  cbn [split]. change (Ascii.eqb "/" "/") with true. cbv iota.
  rewrite split_free by (apply bracket_free; reflexivity).
  reflexivity.
Qed.

(** [parseInt] of a segment that starts with a bracket is [NaN]. *)
Lemma parseInt_bracket (s : string) : parseInt (String "[" s) = None.
Proof. reflexivity. Qed.

Lemma apply_added_index (xs : list json) (n : nat) (v : json) :
  apply_one (JArr xs) (compile (added (index_path EmptyString n) v)) = Done (JArr (v :: xs)).
Proof.
  unfold apply_one. cbn [compile added ckind cpath rhs ppath].
  rewrite pathParts_index. reflexivity.
Qed.

Lemma apply_removed_index (xs : list json) (n : nat) (v : json) :
  apply_one (JArr xs) (compile (removed (index_path EmptyString n) v)) = Done (JArr (tl xs)).
Proof.
  unfold apply_one. cbn [compile removed ckind cpath rhs ppath].
  rewrite pathParts_index. destruct xs; reflexivity.
Qed.

Lemma apply_added_indices (ys : list json) :
  forall (xs : list json) (i : nat),
    applyPatch (JArr xs) (generatePatch (added_tail EmptyString i ys))
    = Done (JArr (rev ys ++ xs)).
Proof.
  induction ys as [ | y r IH ]; intros xs i; [ reflexivity | ].
  cbn [added_tail generatePatch map applyPatch].
  rewrite apply_added_index. cbn [bind].
  change (map compile (added_tail EmptyString (S i) r))
    with (generatePatch (added_tail EmptyString (S i) r)).
  rewrite IH. cbn [rev]. rewrite <- app_assoc. reflexivity.
Qed.

Lemma apply_removed_indices (ys : list json) :
  forall (xs : list json) (i : nat),
    applyPatch (JArr xs) (generatePatch (compare_arrays EmptyString i ys []))
    = Done (JArr (skipn (List.length ys) xs)).
Proof.
  induction ys as [ | y r IH ]; intros xs i; [ reflexivity | ].
  cbn [compare_arrays generatePatch map applyPatch].
  rewrite apply_removed_index. cbn [bind].
  change (map compile (compare_arrays EmptyString (S i) r []))
    with (generatePatch (compare_arrays EmptyString (S i) r [])).
  rewrite IH. destruct xs as [ | x xs ]; cbn [tl List.length skipn].
  - apply f_equal. apply f_equal. apply skipn_nil.
  - reflexivity.
Qed.

(** X3.  Elements appended to a root array do not come back at the end:
    the pointer of an Added record at an index is the index in brackets,
    which [parseInt] reads as [NaN], so each add is a [splice] at
    position 0.  Applying to an array the patch of its diff with an
    extension of it puts the extra elements in front, in reverse order. *)
Theorem patch_of_array_extension_prepends (xs ys : list json) :
  wf (JArr xs) ->
  applyPatch (JArr xs)
             (generatePatch (deepCompare (JArr xs) (JArr (xs ++ ys)) EmptyString))
  = Done (JArr (rev ys ++ xs)).
Proof.
  intros Hwf. apply wf_array in Hwf.
  rewrite deepCompare_arrays, compare_arrays_extended by exact Hwf.
  apply apply_added_indices.
Qed.

Lemma patch_of_array_extension_prepends_witness :
  applyPatch (JArr [JNum 1])
             (generatePatch (deepCompare (JArr [JNum 1]) (JArr ([JNum 1] ++ [JNum 2; JNum 3]))
                                         EmptyString))
  = Done (JArr (rev [JNum 2; JNum 3] ++ [JNum 1])).
Proof.
  apply (patch_of_array_extension_prepends [JNum 1] [JNum 2; JNum 3]).
  simpl. auto.
Defined.

(** X4.  Elements dropped from the end of a root array are not the ones
    the patch removes: each remove is a [splice] at position 0, so
    applying to an array the patch of its diff with a proper prefix of it
    drops as many elements from the front. *)
Theorem patch_of_array_truncation_drops_front (xs ys : list json) :
  wf (JArr xs) ->
  applyPatch (JArr (xs ++ ys))
             (generatePatch (deepCompare (JArr (xs ++ ys)) (JArr xs) EmptyString))
  = Done (JArr (skipn (List.length ys) (xs ++ ys))).
Proof.
  intros Hwf. apply wf_array in Hwf.
  rewrite deepCompare_arrays, compare_arrays_truncated by exact Hwf.
  apply apply_removed_indices.
Qed.

Lemma patch_of_array_truncation_drops_front_witness :
  applyPatch (JArr ([JNum 1; JNum 2] ++ [JNum 3]))
             (generatePatch (deepCompare (JArr ([JNum 1; JNum 2] ++ [JNum 3]))
                                         (JArr [JNum 1; JNum 2]) EmptyString))
  = Done (JArr (skipn (List.length [JNum 3]) ([JNum 1; JNum 2] ++ [JNum 3]))).
Proof.
  apply (patch_of_array_truncation_drops_front [JNum 1; JNum 2] [JNum 3]).
  simpl. auto.
Defined.

(** ** What an empty diff says *)

Lemma array_free_object (kvs : list (string * json)) :
  array_free (JObj kvs) = forallb (fun kv => array_free (snd kv)) kvs.
Proof.
  cbn [array_free]. induction kvs as [ | [k v] l IH ]; [ reflexivity | ].
  cbn [forallb snd]. rewrite IH. reflexivity.
Qed.

Lemma array_free_entry (kvs : list (string * json)) (k : string) (v : json) :
  array_free (JObj kvs) = true -> In (k, v) kvs -> array_free v = true.
Proof.
  rewrite array_free_object, forallb_forall. intros H Hin. apply (H (k, v) Hin).
Qed.

Lemma removed_keys_nil (p : string) (l e2 : list (string * json)) :
  removed_keys p l e2 = [] -> forall k v, In (k, v) l -> has_key k e2 = true.
Proof.
  induction l as [ | [k0 v0] l IH ]; cbn [removed_keys]; intros H k v Hin; [ destruct Hin | ].
  destruct (has_key k0 e2) eqn:Hk; [ | discriminate ].
  destruct Hin as [Heq | Hin]; [ injection Heq as <- <-; exact Hk | eauto ].
Qed.

Lemma added_keys_nil (p : string) (e1 l : list (string * json)) :
  added_keys p e1 l = [] -> forall k v, In (k, v) l -> has_key k e1 = true.
Proof.
  induction l as [ | [k0 v0] l IH ]; cbn [added_keys]; intros H k v Hin; [ destruct Hin | ].
  destruct (has_key k0 e1) eqn:Hk; [ | discriminate ].
  destruct Hin as [Heq | Hin]; [ injection Heq as <- <-; exact Hk | eauto ].
Qed.

Lemma common_keys_nil (p : string) (l e2 : list (string * json)) :
  common_keys p l e2 = [] ->
  forall k v1, In (k, v1) l -> common_key (deepCompare v1) p k v1 e2 = [].
Proof.
  induction l as [ | [k0 v0] l IH ]; cbn [common_keys]; intros H k v Hin; [ destruct Hin | ].
  apply app_eq_nil in H. destruct H as [H0 Hl].
  destruct Hin as [Heq | Hin]; [ injection Heq as <- <-; exact H0 | eauto ].
Qed.

Lemma empty_diff_equiv (A : json) :
  forall B p, wf A -> wf B -> array_free A = true -> array_free B = true ->
              deepCompare A B p = [] -> json_equivb A B = true.
Proof.
  induction A as [ | x | x | x | xs IH | a IH ] using json_induction;
    intros B p HwA HwB HfA HfB Hd; try discriminate HfA;
    try (destruct B; try discriminate HfB; simpl in Hd; try discriminate Hd;
         cbn [json_equivb];
         match goal with
         | H : (if negb ?c then _ else _) = [] |- _ =>
             destruct c; [ reflexivity | discriminate H ]
         | |- _ => reflexivity
         end).
  destruct B as [ | y | y | y | ys | b ]; try discriminate HfB;
    try (simpl in Hd; discriminate Hd).
  rewrite deepCompare_objects in Hd.
  apply app_eq_nil in Hd. destruct Hd as [Hrem Hd].
  apply app_eq_nil in Hd. destruct Hd as [Hadd Hcom].
  pose proof (proj1 (wf_object a) HwA) as [Hnda _].
  pose proof (proj1 (wf_object b) HwB) as [Hndb _].
  apply equiv_by_keys; try assumption.
  intros k. destruct (assoc k a) as [x | ] eqn:Hka; destruct (assoc k b) as [y | ] eqn:Hkb.
  - pose proof (assoc_in _ _ _ Hka) as Hina. pose proof (assoc_in _ _ _ Hkb) as Hinb.
    pose proof (common_keys_nil _ _ _ Hcom k x Hina) as Hc.
    unfold common_key in Hc. rewrite Hkb in Hc.
    destruct (jstype_eqb (typeof x) TObject && jstype_eqb (typeof y) TObject
              && negb (is_null x) && negb (is_null y)).
    + rewrite Forall_forall in IH.
      apply (IH (k, x) Hina y (key_path p k)); eauto using wf_entry, array_free_entry.
    + destruct (json_eqb x y) eqn:Hxy; [ | discriminate Hc ].
      apply json_eqb_eq in Hxy. subst y. apply json_equivb_refl. eauto using wf_entry.
  - pose proof (removed_keys_nil _ _ _ Hrem k x (assoc_in _ _ _ Hka)) as Hk.
    unfold has_key in Hk. rewrite Hkb in Hk. discriminate Hk.
  - pose proof (added_keys_nil _ _ _ Hadd k y (assoc_in _ _ _ Hkb)) as Hk.
    unfold has_key in Hk. rewrite Hka in Hk. discriminate Hk.
  - exact I.
Qed.

(** X5.  On trees without arrays whose objects have pairwise distinct
    keys, an empty diff means equal trees: the same scalars, and objects
    with the same keys bound to equal values, whatever the order of the
    keys. *)
Theorem empty_diff_means_equal (A B : json) (p : string) :
  wf A -> wf B -> array_free A = true -> array_free B = true ->
  deepCompare A B p = [] -> json_equiv A B.
Proof. intros. eapply empty_diff_equiv; eassumption. Qed.

Lemma empty_diff_means_equal_witness :
  json_equiv (JObj [("a", JNum 1); ("b", JObj [("c", JNull)])])
             (JObj [("b", JObj [("c", JNull)]); ("a", JNum 1)]).
Proof.
  apply (empty_diff_means_equal _ _ EmptyString).
  - simpl. repeat split; repeat constructor; simpl; intuition discriminate.
  - simpl. repeat split; repeat constructor; simpl; intuition discriminate.
  - reflexivity.
  - reflexivity.
  - reflexivity.
Defined.

(** ** The diff read in the other direction *)

Lemma json_eqb_sym (a b : json) : json_eqb a b = json_eqb b a.
Proof.
  destruct (json_eqb a b) eqn:Hab.
  - apply json_eqb_eq in Hab. subst b. symmetry. apply json_eqb_refl.
  - destruct (json_eqb b a) eqn:Hba; [ | reflexivity ].
    apply json_eqb_eq in Hba. subst b. rewrite json_eqb_refl in Hab. discriminate Hab.
Qed.

Lemma removed_keys_swap (p : string) (e1 e2 : list (string * json)) :
  removed_keys p e2 e1 = map swap (added_keys p e1 e2).
Proof.
  induction e2 as [ | [k v] l IH ]; [ reflexivity | ].
  cbn [removed_keys added_keys]. destruct (has_key k e1); [ exact IH | ].
  cbn [map]. rewrite IH. reflexivity.
Qed.

Lemma added_keys_swap (p : string) (e1 e2 : list (string * json)) :
  added_keys p e2 e1 = map swap (removed_keys p e1 e2).
Proof.
  induction e1 as [ | [k v] l IH ]; [ reflexivity | ].
  cbn [removed_keys added_keys]. destruct (has_key k e2); [ exact IH | ].
  cbn [map]. rewrite IH. reflexivity.
Qed.

Lemma common_keys_flat_map (p : string) (l e : list (string * json)) :
  common_keys p l e
  = flat_map (fun kv => common_key (deepCompare (snd kv)) p (fst kv) (snd kv) e) l.
Proof.
  induction l as [ | [k v] l IH ]; [ reflexivity | ].
  cbn [common_keys flat_map fst snd]. rewrite IH. reflexivity.
Qed.

Lemma common_keys_perm (p : string) (l l' e : list (string * json)) :
  Permutation l l' -> Permutation (common_keys p l e) (common_keys p l' e).
Proof.
  intros H. rewrite !common_keys_flat_map. apply Permutation_flat_map. exact H.
Qed.

Lemma common_keys_ext (p : string) (l e e' : list (string * json)) :
  (forall k v, In (k, v) l -> assoc k e = assoc k e') ->
  common_keys p l e = common_keys p l e'.
Proof.
  induction l as [ | [k v] l IH ]; intros H; [ reflexivity | ].
  cbn [common_keys]. unfold common_key.
  rewrite (H k v) by (left; reflexivity).
  rewrite IH by (intros k' v' Hin; apply (H k' v'); right; exact Hin).
  reflexivity.
Qed.

Lemma common_keys_none (p : string) (l : list (string * json)) : common_keys p l [] = [].
Proof.
  induction l as [ | [k v] l IH ]; [ reflexivity | ].
  cbn [common_keys]. rewrite IH. reflexivity.
Qed.

Lemma obj_delete_absent (k : string) (l : list (string * json)) :
  ~ In k (keys l) -> obj_delete k l = l.
Proof.
  induction l as [ | [k1 v1] l IHl ]; cbn [obj_delete keys map fst]; intros Hn;
    [ reflexivity | ].
  destruct (String.eqb_spec k k1) as [-> | ]; [ exfalso; apply Hn; left; reflexivity | ].
  rewrite IHl; [ reflexivity | ]. intros Hin. apply Hn. right. exact Hin.
Qed.

Lemma delete_perm (k : string) (v : json) (e : list (string * json)) :
  NoDup (keys e) -> assoc k e = Some v -> Permutation e ((k, v) :: obj_delete k e).
Proof.
  induction e as [ | [k0 v0] e IH ]; cbn [assoc obj_delete keys map fst]; [ discriminate | ].
  intros Hnd Hk. inversion Hnd as [ | ? ? Hnot Hnd' ]; subst.
  destruct (String.eqb_spec k k0) as [-> | Hne].
  - injection Hk as ->. apply perm_skip.
    rewrite obj_delete_absent by exact Hnot. apply Permutation_refl.
  - eapply Permutation_trans; [ apply perm_skip; apply (IH Hnd' Hk) | apply perm_swap ].
Qed.

Lemma in_obj_delete (k : string) (x : string * json) (e : list (string * json)) :
  In x (obj_delete k e) -> In x e.
Proof.
  induction e as [ | [k0 v0] e IH ]; cbn [obj_delete]; [ auto | ].
  destruct (String.eqb k k0); [ right; auto | ].
  intros [H | H]; [ left; exact H | right; auto ].
Qed.

(** The third loop, read in the other direction. *)
Lemma common_keys_swap (p : string) (e1 : list (string * json)) :
  forall e2,
    NoDup (keys e1) -> NoDup (keys e2) ->
    Forall (fun kv => wf (snd kv)) e1 -> Forall (fun kv => wf (snd kv)) e2 ->
    Forall (fun kv => forall B q, wf (snd kv) -> wf B ->
                Permutation (deepCompare B (snd kv) q)
                            (map swap (deepCompare (snd kv) B q))) e1 ->
    Permutation (common_keys p e2 e1) (map swap (common_keys p e1 e2)).
Proof.
  induction e1 as [ | [k v1] l IH ]; intros e2 Hnd1 Hnd2 Hw1 Hw2 Hrec.
  - rewrite common_keys_none. apply Permutation_refl.
  - cbn [keys map fst] in Hnd1. inversion Hnd1 as [ | ? ? Hnot Hnd1' ]; subst.
    inversion Hrec as [ | ? ? Hv Hrec' ]; subst. cbn [snd] in Hv.
    inversion Hw1 as [ | ? ? Hwv Hw1' ]; subst. cbn [snd] in Hwv.
    cbn [common_keys]. unfold common_key at 1.
    destruct (assoc k e2) as [v2 | ] eqn:Hk.
    + pose proof (delete_perm k v2 e2 Hnd2 Hk) as Hperm.
      assert (Hwv2 : wf v2).
      { rewrite Forall_forall in Hw2. apply (Hw2 (k, v2)). apply assoc_in. exact Hk. }
      eapply Permutation_trans; [ apply (common_keys_perm p _ _ _ Hperm) | ].
      cbn [common_keys]. rewrite map_app. apply Permutation_app.
      * unfold common_key. cbn [assoc]. rewrite String.eqb_refl.
        rewrite (json_eqb_sym v2 v1).
        replace (jstype_eqb (typeof v2) TObject && jstype_eqb (typeof v1) TObject
                 && negb (is_null v2) && negb (is_null v1))
          with (jstype_eqb (typeof v1) TObject && jstype_eqb (typeof v2) TObject
                && negb (is_null v1) && negb (is_null v2))
          by (destruct (jstype_eqb (typeof v1) TObject), (jstype_eqb (typeof v2) TObject),
                (is_null v1), (is_null v2); reflexivity).
        destruct (jstype_eqb (typeof v1) TObject && jstype_eqb (typeof v2) TObject
                  && negb (is_null v1) && negb (is_null v2)).
        -- apply Hv; assumption.
        -- destruct (json_eqb v1 v2); apply Permutation_refl.
      * rewrite (common_keys_ext p (obj_delete k e2) ((k, v1) :: l) l).
        2:{ intros k' v' Hin. cbn [assoc].
            destruct (String.eqb_spec k' k) as [-> | ]; [ | reflexivity ].
            apply in_has_key in Hin. unfold has_key in Hin.
            rewrite assoc_obj_delete, String.eqb_refl in Hin. discriminate Hin. }
        rewrite (common_keys_ext p l e2 (obj_delete k e2)).
        2:{ intros k' v' Hin. rewrite assoc_obj_delete.
            destruct (String.eqb_spec k' k) as [-> | ]; [ | reflexivity ].
            exfalso. apply Hnot. apply has_key_in. apply (in_has_key k v' l Hin). }
        apply IH; [ exact Hnd1' | apply obj_delete_nodup; exact Hnd2 | exact Hw1' | | exact Hrec' ].
        rewrite Forall_forall in Hw2 |- *. intros x Hx. apply Hw2.
        apply (in_obj_delete k x e2 Hx).
    + cbn [app].
      rewrite (common_keys_ext p e2 ((k, v1) :: l) l).
      2:{ intros k' v' Hin. cbn [assoc].
          destruct (String.eqb_spec k' k) as [-> | ]; [ | reflexivity ].
          apply in_has_key in Hin. unfold has_key in Hin. rewrite Hk in Hin.
          discriminate Hin. }
      apply IH; assumption.
Qed.

Lemma containers_swap (p : string) (e1 e2 : list (string * json)) :
  NoDup (keys e1) -> NoDup (keys e2) ->
  Forall (fun kv => wf (snd kv)) e1 -> Forall (fun kv => wf (snd kv)) e2 ->
  Forall (fun kv => forall B q, wf (snd kv) -> wf B ->
              Permutation (deepCompare B (snd kv) q)
                          (map swap (deepCompare (snd kv) B q))) e1 ->
  Permutation (removed_keys p e2 e1 ++ added_keys p e2 e1 ++ common_keys p e2 e1)
              (map swap (removed_keys p e1 e2 ++ added_keys p e1 e2 ++ common_keys p e1 e2)).
Proof.
  intros Hnd1 Hnd2 Hw1 Hw2 Hrec. rewrite !map_app.
  rewrite (removed_keys_swap p e1 e2), (added_keys_swap p e1 e2).
  eapply Permutation_trans; [ apply Permutation_app_swap_app | ].
  apply Permutation_app_head. apply Permutation_app_head.
  apply common_keys_swap; assumption.
Qed.

Lemma nat_to_string_inj (n m : nat) : nat_to_string n = nat_to_string m -> n = m.
Proof.
  intros H. pose proof (as_index_nat_to_string n) as Hn.
  rewrite H, as_index_nat_to_string in Hn. congruence.
Qed.

Lemma keys_indexed (xs : list json) (i : nat) :
  keys (indexed i xs) = map nat_to_string (seq i (List.length xs)).
Proof.
  revert i. induction xs as [ | x l IH ]; intros i; [ reflexivity | ].
  cbn [indexed keys map fst List.length seq]. apply f_equal. apply IH.
Qed.

Lemma nodup_indexed (xs : list json) (i : nat) : NoDup (keys (indexed i xs)).
Proof.
  rewrite keys_indexed. generalize (List.length xs) as n. intros n. revert i.
  induction n as [ | n IH ]; intros i; cbn [seq map]; constructor; [ | apply IH ].
  intros Hin. apply in_map_iff in Hin. destruct Hin as [m [Hm Hin]].
  apply nat_to_string_inj in Hm. subst m. apply in_seq in Hin. lia.
Qed.

Lemma nodup_entries (v : json) : wf v -> NoDup (keys (entries v)).
Proof.
  destruct v; cbn [entries]; intros Hwf; try constructor.
  - apply nodup_indexed.
  - apply wf_object in Hwf. apply Hwf.
Qed.

Lemma wf_entries (v : json) : wf v -> Forall (fun kv => wf (snd kv)) (entries v).
Proof.
  destruct v; cbn [entries]; intros Hwf; try constructor.
  - apply indexed_values. apply wf_array. exact Hwf.
  - apply wf_object in Hwf. apply Hwf.
Qed.

Lemma compare_arrays_swap (p : string) (xs : list json) :
  Forall (fun x => forall B q, wf x -> wf B ->
              Permutation (deepCompare B x q) (map swap (deepCompare x B q))) xs ->
  Forall wf xs ->
  forall ys i, Forall wf ys ->
    Permutation (compare_arrays p i ys xs) (map swap (compare_arrays p i xs ys)).
Proof.
  induction 1 as [ | x l Hx _ IH ]; intros Hwx ys i Hwy.
  - cbn [compare_arrays]. rewrite compare_arrays_removed, added_tail_map, map_map.
    destruct ys; apply Permutation_refl.
  - inversion Hwx as [ | ? ? Hw Hwl ]; subst. destruct ys as [ | y r ].
    + change (compare_arrays p i [] (x :: l)) with (added_tail p i (x :: l)).
      rewrite compare_arrays_removed, added_tail_map, map_map. apply Permutation_refl.
    + inversion Hwy as [ | ? ? Hy Hr ]; subst.
      cbn [compare_arrays]. rewrite map_app.
      apply Permutation_app; [ apply Hx; assumption | apply IH; assumption ].
Qed.

Lemma deepCompare_swap (A : json) :
  forall B p, wf A -> wf B ->
              Permutation (deepCompare B A p) (map swap (deepCompare A B p)).
Proof.
  induction A as [ | x | x | x | xs IH | a IH ] using json_induction; intros B p HwA HwB.
  - destruct B; apply Permutation_refl.
  - destruct B as [ | y | | | | ]; try apply Permutation_refl.
    simpl. destruct x, y; apply Permutation_refl.
  - destruct B as [ | | y | | | ]; try apply Permutation_refl.
    simpl. rewrite (Z.eqb_sym y x). destruct (Z.eqb x y); apply Permutation_refl.
  - destruct B as [ | | | y | | ]; try apply Permutation_refl.
    simpl. rewrite (String.eqb_sym y x). destruct (String.eqb x y); apply Permutation_refl.
  - destruct B as [ | y | y | y | ys | b ]; try apply Permutation_refl.
    + rewrite !deepCompare_arrays.
      apply compare_arrays_swap; try (apply wf_array; assumption). exact IH.
    + rewrite !deepCompare_containers by reflexivity.
      apply containers_swap; auto using nodup_entries, wf_entries.
      cbn [entries]. apply (indexed_values _ xs 0 IH).
  - destruct B as [ | y | y | y | ys | b ]; try apply Permutation_refl.
    + rewrite !deepCompare_containers by reflexivity.
      apply containers_swap; auto using nodup_entries, wf_entries.
    + rewrite !deepCompare_containers by reflexivity.
      apply containers_swap; auto using nodup_entries, wf_entries.
Qed.

(** X6.  Comparing two trees in the other direction gives the same
    records with the two sides exchanged: every Added record becomes the
    Removed record of the same path and value and conversely, and every
    Edited record has its two values swapped.  The records may come in
    another order. *)
Theorem diff_in_the_other_direction (A B : json) (p : string) :
  wf A -> wf B ->
  Permutation (deepCompare B A p) (map swap (deepCompare A B p)).
Proof. intros HwA HwB. apply deepCompare_swap; assumption. Qed.

Lemma diff_in_the_other_direction_witness :
  Permutation
    (deepCompare (JObj [("b", JNum 2); ("c", JNum 3)]) (JObj [("a", JNum 1); ("b", JNum 1)])
                 EmptyString)
    (map swap (deepCompare (JObj [("a", JNum 1); ("b", JNum 1)])
                           (JObj [("b", JNum 2); ("c", JNum 3)]) EmptyString)).
Proof.
  apply diff_in_the_other_direction.
  - simpl. repeat split; repeat constructor; simpl; intuition discriminate.
  - simpl. repeat split; repeat constructor; simpl; intuition discriminate.
Defined.

(** ** The summary of a diff *)

Lemma count_kinds_counts (ds : list change) :
  forall s,
    count_kinds ds s
    = mkSummary (s_total s) (s_added s + count_kind N ds)
                (s_removed s + count_kind D ds) (s_edited s + count_kind E ds).
Proof.
  unfold count_kind.
  induction ds as [ | c ds IH ]; intros s.
  - cbn [count_kinds filter List.length]. rewrite !Nat.add_0_r. destruct s; reflexivity.
  - cbn [count_kinds filter]. rewrite IH.
    change (of_kind N c) with (match ckind c with N => true | _ => false end).
    change (of_kind D c) with (match ckind c with D => true | _ => false end).
    change (of_kind E c) with (match ckind c with E => true | _ => false end).
    destruct (ckind c); cbn [s_total s_added s_removed s_edited List.length];
      apply f_equal3; lia.
Qed.

Lemma kinds_partition (ds : list change) :
  List.length ds = count_kind N ds + count_kind D ds + count_kind E ds.
Proof.
  unfold count_kind. induction ds as [ | c ds IH ]; [ reflexivity | ].
  cbn [filter List.length].
  change (of_kind N c) with (match ckind c with N => true | _ => false end).
  change (of_kind D c) with (match ckind c with D => true | _ => false end).
  change (of_kind E c) with (match ckind c with E => true | _ => false end).
  destruct (ckind c); cbn [List.length]; lia.
Qed.

(** X7.  The summary counts each record once: [added], [removed] and
    [edited] are the numbers of Added, Removed and Edited records, and
    [total], the length of the list, is their sum. *)
Theorem summary_counts_every_record (differences : list change) :
  s_added (getDiffSummary differences) = count_kind N differences
  /\ s_removed (getDiffSummary differences) = count_kind D differences
  /\ s_edited (getDiffSummary differences) = count_kind E differences
  /\ s_total (getDiffSummary differences)
     = s_added (getDiffSummary differences) + s_removed (getDiffSummary differences)
       + s_edited (getDiffSummary differences).
Proof.
  unfold getDiffSummary. rewrite count_kinds_counts.
  cbn [s_total s_added s_removed s_edited]. rewrite (kinds_partition differences).
  repeat split; lia.
Qed.

Lemma count_kind_perm (k : kind) (l l' : list change) :
  Permutation l l' -> count_kind k l = count_kind k l'.
Proof.
  intros H. unfold count_kind. apply Permutation_length.
  induction H as [ | x l l' _ IH | x y l | l l' l'' _ IH1 _ IH2 ].
  - apply Permutation_refl.
  - cbn [filter]. destruct (of_kind k x); [ apply perm_skip | ]; exact IH.
  - cbn [filter]. destruct (of_kind k x), (of_kind k y);
      try apply Permutation_refl. apply perm_swap.
  - eapply Permutation_trans; eassumption.
Qed.

Lemma count_kind_swap (k : kind) (l : list change) :
  count_kind k (map swap l)
  = count_kind match k with N => D | D => N | E => E end l.
Proof.
  unfold count_kind. induction l as [ | c l IH ]; [ reflexivity | ].
  cbn [map filter].
  replace (of_kind k (swap c)) with (of_kind match k with N => D | D => N | E => E end c)
    by (unfold of_kind, swap; destruct k, (ckind c); reflexivity).
  destruct (of_kind match k with N => D | D => N | E => E end c); cbn [List.length];
    rewrite IH; reflexivity.
Qed.

(** X8.  Comparing in the other direction exchanges the two counts of the
    summary: as many records are Added one way as are Removed the other
    way, and the numbers of Edited records and the totals agree. *)
Theorem summary_in_the_other_direction (A B : json) (p : string) :
  wf A -> wf B ->
  s_added (getDiffSummary (deepCompare B A p)) = s_removed (getDiffSummary (deepCompare A B p))
  /\ s_removed (getDiffSummary (deepCompare B A p))
     = s_added (getDiffSummary (deepCompare A B p))
  /\ s_edited (getDiffSummary (deepCompare B A p))
     = s_edited (getDiffSummary (deepCompare A B p))
  /\ s_total (getDiffSummary (deepCompare B A p))
     = s_total (getDiffSummary (deepCompare A B p)).
Proof.
  intros HwA HwB. pose proof (deepCompare_swap A B p HwA HwB) as Hperm.
  unfold getDiffSummary. rewrite !count_kinds_counts.
  cbn [s_total s_added s_removed s_edited].
  rewrite !(count_kind_perm _ _ _ Hperm), !count_kind_swap.
  rewrite (Permutation_length Hperm), length_map.
  repeat split; reflexivity.
Qed.

Lemma summary_in_the_other_direction_witness :
  s_added (getDiffSummary (deepCompare (JObj [("b", JNum 2); ("c", JNum 3)])
                                       (JObj [("b", JNum 1)]) EmptyString))
  = s_removed (getDiffSummary (deepCompare (JObj [("b", JNum 1)])
                                           (JObj [("b", JNum 2); ("c", JNum 3)])
                                           EmptyString)).
Proof.
  apply (summary_in_the_other_direction (JObj [("b", JNum 1)])
                                        (JObj [("b", JNum 2); ("c", JNum 3)]) EmptyString).
  - simpl. repeat split; repeat constructor; simpl; intuition discriminate.
  - simpl. repeat split; repeat constructor; simpl; intuition discriminate.
Defined.

(** ** The [--ignore] filter *)

Lemma prefix_app (p s : string) : String.prefix p (p ++ s) = true.
Proof.
  induction p as [ | c p IH ]; [ destruct s; reflexivity | ].
  cbn [append String.prefix]. destruct (ascii_dec c c); [ exact IH | contradiction ].
Qed.

Lemma prefix_app_inv (k k' s : string) :
  String.prefix k (k' ++ s) = true ->
  String.prefix k k' = true \/ String.prefix k' k = true.
Proof.
  revert k'. induction k as [ | c k IH ]; intros k' H.
  - left. destruct k'; reflexivity.
  - destruct k' as [ | c' k' ]; [ right; reflexivity | ].
    cbn [append String.prefix] in H |- *.
    destruct (ascii_dec c c') as [-> | ]; [ | discriminate H ].
    destruct (ascii_dec c' c'); [ | contradiction ]. apply IH. exact H.
Qed.

Lemma ignored_below (ignorePaths : list string) (q : string) (c : change) :
  In q ignorePaths -> extends q (cpath c) -> ignored ignorePaths c = true.
Proof.
  intros Hin [s Hs]. unfold ignored. apply existsb_exists.
  exists q. split; [ exact Hin | ]. unfold startsWith. rewrite Hs. apply prefix_app.
Qed.

Lemma filterIgnored_below (ignorePaths : list string) (q : string) (cs : list change) :
  In q ignorePaths -> below_path q cs -> filterIgnored ignorePaths cs = [].
Proof.
  intros Hin H. unfold filterIgnored.
  induction H as [ | c cs Hc _ IH ]; [ reflexivity | ].
  cbn [filter]. rewrite (ignored_below ignorePaths q c Hin Hc). exact IH.
Qed.

Lemma filterIgnored_apart (k k' : string) (cs : list change) :
  String.prefix k k' = false -> String.prefix k' k = false ->
  below_path k' cs -> filterIgnored [k] cs = cs.
Proof.
  intros H1 H2 H. unfold filterIgnored.
  induction H as [ | c cs Hc _ IH ]; [ reflexivity | ].
  cbn [filter]. rewrite IH.
  replace (ignored [k] c) with false; [ reflexivity | ].
  symmetry. unfold ignored, startsWith. cbn [existsb]. rewrite Bool.orb_false_r.
  destruct Hc as [s Hs]. rewrite Hs.
  destruct (String.prefix k (k' ++ s)) eqn:Hp; [ | reflexivity ].
  apply prefix_app_inv in Hp. destruct Hp; congruence.
Qed.

Lemma filterIgnored_app (ignorePaths : list string) (l l' : list change) :
  filterIgnored ignorePaths (l ++ l')
  = filterIgnored ignorePaths l ++ filterIgnored ignorePaths l'.
Proof. apply filter_app. Qed.

Lemma has_key_obj_delete (k k' : string) (e : list (string * json)) :
  k' <> k -> has_key k' (obj_delete k e) = has_key k' e.
Proof.
  intros Hne. unfold has_key. rewrite assoc_obj_delete.
  destruct (String.eqb_spec k' k); [ contradiction | reflexivity ].
Qed.

Lemma common_key_below (k : string) (v1 : json) (e2 : list (string * json)) :
  below_path k (common_key (deepCompare v1) EmptyString k v1 e2).
Proof.
  unfold common_key. destruct (assoc k e2) as [v2 | ]; [ | constructor ].
  change (key_path EmptyString k) with k.
  destruct (_ && _); [ apply deepCompare_below | ].
  destruct (negb _); constructor; [ apply extends_refl | constructor ].
Qed.

Section IgnoredKey.
Variable k : string.
Variables a b : list (string * json).
Hypothesis apart :
  forall k', In k' (keys a ++ keys b) -> k' <> k ->
             String.prefix k k' = false /\ String.prefix k' k = false.

Lemma removed_keys_ignored (l : list (string * json)) :
  incl (keys l) (keys a) ->
  filterIgnored [k] (removed_keys EmptyString l b)
  = removed_keys EmptyString (obj_delete k l) (obj_delete k b).
Proof.
  induction l as [ | [k0 v0] l IH ]; intros Hincl; [ reflexivity | ].
  assert (Hl : incl (keys l) (keys a)) by (intros x Hx; apply Hincl; right; exact Hx).
  cbn [removed_keys obj_delete]. destruct (String.eqb_spec k k0) as [<- | Hne].
  - destruct (has_key k b); [ apply IH; exact Hl | ].
    change (removed (key_path EmptyString k) v0 :: removed_keys EmptyString l b)
      with ([removed k v0] ++ removed_keys EmptyString l b).
    rewrite filterIgnored_app, (filterIgnored_below [k] k [removed k v0]).
    + apply IH. exact Hl.
    + left. reflexivity.
    + constructor; [ apply extends_refl | constructor ].
  - cbn [removed_keys]. rewrite has_key_obj_delete by congruence.
    destruct (has_key k0 b); [ apply IH; exact Hl | ].
    change (removed (key_path EmptyString k0) v0 :: removed_keys EmptyString l b)
      with ([removed k0 v0] ++ removed_keys EmptyString l b).
    assert (Hk0 : String.prefix k k0 = false /\ String.prefix k0 k = false).
    { apply apart; [ | congruence ]. apply in_or_app. left. apply Hincl. left. reflexivity. }
    rewrite filterIgnored_app, (filterIgnored_apart k k0 [removed k0 v0]); try apply Hk0.
    + rewrite IH by exact Hl. reflexivity.
    + constructor; [ apply extends_refl | constructor ].
Qed.

Lemma added_keys_ignored (l : list (string * json)) :
  incl (keys l) (keys b) ->
  filterIgnored [k] (added_keys EmptyString a l)
  = added_keys EmptyString (obj_delete k a) (obj_delete k l).
Proof.
  induction l as [ | [k0 v0] l IH ]; intros Hincl; [ reflexivity | ].
  assert (Hl : incl (keys l) (keys b)) by (intros x Hx; apply Hincl; right; exact Hx).
  cbn [added_keys obj_delete]. destruct (String.eqb_spec k k0) as [<- | Hne].
  - destruct (has_key k a); [ apply IH; exact Hl | ].
    change (added (key_path EmptyString k) v0 :: added_keys EmptyString a l)
      with ([added k v0] ++ added_keys EmptyString a l).
    rewrite filterIgnored_app, (filterIgnored_below [k] k [added k v0]).
    + apply IH. exact Hl.
    + left. reflexivity.
    + constructor; [ apply extends_refl | constructor ].
  - cbn [added_keys]. rewrite has_key_obj_delete by congruence.
    destruct (has_key k0 a); [ apply IH; exact Hl | ].
    change (added (key_path EmptyString k0) v0 :: added_keys EmptyString a l)
      with ([added k0 v0] ++ added_keys EmptyString a l).
    assert (Hk0 : String.prefix k k0 = false /\ String.prefix k0 k = false).
    { apply apart; [ | congruence ]. apply in_or_app. right. apply Hincl. left. reflexivity. }
    rewrite filterIgnored_app, (filterIgnored_apart k k0 [added k0 v0]); try apply Hk0.
    + rewrite IH by exact Hl. reflexivity.
    + constructor; [ apply extends_refl | constructor ].
Qed.

Lemma common_keys_ignored (l : list (string * json)) :
  incl (keys l) (keys a) ->
  filterIgnored [k] (common_keys EmptyString l b)
  = common_keys EmptyString (obj_delete k l) (obj_delete k b).
Proof.
  induction l as [ | [k0 v0] l IH ]; intros Hincl; [ reflexivity | ].
  assert (Hl : incl (keys l) (keys a)) by (intros x Hx; apply Hincl; right; exact Hx).
  cbn [common_keys obj_delete]. rewrite filterIgnored_app, (IH Hl).
  destruct (String.eqb_spec k k0) as [<- | Hne].
  - rewrite (filterIgnored_below [k] k); [ reflexivity | left; reflexivity | ].
    apply common_key_below.
  - assert (Hk0 : String.prefix k k0 = false /\ String.prefix k0 k = false).
    { apply apart; [ | congruence ]. apply in_or_app. left. apply Hincl. left. reflexivity. }
    rewrite (filterIgnored_apart k k0); try apply Hk0; [ | apply common_key_below ].
    cbn [common_keys]. apply (f_equal2 (@app _)); [ | reflexivity ].
    unfold common_key. rewrite assoc_obj_delete.
    destruct (String.eqb_spec k0 k); [ congruence | reflexivity ].
Qed.

End IgnoredKey.

(** X9.  Ignoring a top-level key is comparing the two objects without
    it.  For an [--ignore] option that is one key, not empty, without a
    comma and left as it is by [trim], and when no other key of the two
    objects is a prefix of that key or has it as a prefix, the records
    the [diff] command keeps are exactly the diff of the two objects with
    that key deleted.  (A comma would make the option several paths, and
    the filter tests string prefixes, so a key that merely starts with an
    ignored one is dropped too.) *)
Theorem ignoring_a_key_is_deleting_it
        (trim : string -> string) (k : string) (a b : list (string * json)) :
  nonempty k = true -> free_of "," k = true -> trim k = k ->
  (forall k', In k' (keys a ++ keys b) -> k' <> k ->
              String.prefix k k' = false /\ String.prefix k' k = false) ->
  applyIgnore trim (Some k) (deepCompare (JObj a) (JObj b) EmptyString)
  = deepCompare (JObj (obj_delete k a)) (JObj (obj_delete k b)) EmptyString.
Proof.
  intros Hne Hcomma Htrim Hapart.
  unfold applyIgnore, ignorePaths_of. rewrite Hne, (split_free "," k Hcomma).
  cbn [map]. rewrite Htrim.
  rewrite !deepCompare_objects, !filterIgnored_app.
  rewrite (removed_keys_ignored k a b Hapart a (incl_refl _)).
  rewrite (added_keys_ignored k a b Hapart b (incl_refl _)).
  rewrite (common_keys_ignored k a b Hapart a (incl_refl _)).
  reflexivity.
Qed.

Lemma ignoring_a_key_is_deleting_it_witness :
  applyIgnore (fun s => s) (Some "meta")
    (deepCompare (JObj [("id", JNum 1); ("meta", JObj [("t", JNum 1)])])
                 (JObj [("id", JNum 2); ("meta", JObj [("t", JNum 2)])]) EmptyString)
  = deepCompare (JObj (obj_delete "meta" [("id", JNum 1); ("meta", JObj [("t", JNum 1)])]))
                (JObj (obj_delete "meta" [("id", JNum 2); ("meta", JObj [("t", JNum 2)])]))
                EmptyString.
Proof.
  apply ignoring_a_key_is_deleting_it.
  - reflexivity.
  - reflexivity.
  - reflexivity.
  - simpl. intros k' H Hne.
    repeat (destruct H as [<- | H];
            [ try (exfalso; apply Hne; reflexivity); split; reflexivity | ]).
    destruct H.
Defined.

Lemma split_nonempty (c : ascii) (s : string) : split c s <> [].
Proof.
  destruct s as [ | a s ]; cbn [split]; [ discriminate | ].
  destruct (Ascii.eqb a c); [ discriminate | ]. destruct (split c s); discriminate.
Qed.

Lemma split_trailing (c : ascii) (s : string) :
  split c (s ++ String c EmptyString) = split c s ++ [EmptyString].
Proof.
  induction s as [ | a s IH ]; cbn [append split].
  - rewrite Ascii.eqb_refl. reflexivity.
  - rewrite IH. destruct (Ascii.eqb a c); [ reflexivity | ].
    pose proof (split_nonempty c s) as Hne.
    destruct (split c s); [ contradiction | reflexivity ].
Qed.

(** X10.  A trailing comma in the [--ignore] option suppresses every
    difference: the text after the last comma is the empty string, which
    trimming leaves empty and which every path starts with. *)
Theorem ignore_with_trailing_comma_drops_all
        (trim : string -> string) (text : string) (differences : list change) :
  trim EmptyString = EmptyString ->
  applyIgnore trim (Some (text ++ ",")%string) differences = [].
Proof.
  intros Htrim. unfold applyIgnore.
  replace (nonempty (text ++ ",")) with true by (destruct text; reflexivity).
  apply (filterIgnored_below _ EmptyString).
  - unfold ignorePaths_of. rewrite split_trailing, map_app. apply in_or_app. right.
    left. exact Htrim.
  - apply Forall_forall. intros c _. exists (cpath c). reflexivity.
Qed.

Lemma ignore_with_trailing_comma_drops_all_witness :
  applyIgnore (fun s => s) (Some ("a" ++ ",")%string)
              (deepCompare (JObj [("b", JNum 1)]) (JObj [("b", JNum 2)]) EmptyString) = [].
Proof.
  apply ignore_with_trailing_comma_drops_all. reflexivity.
Defined.

(** ** Adding a key and removing it again *)

Lemma obj_delete_insert_index (n : nat) (k : string) (v : json) (r : list (string * json)) :
  ~ In k (keys r) -> obj_delete k (insert_index n k v r) = r.
Proof.
  induction r as [ | [k0 v0] r IH ]; intros Hnot.
  - cbn [insert_index obj_delete]. rewrite String.eqb_refl. reflexivity.
  - assert (Hne : k <> k0) by (intros ->; apply Hnot; left; reflexivity).
    assert (Hr : ~ In k (keys r)) by (intros H; apply Hnot; right; exact H).
    assert (Hwhole : obj_delete k ((k, v) :: (k0, v0) :: r) = (k0, v0) :: r).
    { cbn [obj_delete]. rewrite String.eqb_refl.
      destruct (String.eqb_spec k k0); [ contradiction | ].
      rewrite obj_delete_absent by exact Hr. reflexivity. }
    cbn [insert_index]. destruct (as_index k0) as [m | ]; [ | exact Hwhole ].
    destruct (m <? n)%nat; [ | exact Hwhole ].
    cbn [obj_delete]. destruct (String.eqb_spec k k0); [ contradiction | ].
    rewrite IH by exact Hr. reflexivity.
Qed.

Lemma obj_delete_obj_set (k : string) (v : json) (r : list (string * json)) :
  has_key k r = false -> obj_delete k (obj_set k v r) = r.
Proof.
  intros Hk. assert (Hnot : ~ In k (keys r)).
  { intros Hin. apply has_key_in in Hin. congruence. }
  unfold obj_set. rewrite Hk. destruct (as_index k).
  - apply obj_delete_insert_index. exact Hnot.
  - induction r as [ | [k0 v0] r IH ].
    + cbn [app obj_delete]. rewrite String.eqb_refl. reflexivity.
    + cbn [app obj_delete]. destruct (String.eqb_spec k k0) as [-> | ].
      * exfalso. apply Hnot. left. reflexivity.
      * rewrite IH; [ reflexivity | | ].
        -- unfold has_key in Hk |- *. cbn [assoc] in Hk.
           destruct (String.eqb_spec k k0); [ contradiction | exact Hk ].
        -- intros Hin. apply Hnot. right. exact Hin.
Qed.

Lemma pathParts_key (k : string) :
  nonempty k = true -> free_of "/" k = true -> pathParts (String "/" k) = [k].
Proof.
  intros Hne Hfree. unfold pathParts. cbn [split].
  change (Ascii.eqb "/" "/") with true. cbv iota.
  rewrite split_free by exact Hfree. cbn [filter]. rewrite Hne. reflexivity.
Qed.

(** X12.  Adding a key an object does not have and then removing it gives
    the object back, unchanged and in the same key order. *)
Theorem add_then_remove_restores (k : string) (v : json) (r : list (string * json)) :
  nonempty k = true -> free_of "/" k = true -> String.eqb k "__proto__" = false ->
  has_key k r = false ->
  applyPatch (JObj r) [mkPatch Add (String "/" k) (Some v);
                       mkPatch Remove (String "/" k) None]
  = Done (JObj r).
Proof.
  intros Hne Hfree Hproto Hk.
  cbn [applyPatch]. unfold apply_one. cbn [ppath]. rewrite (pathParts_key k Hne Hfree).
  cbn [removelast lastPart last walk final op value assign part_key].
  rewrite (put_plain k v r Hproto).
  cbn [bind removelast lastPart last walk final op value part_key].
  rewrite (obj_delete_obj_set k v r Hk). reflexivity.
Qed.

Lemma add_then_remove_restores_witness :
  applyPatch (JObj [("a", JNum 1)]) [mkPatch Add (String "/" "b") (Some (JNum 2));
                                     mkPatch Remove (String "/" "b") None]
  = Done (JObj [("a", JNum 1)]).
Proof.
  apply add_then_remove_restores; reflexivity.
Defined.

Lemma array_free_enter (v : json) : array_free v = true -> array_free (enter v) = true.
Proof. intros H. unfold enter. destruct (truthy v); [ exact H | reflexivity ]. Qed.

Lemma final_replace_as_add (path : string) (v : option json) (lp : option string)
      (current : json) :
  array_free current = true ->
  final (mkPatch Replace path v) lp current = final (mkPatch Add path v) lp current.
Proof. destruct current; try reflexivity. discriminate. Qed.

Lemma walk_replace_as_add (path : string) (v : option json) (lp : option string)
      (parts : list string) :
  forall current,
    array_free current = true ->
    walk parts (final (mkPatch Replace path v) lp) current
    = walk parts (final (mkPatch Add path v) lp) current.
Proof.
  induction parts as [ | part rest IH ]; intros current Hfree.
  - apply final_replace_as_add. exact Hfree.
  - destruct current as [ | | | | xs | kvs ]; try reflexivity; [ discriminate Hfree | ].
    rewrite !walk_object. destruct (get kvs part) as [v0 | | ] eqn:Hget.
    + rewrite (IH (enter v0)); [ reflexivity | ].
      apply array_free_enter. apply (array_free_entry kvs part v0 Hfree).
      apply assoc_in. unfold get in Hget.
      destruct (assoc part kvs) as [w | ]; [ congruence | ].
      destruct (proto_member part); discriminate Hget.
    + reflexivity.
    + rewrite (IH (JObj [])) by reflexivity. reflexivity.
Qed.

(** X13.  On a tree without arrays, [replace] is [add]: it does not ask
    that the target exists, and creates it, with its missing parents, as
    [add] does. *)
Theorem replace_is_add_without_arrays (T : json) (path : string) (v : option json) :
  array_free T = true ->
  applyPatch T [mkPatch Replace path v] = applyPatch T [mkPatch Add path v].
Proof.
  intros Hfree. cbn [applyPatch]. unfold apply_one. cbn [ppath].
  rewrite (walk_replace_as_add path v _ _ T Hfree). reflexivity.
Qed.

Lemma replace_is_add_without_arrays_witness :
  applyPatch (JObj [("a", JNum 1)]) [mkPatch Replace "/b/c" (Some (JNum 2))]
  = applyPatch (JObj [("a", JNum 1)]) [mkPatch Add "/b/c" (Some (JNum 2))].
Proof.
  apply replace_is_add_without_arrays. reflexivity.
Defined.

(** ** A removal below a missing key *)

Lemma pathParts_join (ks : list string) :
  ks <> [] ->
  Forall (fun k => nonempty k = true) ks -> Forall (fun k => free_of "/" k = true) ks ->
  pathParts (String "/" (join "/" ks)) = ks.
Proof.
  intros Hne Hks Hfree. unfold pathParts. cbn [split].
  change (Ascii.eqb "/" "/") with true. cbv iota.
  rewrite (split_join "/" ks Hne Hfree). cbn [filter nonempty String.eqb negb].
  apply forallb_filter_id. apply forallb_forall. rewrite Forall_forall in Hks. exact Hks.
Qed.

Lemma walk_remove_fresh (path : string) (parts : list string) :
  forall r0 : list (string * json),
    parts <> [] ->
    Forall (fun k => proto_member k = false) (removelast parts) ->
    has_key (hd EmptyString parts) r0 = false ->
    exists r,
      walk (removelast parts) (final (mkPatch Remove path None) (lastPart parts)) (JObj r0)
      = Done (JObj r)
      /\ (forall k', k' <> hd EmptyString parts -> assoc k' r = assoc k' r0)
      /\ match removelast parts with
         | [] => r = r0
         | _ => at_path (removelast parts) (JObj r) = Some (JObj [])
         end.
Proof.
  induction parts as [ | k parts IH ]; intros r0 Hne Hplain Hk; [ congruence | ].
  cbn [hd] in Hk |- *.
  destruct parts as [ | k' rest ].
  - exists r0. cbn [removelast lastPart last walk final op part_key].
    assert (Hnot : ~ In k (keys r0)) by (intros Hin; apply has_key_in in Hin; congruence).
    rewrite (obj_delete_absent k r0 Hnot). auto.
  - change (removelast (k :: k' :: rest)) with (k :: removelast (k' :: rest)) in Hplain.
    inversion Hplain as [ | ? ? Hpk Hrest ]; subst.
    destruct (IH [] ltac:(discriminate) Hrest eq_refl) as [r' [Hwalk [_ Hat]]].
    exists (obj_set k (JObj r') r0).
    change (removelast (k :: k' :: rest)) with (k :: removelast (k' :: rest)).
    rewrite lastPart_cons, (walk_step_object k _ _ r0 Hpk).
    unfold has_key in Hk. destruct (assoc k r0) eqn:Hk0; [ discriminate Hk | ].
    rewrite Hwalk. cbn [bind]. split; [ reflexivity | ]. split.
    + intros k1 Hk1. rewrite assoc_obj_set.
      destruct (String.eqb_spec k1 k); [ contradiction | reflexivity ].
    + cbn [at_path]. rewrite assoc_obj_set, String.eqb_refl.
      destruct (removelast (k' :: rest)) eqn:Hrl.
      * subst r'. reflexivity.
      * exact Hat.
Qed.

(** X14.  Removing an address whose first key the object does not have is
    not a no-op when the address has more than one segment.  For segments
    that are not empty and hold no slash, of which none but the last
    names a member of [Object.prototype], the removal succeeds, leaves
    the other keys alone, and leaves behind the chain of empty objects
    that the walk to the parent of the target created. *)
Theorem remove_below_missing_key_creates_parents
        (k : string) (rest : list string) (r0 : list (string * json)) :
  rest <> [] ->
  Forall (fun s => nonempty s = true) (k :: rest) ->
  Forall (fun s => free_of "/" s = true) (k :: rest) ->
  Forall (fun s => proto_member s = false) (removelast (k :: rest)) ->
  has_key k r0 = false ->
  exists r,
    applyPatch (JObj r0) [mkPatch Remove (String "/" (join "/" (k :: rest))) None]
    = Done (JObj r)
    /\ at_path (removelast (k :: rest)) (JObj r) = Some (JObj [])
    /\ forall k', k' <> k -> assoc k' r = assoc k' r0.
Proof.
  intros Hrest Hne Hfree Hplain Hk.
  destruct (walk_remove_fresh (String "/" (join "/" (k :: rest))) (k :: rest) r0
              ltac:(discriminate) Hplain Hk) as [r [Hwalk [Hframe Hat]]].
  exists r. cbn [applyPatch]. unfold apply_one. cbn [ppath].
  rewrite (pathParts_join (k :: rest) ltac:(discriminate) Hne Hfree), Hwalk.
  split; [ reflexivity | ]. split; [ | exact Hframe ].
  destruct rest as [ | k' rest' ]; [ congruence | ]. exact Hat.
Qed.

Lemma remove_below_missing_key_creates_parents_witness :
  exists r,
    applyPatch (JObj [("x", JNum 1)])
               [mkPatch Remove (String "/" (join "/" ["a"; "b"; "toString"])) None]
    = Done (JObj r)
    /\ at_path (removelast ["a"; "b"; "toString"]) (JObj r) = Some (JObj [])
    /\ forall k', k' <> "a" -> assoc k' r = assoc k' [("x", JNum 1)].
Proof.
  apply remove_below_missing_key_creates_parents.
  - discriminate.
  - repeat constructor.
  - repeat constructor.
  - repeat constructor.
  - reflexivity.
Defined.

(** ** Numeric segments on an array *)

Lemma read_digits_all (s : string) :
  forall n, all_digits s = true ->
            read_digits dec_val 10 (Some (Z.of_nat n)) s = Some (Z.of_nat (digits_val n s)).
Proof.
  induction s as [ | c s IH ]; intros n Hs; [ reflexivity | ].
  cbn [all_digits] in Hs. apply andb_prop in Hs. destruct Hs as [Hc Hs].
  cbn [read_digits digits_val]. unfold dec_val. rewrite Hc.
  replace (10 * Z.of_nat n + Z.of_nat (digit_val c))%Z
    with (Z.of_nat (10 * n + digit_val c)) by lia.
  apply IH. exact Hs.
Qed.

Lemma parseInt_digits (s : string) :
  s <> EmptyString -> all_digits s = true -> parseInt s = Some (Z.of_nat (digits_val 0 s)).
Proof.
  intros Hne Hs. destruct s as [ | c s ]; [ congruence | ].
  assert (Hread : read_digits dec_val 10 None (String c s)
                  = Some (Z.of_nat (digits_val 0 (String c s)))).
  { cbn [all_digits] in Hs. apply andb_prop in Hs. destruct Hs as [Hc Hs'].
    cbn [read_digits digits_val]. unfold dec_val. rewrite Hc.
    replace (10 * 0 + Z.of_nat (digit_val c))%Z with (Z.of_nat (10 * 0 + digit_val c)) by lia.
    apply read_digits_all. exact Hs'. }
  assert (Hparse : parseInt (String c s)
                   = match read_digits dec_val 10 None (String c s) with
                     | Some m => Some m
                     | None => None
                     end).
  { cbn [all_digits] in Hs. apply andb_prop in Hs. destruct Hs as [Hc Hs'].
    destruct c as [[] [] [] [] [] [] [] []]; try discriminate Hc; try reflexivity;
      destruct s as [ | c' s' ]; try reflexivity;
      cbn [all_digits] in Hs'; apply andb_prop in Hs'; destruct Hs' as [Hc' _];
      destruct c' as [[] [] [] [] [] [] [] []]; try discriminate Hc'; reflexivity. }
  rewrite Hparse, Hread. reflexivity.
Qed.

Lemma nat_to_string_nonempty (n : nat) : nat_to_string n <> EmptyString.
Proof.
  unfold nat_to_string. pose proof (to_uint_not_nil n) as Hn.
  destruct (Nat.to_uint n); try discriminate. congruence.
Qed.

(** [parseInt] reads back the decimal numeral of a number. *)
Lemma parseInt_nat_to_string (n : nat) : parseInt (nat_to_string n) = Some (Z.of_nat n).
Proof.
  rewrite parseInt_digits.
  - unfold nat_to_string. rewrite digits_val_of_uint.
    change (Nat.of_uint_acc (Nat.to_uint n) 0) with (Nat.of_uint (Nat.to_uint n)).
    rewrite DecimalNat.Unsigned.of_to. reflexivity.
  - apply nat_to_string_nonempty.
  - apply all_digits_of_uint.
Qed.

Lemma pathParts_number (n : nat) :
  pathParts (String "/" (nat_to_string n)) = [nat_to_string n].
Proof.
  apply pathParts_key.
  - pose proof (nat_to_string_nonempty n) as H. destruct (nat_to_string n); [ congruence | ].
    reflexivity.
  - apply all_digits_free; [ reflexivity | apply all_digits_of_uint ].
Qed.

Lemma splice_start_nat (len n : nat) :
  splice_start len (Some (Z.of_nat n)) = Nat.min n len.
Proof.
  unfold splice_start. destruct (Z.ltb_spec (Z.of_nat n) 0) as [H | _]; [ lia | ].
  rewrite Nat2Z.id. reflexivity.
Qed.

Lemma splice_insert_within (i : nat) (v : json) (xs : list json) :
  splice_insert (Some (Z.of_nat i)) v xs
  = if (i <=? List.length xs)%nat then firstn i xs ++ v :: skipn i xs else xs ++ [v].
Proof.
  unfold splice_insert. rewrite splice_start_nat.
  destruct (Nat.leb_spec i (List.length xs)) as [Hle | Hgt].
  - rewrite Nat.min_l by exact Hle. reflexivity.
  - rewrite Nat.min_r by lia. rewrite firstn_all, skipn_all. reflexivity.
Qed.

Lemma remove_inserted (i : nat) :
  forall (xs : list json) (v : json),
    (i <= List.length xs)%nat ->
    firstn i (firstn i xs ++ v :: skipn i xs)
    ++ skipn (S i) (firstn i xs ++ v :: skipn i xs) = xs.
Proof.
  induction i as [ | i IH ]; intros [ | x xs ] v H; cbn [List.length] in H;
    try lia; try reflexivity.
  cbn [firstn skipn app]. apply f_equal. apply IH. lia.
Qed.

Lemma splice_remove_after_insert (i : nat) (v : json) (xs : list json) :
  splice_remove (Some (Z.of_nat i)) (splice_insert (Some (Z.of_nat i)) v xs)
  = if (i <=? List.length xs)%nat then xs else xs ++ [v].
Proof.
  rewrite splice_insert_within. unfold splice_remove. rewrite splice_start_nat.
  destruct (Nat.leb_spec i (List.length xs)) as [Hle | Hgt].
  - assert (Hlen : List.length (firstn i xs ++ v :: skipn i xs) = S (List.length xs)).
    { rewrite <- (firstn_skipn i xs) at 3. rewrite !length_app. cbn [List.length]. lia. }
    rewrite Hlen, Nat.min_l by lia. apply remove_inserted. exact Hle.
  - rewrite length_app. cbn [List.length]. rewrite Nat.min_r by lia.
    rewrite <- (length_app xs [v]) at 1. rewrite firstn_all.
    rewrite skipn_all2 by (rewrite length_app; cbn [List.length]; lia).
    apply app_nil_r.
Qed.

(** X15.  On a root array, adding an element at a decimal index and then
    removing at the same index gives the array back exactly when the index
    is at most the length: [splice] clamps a larger index to the end, so
    the element is appended, and the removal at the same index, now past
    the last element, removes nothing. *)
Theorem add_then_remove_at_index (xs : list json) (i : nat) (v : json) :
  applyPatch (JArr xs) [mkPatch Add (String "/" (nat_to_string i)) (Some v);
                        mkPatch Remove (String "/" (nat_to_string i)) None]
  = Done (JArr (if (i <=? List.length xs)%nat then xs else xs ++ [v])).
Proof.
  cbn [applyPatch]. unfold apply_one. cbn [ppath]. rewrite pathParts_number.
  cbn [removelast lastPart last walk final op value parseInt_part bind].
  rewrite parseInt_nat_to_string, splice_remove_after_insert. reflexivity.
Qed.

(** X16.  On a root array, an add at a decimal index puts the element at
    that index and shifts the rest, or appends it when the index is past
    the end; the elements before the index are untouched. *)
Theorem add_at_index_inserts (xs : list json) (i : nat) (v : json) :
  applyPatch (JArr xs) [mkPatch Add (String "/" (nat_to_string i)) (Some v)]
  = Done (JArr (if (i <=? List.length xs)%nat
                then firstn i xs ++ v :: skipn i xs
                else xs ++ [v])).
Proof.
  cbn [applyPatch]. unfold apply_one. cbn [ppath]. rewrite pathParts_number.
  cbn [removelast lastPart last walk final op value parseInt_part bind].
  rewrite parseInt_nat_to_string, splice_insert_within. reflexivity.
Qed.

(** ** [mergeArrays] *)

Lemma strict_eq_eq (a b : json) : strict_eq a b = true -> a = b.
Proof.
  destruct a, b; simpl; try discriminate; intros H.
  - reflexivity.
  - apply Bool.eqb_prop in H. congruence.
  - apply Z.eqb_eq in H. congruence.
  - apply String.eqb_eq in H. congruence.
Qed.

Lemma strict_eq_scalar (a : json) : scalar a = true -> strict_eq a a = true.
Proof.
  destruct a; simpl; try discriminate; intros _;
    auto using Bool.eqb_reflx, Z.eqb_refl, String.eqb_refl.
Qed.

Lemma mergeArrays_loop_in (result rest : list json) (item : json) :
  In item result ->
  mergeArrays_loop result (item :: rest) = mergeArrays_loop result rest.
Proof.
  intros Hin. cbn [mergeArrays_loop].
  destruct (jstype_eqb (typeof item) TObject && negb (is_null item)) eqn:Hobj.
  - replace (existsb (fun i => json_eqb i item) result) with true; [ reflexivity | ].
    symmetry. apply existsb_exists. exists item. split; [ exact Hin | apply json_eqb_refl ].
  - replace (existsb (fun i => strict_eq i item) result) with true; [ reflexivity | ].
    symmetry. apply existsb_exists. exists item. split; [ exact Hin | ].
    apply strict_eq_scalar. destruct item; try reflexivity; discriminate Hobj.
Qed.

Lemma mergeArrays_loop_new (result rest : list json) (item : json) :
  ~ In item result ->
  mergeArrays_loop result (item :: rest) = mergeArrays_loop (result ++ [item]) rest.
Proof.
  intros Hnot. cbn [mergeArrays_loop].
  destruct (jstype_eqb (typeof item) TObject && negb (is_null item)).
  - replace (existsb (fun i => json_eqb i item) result) with false; [ reflexivity | ].
    symmetry. apply Bool.not_true_is_false. intros H. apply existsb_exists in H.
    destruct H as [x [Hx Heq]]. apply json_eqb_eq in Heq. subst x. contradiction.
  - replace (existsb (fun i => strict_eq i item) result) with false; [ reflexivity | ].
    symmetry. apply Bool.not_true_is_false. intros H. apply existsb_exists in H.
    destruct H as [x [Hx Heq]]. apply strict_eq_eq in Heq. subst x. contradiction.
Qed.

Lemma json_in_dec (item : json) (l : list json) : In item l \/ ~ In item l.
Proof.
  destruct (existsb (fun i => json_eqb i item) l) eqn:H.
  - left. apply existsb_exists in H. destruct H as [x [Hx Heq]].
    apply json_eqb_eq in Heq. subst x. exact Hx.
  - right. intros Hin. apply Bool.not_true_iff_false in H. apply H.
    apply existsb_exists. exists item. split; [ exact Hin | apply json_eqb_refl ].
Qed.

Lemma mergeArrays_loop_shape (arr2 : list json) :
  forall result,
  exists extra,
    mergeArrays_loop result arr2 = result ++ extra
    /\ NoDup extra
    /\ (forall x, In x extra -> In x arr2 /\ ~ In x result)
    /\ (forall x, In x arr2 -> In x (result ++ extra)).
Proof.
  induction arr2 as [ | item rest IH ]; intros result.
  - exists []. rewrite app_nil_r. split; [ reflexivity | ]. split; [ constructor | ].
    split; intros x [].
  - destruct (json_in_dec item result) as [Hin | Hnot].
    + rewrite (mergeArrays_loop_in result rest item Hin).
      destruct (IH result) as [extra [Heq [Hnd [Hnew Hall]]]].
      exists extra. split; [ exact Heq | ]. split; [ exact Hnd | ]. split.
      * intros x Hx. destruct (Hnew x Hx) as [H1 H2]. split; [ right; exact H1 | exact H2 ].
      * intros x [<- | Hx]; [ apply in_or_app; left; exact Hin | apply Hall; exact Hx ].
    + rewrite (mergeArrays_loop_new result rest item Hnot).
      destruct (IH (result ++ [item])) as [extra [Heq [Hnd [Hnew Hall]]]].
      exists (item :: extra). rewrite Heq, <- app_assoc. split; [ reflexivity | ].
      split; [ | split ].
      * constructor; [ | exact Hnd ]. intros Hx. destruct (Hnew item Hx) as [_ H2].
        apply H2. apply in_or_app. right. left. reflexivity.
      * intros x [<- | Hx]; [ split; [ left; reflexivity | exact Hnot ] | ].
        destruct (Hnew x Hx) as [H1 H2]. split; [ right; exact H1 | ].
        intros Hin. apply H2. apply in_or_app. left. exact Hin.
      * intros x Hx. rewrite <- app_assoc in Hall. cbn [app] in Hall.
        destruct Hx as [<- | Hx]; [ | apply Hall; exact Hx ].
        apply in_or_app. right. left. reflexivity.
Qed.

(** X17.  [mergeArrays] keeps the first array as it is and appends to it
    the items of the second one that are new: the result starts with the
    first array, what follows are items of the second array that the
    first does not hold, each of them once, and no item of the second
    array is missing from the result. *)
Theorem mergeArrays_appends_the_new_items (arr1 arr2 : list json) :
  exists extra,
    mergeArrays arr1 arr2 = arr1 ++ extra
    /\ NoDup extra
    /\ (forall x, In x extra -> In x arr2 /\ ~ In x arr1)
    /\ (forall x, In x arr2 -> In x (mergeArrays arr1 arr2)).
Proof.
  destruct (mergeArrays_loop_shape arr2 arr1) as [extra [Heq [Hnd [Hnew Hall]]]].
  exists extra. unfold mergeArrays. rewrite Heq. auto.
Qed.

(** X18.  [mergeArrays] brings in no duplicate and merging the same array
    again changes nothing: the result of a merge into an array without
    repeated items has no repeated item, and merging the second array
    into the result once more gives the result back. *)
Theorem mergeArrays_is_idempotent (arr1 arr2 : list json) :
  mergeArrays (mergeArrays arr1 arr2) arr2 = mergeArrays arr1 arr2
  /\ (NoDup arr1 -> NoDup (mergeArrays arr1 arr2)).
Proof.
  destruct (mergeArrays_loop_shape arr2 arr1) as [extra [Heq [Hnd [Hnew Hall]]]].
  unfold mergeArrays. rewrite Heq. split.
  - apply mergeArrays_loop_present. exact Hall.
  - intros Hnd1. apply NoDup_app; try assumption.
    intros x Hx1 Hx. destruct (Hnew x Hx) as [_ H]. contradiction.
Qed.

Lemma mergeArrays_is_idempotent_witness :
  mergeArrays (mergeArrays [JNum 1; JNum 2] [JNum 2; JNum 3]) [JNum 2; JNum 3]
  = mergeArrays [JNum 1; JNum 2] [JNum 2; JNum 3]
  /\ NoDup (mergeArrays [JNum 1; JNum 2] [JNum 2; JNum 3]).
Proof.
  destruct (mergeArrays_is_idempotent [JNum 1; JNum 2] [JNum 2; JNum 3]) as [Hsame Hnd].
  split; [ exact Hsame | ]. apply Hnd.
  repeat constructor; simpl; intuition discriminate.
Defined.

(** ** What [mergeJson] keeps and what it takes *)

Lemma write_object (t : list (string * json)) (key : string) (v r : json) :
  write (JObj t) key v = Done r ->
  exists t', r = JObj t'
             /\ (forall k, k <> key -> assoc k t' = assoc k t)
             /\ (forall k, has_key k t = true -> has_key k t' = true)
             /\ (String.eqb key "__proto__" = false -> assoc key t' = Some v).
Proof.
  cbn [write]. unfold put.
  destruct (String.eqb key "__proto__" && negb (has_key key t)) eqn:Hp.
  - apply andb_prop in Hp. destruct Hp as [Hp _].
    destruct v; cbn [bind]; try discriminate; intros H; injection H as <-;
      exists t; repeat split; auto; congruence.
  - cbn [bind]. intros H. injection H as <-. exists (obj_set key v t).
    split; [ reflexivity | ]. split; [ | split ].
    + intros k Hk. rewrite assoc_obj_set.
      destruct (String.eqb_spec k key); [ contradiction | reflexivity ].
    + intros k Hk. unfold has_key in *. rewrite assoc_obj_set.
      destruct (String.eqb k key); [ reflexivity | exact Hk ].
    + intros _. rewrite assoc_obj_set, String.eqb_refl. reflexivity.
Qed.

(** One turn of the loop of [merge] on a plain object leaves it as it is
    or ends in one assignment to the key. *)
Lemma merge_key_object (o : options) (rec : json -> outcome json) (key : string)
      (sv : json) (t : list (string * json)) (r : json) :
  merge_key o rec key sv (JObj t) = Done r ->
  r = JObj t \/ exists w, write (JObj t) key w = Done r.
Proof.
  unfold merge_key. cbn [read bind]. intros H.
  destruct (get t key) as [tv | | ].
  - destruct (negb (mtype_eqb (mtype_of sv) (mtype_of tv))).
    + destruct (is_preserve o); [ left; congruence | right; eauto ].
    + destruct sv, tv;
        try (destruct (opt_arrayMerge o); [ right; eauto .. | left; congruence ]);
        (destruct (mtype_eqb _ _ && negb _);
         [ match type of H with
           | context [rec ?x] => destruct (rec x); cbn [bind] in H; try discriminate H
           end; right; eauto
         | destruct (is_preserve o); [ left; congruence | right; eauto ] ]).
  - destruct sv as [ | | | | | kvs ];
      try (destruct (is_preserve o); [ left; congruence | right; eauto ]).
    destruct (String.eqb key "__proto__").
    + destruct kvs; [ left; congruence | discriminate H ].
    + destruct (is_preserve o); [ left; congruence | right; eauto ].
  - right. eauto.
Qed.

Lemma merge_key_frame (o : options) (rec : json -> outcome json) (key k : string)
      (sv : json) (t : list (string * json)) (r : json) :
  key <> k ->
  merge_key o rec key sv (JObj t) = Done r ->
  exists t', r = JObj t' /\ assoc k t' = assoc k t.
Proof.
  intros Hne H. apply merge_key_object in H. destruct H as [-> | [w Hw]].
  - exists t. auto.
  - apply write_object in Hw. destruct Hw as [t' [-> [Hframe _]]].
    exists t'. split; [ reflexivity | ]. apply Hframe. congruence.
Qed.

Lemma merge_key_keeps_keys (o : options) (rec : json -> outcome json) (key : string)
      (sv : json) (t : list (string * json)) (r : json) :
  merge_key o rec key sv (JObj t) = Done r ->
  exists t', r = JObj t' /\ forall k, has_key k t = true -> has_key k t' = true.
Proof.
  intros H. apply merge_key_object in H. destruct H as [-> | [w Hw]].
  - exists t. auto.
  - apply write_object in Hw. destruct Hw as [t' [-> [_ [Hkeys _]]]].
    exists t'. auto.
Qed.

(** An invariant of the target that one turn of the loop keeps is kept by
    the whole merge, whatever the source is. *)
Section MergeInvariant.
Variable o : options.
Variable P : json -> Prop.
Hypothesis step :
  forall rec key sv x r,
    (forall y, rec JNull = Done y -> y = JNull) ->
    P x -> merge_key o rec key sv x = Done r -> P r.

Lemma merge_null (sv y : json) : merge o sv JNull = Done y -> y = JNull.
Proof.
  destruct sv as [ | b | n | s | xs | kvs ].
  - discriminate.
  - simpl. intros H. injection H as <-. reflexivity.
  - simpl. intros H. injection H as <-. reflexivity.
  - rewrite merge_string. destruct (chars s); cbn [merge_chars]; [ congruence | discriminate ].
  - rewrite merge_array. destruct xs; cbn [merge_items]; [ congruence | discriminate ].
  - rewrite merge_object. destruct kvs as [ | [k v] l ]; cbn [merge_entries];
      [ congruence | discriminate ].
Qed.

Lemma merge_entries_invariant (l : list (string * json)) :
  forall x r, P x -> merge_entries o l x = Done r -> P r.
Proof.
  induction l as [ | [k sv] l IH ]; intros x r Hx H; cbn [merge_entries] in H.
  - injection H as <-. exact Hx.
  - destruct (merge_key o (merge o sv) k sv x) as [x' | | ] eqn:Hstep;
      cbn [bind] in H; try discriminate H.
    apply (IH x' r); [ | exact H ].
    apply (step _ _ _ _ _ (merge_null sv) Hx Hstep).
Qed.

Lemma merge_items_invariant (l : list json) :
  forall i x r, P x -> merge_items o i l x = Done r -> P r.
Proof.
  induction l as [ | sv l IH ]; intros i x r Hx H; cbn [merge_items] in H.
  - injection H as <-. exact Hx.
  - destruct (merge_key o (merge o sv) (nat_to_string i) sv x) as [x' | | ] eqn:Hstep;
      cbn [bind] in H; try discriminate H.
    apply (IH (S i) x' r); [ | exact H ].
    apply (step _ _ _ _ _ (merge_null sv) Hx Hstep).
Qed.

Lemma merge_chars_invariant (l : list json) :
  forall i x r, P x -> merge_chars o i l x = Done r -> P r.
Proof.
  induction l as [ | sv l IH ]; intros i x r Hx H; cbn [merge_chars] in H.
  - injection H as <-. exact Hx.
  - destruct (merge_key o (fun _ => Outside) (nat_to_string i) sv x) as [x' | | ] eqn:Hstep;
      cbn [bind] in H; try discriminate H.
    apply (IH (S i) x' r); [ | exact H ].
    apply (step (fun _ => Outside) (nat_to_string i) sv x x');
      [ intros y Hy; discriminate Hy | exact Hx | exact Hstep ].
Qed.

Lemma merge_invariant (s x r : json) : P x -> merge o s x = Done r -> P r.
Proof.
  intros Hx. destruct s as [ | b | n | str | xs | kvs ].
  - discriminate.
  - simpl. intros H. injection H as <-. exact Hx.
  - simpl. intros H. injection H as <-. exact Hx.
  - rewrite merge_string. apply merge_chars_invariant. exact Hx.
  - rewrite merge_array. apply merge_items_invariant. exact Hx.
  - rewrite merge_object. apply merge_entries_invariant. exact Hx.
Qed.

End MergeInvariant.

(** X19.  A merge never removes a key: whatever the source and the
    options, when the merge into an object returns, the result is an
    object that has every key of the target. *)
Theorem merge_keeps_the_target_keys (t : list (string * json)) (s : json) (o : options)
        (r : json) :
  mergeJson (JObj t) s o = Done r ->
  exists r', r = JObj r' /\ forall k, has_key k t = true -> has_key k r' = true.
Proof.
  unfold mergeJson.
  apply (merge_invariant o
           (fun x => exists t', x = JObj t'
                                /\ forall k, has_key k t = true -> has_key k t' = true)).
  - intros rec key sv x r0 _ [t' [-> Ht']] H.
    apply merge_key_keeps_keys in H. destruct H as [t'' [-> Ht'']].
    exists t''. auto.
  - exists t. auto.
Qed.

Lemma merge_keeps_the_target_keys_witness :
  exists r', JObj [("a", JNum 1); ("b", JNum 2)] = JObj r'
             /\ forall k, has_key k [("a", JNum 1)] = true -> has_key k r' = true.
Proof.
  apply (merge_keeps_the_target_keys [("a", JNum 1)] (JObj [("a", JStr "x"); ("b", JNum 2)])
           (mkOptions Preserve ArrOverwrite)).
  reflexivity.
Defined.

Lemma merge_key_preserve_scalar (o : options) (rec : json -> outcome json)
      (key k : string) (sv v : json) (t : list (string * json)) (r : json) :
  is_preserve o = true -> scalar v = true ->
  (forall y, rec JNull = Done y -> y = JNull) ->
  assoc k t = Some v ->
  merge_key o rec key sv (JObj t) = Done r ->
  exists t', r = JObj t' /\ assoc k t' = Some v.
Proof.
  intros Hpres Hv Hrec Hk H. destruct (String.eqb_spec key k) as [-> | Hne].
  - unfold merge_key in H. cbn [read bind] in H. unfold get in H. rewrite Hk, Hpres in H.
    destruct (negb (mtype_eqb (mtype_of sv) (mtype_of v))) eqn:Hty.
    + injection H as <-. exists t. auto.
    + destruct sv, v; try discriminate Hv; try discriminate Hty; cbn [mtype_of typeof mtype_eqb jstype_eqb
                                                  is_null negb andb] in H;
        try (injection H as <-; exists t; auto; fail);
        try (destruct (opt_arrayMerge o); discriminate Hv).
      destruct (rec JNull) as [y | | ] eqn:Hy; cbn [bind] in H; try discriminate H.
      specialize (Hrec y eq_refl). subst y.
      cbn [write] in H. rewrite (put_same k JNull t Hk) in H.
      cbn [bind] in H. injection H as <-. exists t. auto.
  - destruct (merge_key_frame o rec key k sv t r Hne H) as [t' [-> Ht']].
    exists t'. split; [ reflexivity | congruence ].
Qed.

(** X20.  Under the strategy [preserve], a merge never changes a scalar
    of the target: a key the target binds to [null], a boolean, a number
    or a string is bound to the same value in the result, whatever the
    source holds there. *)
Theorem preserve_keeps_the_target_scalars
        (t : list (string * json)) (s : json) (o : options) (k : string) (v r : json) :
  is_preserve o = true -> scalar v = true -> assoc k t = Some v ->
  mergeJson (JObj t) s o = Done r ->
  exists r', r = JObj r' /\ assoc k r' = Some v.
Proof.
  intros Hpres Hv Hk. unfold mergeJson.
  apply (merge_invariant o (fun x => exists t', x = JObj t' /\ assoc k t' = Some v)).
  - intros rec key sv x r0 Hrec [t' [-> Ht']] H.
    apply (merge_key_preserve_scalar o rec key k sv v t' r0); assumption.
  - exists t. auto.
Qed.

Lemma preserve_keeps_the_target_scalars_witness :
  exists r', JObj [("a", JNum 1); ("b", JNum 2)] = JObj r' /\ assoc "a" r' = Some (JNum 1).
Proof.
  apply (preserve_keeps_the_target_scalars [("a", JNum 1)]
           (JObj [("a", JObj [("c", JNull)]); ("b", JNum 2)])
           (mkOptions Preserve ArrOverwrite) "a" (JNum 1)); reflexivity.
Defined.

Lemma merge_entries_frame (o : options) (k : string) (l : list (string * json)) :
  ~ In k (keys l) ->
  forall t r, merge_entries o l (JObj t) = Done r ->
              exists r', r = JObj r' /\ assoc k r' = assoc k t.
Proof.
  induction l as [ | [k0 sv0] l IH ]; intros Hnot t r H; cbn [merge_entries] in H.
  - injection H as <-. exists t. auto.
  - destruct (merge_key o (merge o sv0) k0 sv0 (JObj t)) as [x | | ] eqn:Hstep;
      cbn [bind] in H; try discriminate H.
    assert (Hne : k0 <> k) by (intros ->; apply Hnot; left; reflexivity).
    destruct (merge_key_frame o _ k0 k sv0 t x Hne Hstep) as [t1 [-> Ht1]].
    destruct (IH ltac:(intros Hin; apply Hnot; right; exact Hin) t1 r H) as [r' [-> Hr']].
    exists r'. split; [ reflexivity | congruence ].
Qed.

(** When the turn of the loop for the key [k] binds it to the source
    value, so does the whole loop: the turns before it do not touch the
    key, and the turns after it do not either. *)
Lemma merge_entries_sets (o : options) (k : string) (sv : json)
      (Q : option json -> Prop) (l : list (string * json)) :
  (forall t r, Q (assoc k t) ->
               merge_key o (merge o sv) k sv (JObj t) = Done r ->
               exists t', r = JObj t' /\ assoc k t' = Some sv) ->
  NoDup (keys l) -> In (k, sv) l ->
  forall t r, Q (assoc k t) -> merge_entries o l (JObj t) = Done r ->
              exists r', r = JObj r' /\ assoc k r' = Some sv.
Proof.
  intros Hhit. induction l as [ | [k0 sv0] l IH ]; intros Hnd Hin t r HQ H; [ destruct Hin | ].
  cbn [keys map fst] in Hnd. inversion Hnd as [ | ? ? Hnot Hnd' ]; subst.
  cbn [merge_entries] in H.
  destruct (merge_key o (merge o sv0) k0 sv0 (JObj t)) as [x | | ] eqn:Hstep;
    cbn [bind] in H; try discriminate H.
  destruct Hin as [Heq | Hin].
  - injection Heq as -> ->.
    destruct (Hhit t x HQ Hstep) as [t1 [-> Ht1]].
    destruct (merge_entries_frame o k l Hnot t1 r H) as [r' [-> Hr']].
    exists r'. split; [ reflexivity | congruence ].
  - assert (Hne : k0 <> k).
    { intros ->. apply Hnot. change k with (fst (k, sv)). apply in_map. exact Hin. }
    destruct (merge_key_frame o _ k0 k sv0 t x Hne Hstep) as [t1 [-> Ht1]].
    apply (IH Hnd' Hin t1 r); [ rewrite Ht1; exact HQ | exact H ].
Qed.

Lemma merge_key_overwrite_scalar (o : options) (rec : json -> outcome json)
      (k : string) (sv : json) (t : list (string * json)) (r : json) :
  is_preserve o = false -> scalar sv = true -> String.eqb k "__proto__" = false ->
  merge_key o rec k sv (JObj t) = Done r ->
  exists t', r = JObj t' /\ assoc k t' = Some sv.
Proof.
  intros Hpres Hsv Hk H.
  assert (Hw : write (JObj t) k sv = Done r).
  { unfold merge_key in H. cbn [read bind] in H. rewrite Hpres in H.
    destruct (get t k) as [tv | | ]; try exact H.
    - destruct (negb (mtype_eqb (mtype_of sv) (mtype_of tv))); [ exact H | ].
      destruct sv; try discriminate Hsv; destruct tv; exact H.
    - destruct sv; try discriminate Hsv; exact H. }
  apply write_object in Hw. destruct Hw as [t' [-> [_ [_ Hset]]]].
  exists t'. auto.
Qed.

Lemma merge_key_missing (o : options) (rec : json -> outcome json)
      (k : string) (sv : json) (t : list (string * json)) (r : json) :
  proto_member k = false -> assoc k t = None ->
  merge_key o rec k sv (JObj t) = Done r ->
  exists t', r = JObj t' /\ assoc k t' = Some sv.
Proof.
  intros Hk Hnone H.
  unfold merge_key in H. cbn [read bind] in H. unfold get in H. rewrite Hnone, Hk in H.
  apply write_object in H. destruct H as [t' [-> [_ [_ Hset]]]].
  exists t'. split; [ reflexivity | ]. apply Hset. apply proto_member_proto. exact Hk.
Qed.

(** X21.  Under a strategy other than [preserve], the scalars of the
    source win: a key the source object binds to [null], a boolean, a
    number or a string is bound to that value in the result, whatever the
    target held there. *)
Theorem overwrite_takes_the_source_scalars
        (t s : list (string * json)) (o : options) (k : string) (sv r : json) :
  is_preserve o = false -> NoDup (keys s) -> In (k, sv) s ->
  scalar sv = true -> String.eqb k "__proto__" = false ->
  mergeJson (JObj t) (JObj s) o = Done r ->
  exists r', r = JObj r' /\ assoc k r' = Some sv.
Proof.
  intros Hpres Hnd Hin Hsv Hk. unfold mergeJson. rewrite merge_object.
  apply (merge_entries_sets o k sv (fun _ => True)); auto.
  intros t0 r0 _. apply merge_key_overwrite_scalar; assumption.
Qed.

Lemma overwrite_takes_the_source_scalars_witness :
  exists r', JObj [("a", JNum 2)] = JObj r' /\ assoc "a" r' = Some (JNum 2).
Proof.
  apply (overwrite_takes_the_source_scalars [("a", JObj [("c", JNull)])] [("a", JNum 2)]
           (mkOptions Overwrite ArrOverwrite) "a" (JNum 2)).
  - reflexivity.
  - repeat constructor. simpl. intuition.
  - left. reflexivity.
  - reflexivity.
  - reflexivity.
  - reflexivity.
Defined.

Lemma proto_free_object (kvs : list (string * json)) :
  proto_free (JObj kvs)
  = forallb (fun kv => negb (String.eqb (fst kv) "__proto__") && proto_free (snd kv)) kvs.
Proof.
  cbn [proto_free]. induction kvs as [ | [k v] l IH ]; [ reflexivity | ].
  cbn [forallb fst snd]. rewrite IH. reflexivity.
Qed.

(** The merge of an object without [__proto__] keys into an object or into
    [null] stays within the JSON trees: it raises, or it returns [null]
    for [null] and an object for an object. *)
Lemma merge_followed (o : options) (s : json) :
  forall l, s = JObj l -> proto_free s = true ->
  forall t, t = JNull \/ (exists m, t = JObj m) ->
            merge o s t = Throws
            \/ exists r, merge o s t = Done r
                         /\ (t = JNull -> r = JNull)
                         /\ ((exists m, t = JObj m) -> exists m', r = JObj m').
Proof.
  induction s as [ | b | n | str | xs IH | kvs IH ] using json_induction;
    intros l Hs Hfree t Ht; try discriminate Hs. clear l Hs.
  rewrite merge_object. rewrite proto_free_object in Hfree.
  destruct Ht as [-> | [m ->]].
  - destruct kvs as [ | [k sv] kvs ]; [ | left; reflexivity ].
    right. exists JNull. split; [ reflexivity | ]. split; [ auto | ].
    intros [m Hm]. discriminate Hm.
  - revert m. induction IH as [ | [k sv] kvs Hsv _ IHl ]; intros m.
    + right. exists (JObj m). split; [ reflexivity | ]. split; [ discriminate | eauto ].
    + cbn [forallb fst snd] in Hfree. apply andb_prop in Hfree. destruct Hfree as [Hk Hrest].
      apply andb_prop in Hk. destruct Hk as [Hk Hfsv]. apply negb_true_iff in Hk.
      cbn [snd] in Hsv. cbn [merge_entries].
      assert (Hstep : merge_key o (merge o sv) k sv (JObj m) = Throws
                      \/ exists m1, merge_key o (merge o sv) k sv (JObj m) = Done (JObj m1)).
      { assert (Hw : forall w, exists m1, write (JObj m) k w = Done (JObj m1)).
        { intros w. cbn [write]. rewrite (put_plain k w m Hk). eexists. reflexivity. }
        assert (Hgen : forall w, exists m1,
                   (if is_preserve o then Done (JObj m) else write (JObj m) k w)
                   = Done (JObj m1)).
        { intros w. destruct (is_preserve o); [ eexists; reflexivity | apply Hw ]. }
        unfold merge_key. cbn [read bind]. destruct (get m k) as [tv | | ].
        - destruct (negb (mtype_eqb (mtype_of sv) (mtype_of tv))) eqn:Hty;
            [ right; apply Hgen | ].
          destruct sv as [ | | | | sxs | lsv ]; destruct tv as [ | | | | txs | ltv ];
            try discriminate Hty;
            cbn [mtype_of typeof mtype_eqb jstype_eqb is_null negb andb];
            try (right; apply Hgen).
          + right. destruct (opt_arrayMerge o); try apply Hw. eexists. reflexivity.
          + destruct (Hsv lsv eq_refl Hfsv JNull (or_introl eq_refl))
              as [Hthrow | [r [Hr [Hnull _]]]].
            * left. rewrite Hthrow. reflexivity.
            * right. rewrite Hr. cbn [bind]. apply Hw.
          + destruct (Hsv lsv eq_refl Hfsv (JObj ltv) (or_intror (ex_intro _ ltv eq_refl)))
              as [Hthrow | [r [Hr _]]].
            * left. rewrite Hthrow. reflexivity.
            * right. rewrite Hr. cbn [bind]. apply Hw.
        - right. rewrite Hk. destruct sv; apply Hgen.
        - right. apply Hw. }
      destruct Hstep as [Hthrow | [m1 Hm1]].
      * left. rewrite Hthrow. reflexivity.
      * rewrite Hm1. cbn [bind]. destruct (IHl Hrest m1) as [H | [r [Hr [_ Hobj]]]].
        -- left. exact H.
        -- right. exists r. split; [ exact Hr | ]. split; [ discriminate | ].
           intros _. apply Hobj. eauto.
Qed.

(** X22.  A merge adds what the target lacks.  For a source none of whose
    objects, the root or one reached through the values of objects, has a
    key [__proto__], the merge of the source object into an object stays
    within the JSON trees (it returns or it raises), and when it returns,
    a key of the source that the target does not have, and that names no
    member of [Object.prototype], is bound in the result to the value the
    source binds it to, whatever the options. *)
Theorem merge_adds_the_missing_keys
        (t s : list (string * json)) (o : options) (k : string) (sv : json) :
  proto_free (JObj s) = true ->
  NoDup (keys s) -> In (k, sv) s ->
  assoc k t = None -> proto_member k = false ->
  mergeJson (JObj t) (JObj s) o <> Outside
  /\ forall r, mergeJson (JObj t) (JObj s) o = Done r ->
               exists r', r = JObj r' /\ assoc k r' = Some sv.
Proof.
  intros Hfree Hnd Hin Hnone Hk. unfold mergeJson. split.
  - destruct (merge_followed o (JObj s) s eq_refl Hfree (JObj t)
                (or_intror (ex_intro _ t eq_refl))) as [H | [r [H _]]];
      rewrite H; discriminate.
  - intros r. rewrite merge_object.
    apply (merge_entries_sets o k sv (fun c => c = None)); auto.
    intros t0 r0 Ht0. apply merge_key_missing; assumption.
Qed.

Lemma merge_adds_the_missing_keys_witness :
  mergeJson (JObj [("a", JNum 1)]) (JObj [("a", JNum 5); ("b", JArr [JNum 2])])
            (mkOptions Preserve ArrOverwrite) <> Outside
  /\ forall r, mergeJson (JObj [("a", JNum 1)]) (JObj [("a", JNum 5); ("b", JArr [JNum 2])])
                         (mkOptions Preserve ArrOverwrite) = Done r ->
               exists r', r = JObj r' /\ assoc "b" r' = Some (JArr [JNum 2]).
Proof.
  apply (merge_adds_the_missing_keys [("a", JNum 1)] [("a", JNum 5); ("b", JArr [JNum 2])]
           (mkOptions Preserve ArrOverwrite) "b" (JArr [JNum 2])).
  - reflexivity.
  - repeat constructor; simpl; intuition discriminate.
  - right. left. reflexivity.
  - reflexivity.
  - reflexivity.
Defined.

(** ** [deepMerge] *)

Lemma deepMerge_loop_same (am : arrayMerge) (T : json) (n : nat) :
  wf T -> T <> JNull -> am <> Concatenate ->
  deepMerge_loop T (repeat T n) (preserving am) = Done T.
Proof.
  intros Hwf Hnn Ham. induction n as [ | n IH ]; [ reflexivity | ].
  cbn [repeat deepMerge_loop]. unfold mergeJson.
  rewrite (merge_self am Ham T Hwf Hnn). exact IH.
Qed.

(** X24.  Under [preserve], and with an array policy other than
    [concatenate], merging any number of copies of a tree gives the tree
    back. *)
Theorem deepMerge_of_copies (am : arrayMerge) (T : json) (n : nat) :
  wf T -> T <> JNull -> am <> Concatenate ->
  deepMerge (repeat T (S n)) (mkOptions Preserve am) = Done T.
Proof.
  intros Hwf Hnn Ham. cbn [repeat deepMerge].
  apply (deepMerge_loop_same am T n Hwf Hnn Ham).
Qed.

Lemma deepMerge_of_copies_witness :
  deepMerge (repeat (JObj [("a", JArr [JNum 1]); ("b", JStr "x")]) 3)
            (mkOptions Preserve MergeUnique)
  = Done (JObj [("a", JArr [JNum 1]); ("b", JStr "x")]).
Proof.
  apply (deepMerge_of_copies MergeUnique (JObj [("a", JArr [JNum 1]); ("b", JStr "x")]) 2).
  - simpl. repeat split; repeat constructor; simpl; intuition discriminate.
  - discriminate.
  - discriminate.
Defined.

(** ** [setValue] *)

Lemma set_path_reads (v : json) (ks : list string) :
  forall r0,
    ks <> [] -> Forall not_proto ks ->
    (forall n xs, (0 < n < List.length ks)%nat ->
                  at_path (firstn n ks) (JObj r0) <> Some (JArr xs)) ->
    exists r, set_path ks v (JObj r0) = Done (JObj r)
              /\ at_path ks (JObj r) = Some v
              /\ forall k', k' <> hd EmptyString ks -> assoc k' r = assoc k' r0.
Proof.
  induction ks as [ | k ks IH ]; intros r0 Hne Hnp Harr; [ congruence | ].
  inversion Hnp as [ | ? ? Hk Hks ]; subst.
  rewrite (set_path_head k ks v r0 Hk).
  assert (Hframe : forall c k', k' <> hd EmptyString (k :: ks) ->
                                assoc k' (obj_set k c r0) = assoc k' r0).
  { intros c k1 Hk1. cbn [hd] in Hk1. rewrite assoc_obj_set.
    destruct (String.eqb_spec k1 k); [ contradiction | reflexivity ]. }
  destruct ks as [ | k' rest ].
  - cbn [set_step bind rebind]. exists (obj_set k v r0). split; [ reflexivity | ].
    split; [ | apply Hframe ].
    cbn [at_path]. rewrite assoc_obj_set, String.eqb_refl. reflexivity.
  - assert (Hchild : exists c,
               child_of (assoc k r0) = JObj c
               /\ forall n xs, (0 < n < List.length (k' :: rest))%nat ->
                               at_path (firstn n (k' :: rest)) (JObj c) <> Some (JArr xs)).
    { assert (Hfresh : forall n xs, (0 < n < List.length (k' :: rest))%nat ->
                                    at_path (firstn n (k' :: rest)) (JObj []) <> Some (JArr xs)).
      { intros n xs Hn. destruct n as [ | n ]; [ lia | ]. discriminate. }
      destruct (assoc k r0) as [ [ | | | | xs | kvs ] | ] eqn:Hv; cbn [child_of];
        try (exists []; split; [ reflexivity | exact Hfresh ]).
      - exfalso. apply (Harr 1%nat xs); [ cbn [List.length]; lia | ].
        cbn [firstn at_path]. rewrite Hv. reflexivity.
      - exists kvs. split; [ reflexivity | ]. intros n xs Hn Hat.
        apply (Harr (S n) xs); [ cbn [List.length] in Hn |- *; lia | ].
        cbn [firstn at_path]. rewrite Hv. exact Hat. }
    destruct Hchild as [c [Hc Hcarr]].
    destruct (IH c ltac:(discriminate) Hks Hcarr) as [r' [Hset [Hat _]]].
    unfold set_step. rewrite Hc, Hset. cbn [bind rebind].
    exists (obj_set k (JObj r') r0). split; [ reflexivity | ]. split; [ | apply Hframe ].
    cbn [at_path]. rewrite assoc_obj_set, String.eqb_refl. exact Hat.
Qed.

(** X25.  What [setValue] writes can be read back: on an object, for a
    dotted path none of whose keys is [__proto__] and that meets no array
    on its way, the call returns an object that holds the value where the
    keys of the path lead; a scalar met on the way is replaced by an
    object, and the keys of the root other than the first key of the path
    are left as they were. *)
Theorem setValue_then_read (r0 : list (string * json)) (path : string) (v : json) :
  Forall not_proto (split "." path) ->
  (forall n xs, (0 < n < List.length (split "." path))%nat ->
                at_path (firstn n (split "." path)) (JObj r0) <> Some (JArr xs)) ->
  exists r, setValue (JObj r0) path v = Done (JObj r)
            /\ at_path (split "." path) (JObj r) = Some v
            /\ forall k', k' <> hd EmptyString (split "." path) -> assoc k' r = assoc k' r0.
Proof.
  intros Hnp Harr. unfold setValue.
  apply set_path_reads; [ apply split_nonempty | exact Hnp | exact Harr ].
Qed.

Lemma setValue_then_read_witness :
  exists r, setValue (JObj [("a", JNum 1); ("x", JNull)]) "a.b" (JStr "v") = Done (JObj r)
            /\ at_path (split "." "a.b") (JObj r) = Some (JStr "v")
            /\ forall k', k' <> hd EmptyString (split "." "a.b") ->
                          assoc k' r = assoc k' [("a", JNum 1); ("x", JNull)].
Proof.
  apply setValue_then_read.
  - repeat constructor.
  - intros n xs Hn. simpl in Hn. assert (n = 1)%nat as -> by lia. discriminate.
Defined.

(** ** The shape of a flattened object *)

Lemma in_update (k : string) (v : json) (x : string * json) (r : list (string * json)) :
  In x (update k v r) -> x = (k, v) \/ In x r.
Proof.
  induction r as [ | [k0 v0] r IH ]; cbn [update]; [ intros [] | ].
  destruct (String.eqb_spec k k0) as [-> | Hne].
  - intros [<- | H]; [ left; reflexivity | right; right; exact H ].
  - intros [<- | H]; [ right; left; reflexivity | ].
    destruct (IH H) as [-> | H']; [ left; reflexivity | right; right; exact H' ].
Qed.

Lemma in_obj_set (k : string) (v : json) (x : string * json) (r : list (string * json)) :
  In x (obj_set k v r) -> x = (k, v) \/ In x r.
Proof.
  unfold obj_set. destruct (has_key k r); [ apply in_update | ].
  destruct (as_index k) as [n | ].
  - intros H. apply (Permutation_in _ (insert_index_perm n k v r)) in H.
    destruct H as [<- | H]; auto.
  - intros H. apply in_app_or in H. destruct H as [H | [<- | []]]; auto.
Qed.

(** What a call of [flatten] keeps true of [result]: distinct keys, none of
    them [__proto__], and values that satisfy what the leaves of the tree
    satisfy. *)
Section FlattenInvariant.
Variable L : json -> Prop.

Lemma put_flat_result (path : string) (v : json) (result f : list (string * json)) :
  L v -> flat_result L result -> put path v result = Done f -> flat_result L f.
Proof.
  intros Hv [Hnd [Hproto Hall]]. unfold put.
  destruct (String.eqb_spec path "__proto__") as [-> | Hne].
  - rewrite Hproto. cbn [negb andb].
    destruct v; try discriminate; intros H; injection H as <-; repeat split; assumption.
  - cbn [andb]. intros H. injection H as <-. split; [ | split ].
    + apply obj_set_nodup. exact Hnd.
    + unfold has_key in *. rewrite assoc_obj_set.
      destruct (String.eqb_spec "__proto__" path); [ congruence | exact Hproto ].
    + apply Forall_forall. intros x Hx. apply in_obj_set in Hx.
      destruct Hx as [-> | Hx]; [ exact Hv | ].
      rewrite Forall_forall in Hall. apply Hall. exact Hx.
Qed.

Lemma flatten_flat_result (T : json) :
  (forall e, In e (leaves T) -> L (snd e)) ->
  forall path result f,
    flat_result L result -> flatten T path result = Done f -> flat_result L f.
Proof.
  induction T as [ | b | n | s | xs IH | kvs IH ] using json_induction;
    intros Hleaves path result f Hres;
    try (cbn [flatten]; apply put_flat_result;
         [ apply (Hleaves ([], _)); left; reflexivity | exact Hres ]).
  rewrite flatten_object. revert result f Hres.
  induction IH as [ | [k v] l Hv _ IHl ]; intros result f Hres H; cbn [flatten_entries] in H.
  - injection H as <-. exact Hres.
  - destruct (flatten v (newPath path k) result) as [result' | | ] eqn:Hstep;
      cbn [bind] in H; try discriminate H.
    cbn [snd] in Hv.
    apply (IHl ltac:(intros e He; apply Hleaves; cbn [leaves];
                     apply in_or_app; right; exact He)
               result' f); [ | exact H ].
    apply (Hv ltac:(intros e He; apply (Hleaves (k :: fst e, snd e)); cbn [leaves];
                    apply in_or_app; left;
                    apply (in_map (fun e => (k :: fst e, snd e)) _ _ He))
              (newPath path k) result result' Hres Hstep).
Qed.

End FlattenInvariant.

Lemma flat_result_nil (L : json -> Prop) : flat_result L [].
Proof. repeat split; constructor. Qed.


Lemma leaves_scalar (T : json) :
  array_free T = true -> forall e, In e (leaves T) -> scalar (snd e) = true.
Proof.
  induction T as [ | b | n | s | xs IH | kvs IH ] using json_induction; intros Hfree e He;
    try (destruct He as [<- | []]; reflexivity); try discriminate Hfree.
  rewrite array_free_object in Hfree. cbn [leaves] in He. revert e He.
  induction IH as [ | [k v] l Hv _ IHl ]; intros e He; [ destruct He | ].
  cbn [forallb snd] in Hfree. apply andb_prop in Hfree. destruct Hfree as [Hfv Hfl].
  apply in_app_or in He. destruct He as [He | He]; [ | apply IHl; assumption ].
  apply in_map_iff in He. destruct He as [e' [<- He']]. cbn [snd]. apply (Hv Hfv e' He').
Qed.








(** ** A three-way merge in which a side did not change *)

Lemma changes_of_same (f : list (string * json)) :
  NoDup (keys f) -> Forall (fun kv => scalar (snd kv) = true) f ->
  changes_of f f = [].
Proof.
  intros Hnd Hsc.
  assert (Hall : forall l, incl l f -> changes_of f l = []).
  { induction l as [ | [path v] l IH ]; intros Hincl; [ reflexivity | ].
    assert (Hin : In (path, v) f) by (apply Hincl; left; reflexivity).
    cbn [changes_of]. unfold get. rewrite (assoc_in_nodup path v f Hnd Hin).
    cbn [differs]. rewrite Forall_forall in Hsc.
    rewrite (strict_eq_scalar v (Hsc (path, v) Hin)). cbn [negb].
    apply IH. intros x Hx. apply Hincl. right. exact Hx. }
  apply Hall. apply incl_refl.
Qed.

Lemma compareChanges_same (T : json) (f : list (string * json)) :
  array_free T = true -> flattenObject T = Done f -> compareChanges T T = Done [].
Proof.
  intros Hfree Hf. unfold compareChanges. rewrite Hf. cbn [bind].
  unfold flattenObject in Hf.
  destruct (flatten_flat_result (fun v => scalar v = true) T (leaves_scalar T Hfree)
              EmptyString [] f (flat_result_nil _) Hf) as [Hnd [_ Hsc]].
  rewrite (changes_of_same f Hnd Hsc). reflexivity.
Qed.

(** X28.  A three-way merge of a side that did not change reports no
    conflict: when [local] is the base, a tree without arrays that
    flattens, then whatever [remote] is, a merge that returns returns no
    conflict; and when [remote] is the base as well, it returns the base
    itself. *)
Theorem threeWayMerge_with_unchanged_local (base remote : json) (f : list (string * json)) :
  array_free base = true -> flattenObject base = Done f ->
  threeWayMerge base base base = Done (mkMerged base [])
  /\ forall r, threeWayMerge base base remote = Done r -> conflicts r = [].
Proof.
  intros Hfree Hf. pose proof (compareChanges_same base f Hfree Hf) as Hsame.
  unfold threeWayMerge. rewrite Hsame. cbn [bind].
  split; [ reflexivity | ].
  intros r H. destruct (compareChanges base remote) as [rc | | ]; cbn [bind] in H;
    try discriminate H.
  cbn [findConflicts apply_changes bind map] in H.
  destruct (apply_changes [] rc base); cbn [bind] in H; try discriminate H.
  injection H as <-. reflexivity.
Qed.

Lemma threeWayMerge_with_unchanged_local_witness :
  threeWayMerge (JObj [("x", JNum 1)]) (JObj [("x", JNum 1)]) (JObj [("x", JNum 1)])
  = Done (mkMerged (JObj [("x", JNum 1)]) [])
  /\ forall r, threeWayMerge (JObj [("x", JNum 1)]) (JObj [("x", JNum 1)])
                             (JObj [("x", JNum 2); ("y", JNull)]) = Done r ->
               conflicts r = [].
Proof.
  apply (threeWayMerge_with_unchanged_local (JObj [("x", JNum 1)])
           (JObj [("x", JNum 2); ("y", JNull)]) [("x", JNum 1)]); reflexivity.
Defined.

(** ** What a three-way merge cannot do *)

Lemma set_path_keeps_keys (ks : list string) (v : json) (r0 : list (string * json))
      (x : json) :
  set_path ks v (JObj r0) = Done x ->
  exists r, x = JObj r /\ forall k, has_key k r0 = true -> has_key k r = true.
Proof.
  assert (Hw : forall k w y, write (JObj r0) k w = Done y ->
                             exists r, y = JObj r
                                       /\ forall k, has_key k r0 = true -> has_key k r = true).
  { intros k w y H. apply write_object in H. destruct H as [r [-> [_ [Hkeys _]]]].
    exists r. auto. }
  assert (Hstep : forall k (m : outcome json) y,
             (c <- m ;; write (JObj r0) k c) = Done y ->
             exists r, y = JObj r /\ forall k, has_key k r0 = true -> has_key k r = true).
  { intros k m y H. destruct m as [c | | ]; cbn [bind] in H; try discriminate H.
    apply (Hw k c y H). }
  destruct ks as [ | k [ | k' rest ] ].
  - cbn [set_path]. intros H. injection H as <-. exists r0. auto.
  - cbn [set_path]. apply Hw.
  - intros H.
    change (set_path (k :: k' :: rest) v (JObj r0))
      with (tv <- read (JObj r0) k ;;
            match tv with
            | Own v0 =>
                match v0 with
                | JArr _ | JObj _ =>
                    r1 <- set_path (k' :: rest) v v0 ;; write (JObj r0) k r1
                | _ => r1 <- set_path (k' :: rest) v (JObj []) ;; write (JObj r0) k r1
                end
            | Inherited =>
                if String.eqb k "__proto__" then Outside
                else r1 <- set_path (k' :: rest) v (JObj []) ;; write (JObj r0) k r1
            | Missing => r1 <- set_path (k' :: rest) v (JObj []) ;; write (JObj r0) k r1
            end) in H.
    cbn [read bind] in H. destruct (get r0 k) as [v0 | | ].
    + destruct v0; apply (Hstep k _ x H).
    + destruct (String.eqb k "__proto__"); [ discriminate H | apply (Hstep k _ x H) ].
    + apply (Hstep k _ x H).
Qed.

Lemma apply_changes_keeps_keys (b : list (string * json)) (cf : list string)
      (changes : list (string * fchange)) :
  forall m x,
    (forall k, has_key k b = true -> has_key k m = true) ->
    apply_changes cf changes (JObj m) = Done x ->
    exists m', x = JObj m' /\ forall k, has_key k b = true -> has_key k m' = true.
Proof.
  induction changes as [ | [path c] rest IH ]; intros m x Hm H; cbn [apply_changes] in H.
  - injection H as <-. exists m. auto.
  - destruct (includes cf path); [ apply (IH m x Hm H) | ].
    unfold setValue in H.
    destruct (set_path (split "." path) (cvalue c) (JObj m)) as [y | | ] eqn:Hset;
      cbn [bind] in H; try discriminate H.
    apply set_path_keeps_keys in Hset. destruct Hset as [m1 [-> Hm1]].
    apply (IH m1 x); [ auto | exact H ].
Qed.

(** X30.  A three-way merge never deletes: whatever [local] and [remote]
    are, and so even when both have dropped a key, the merged tree of a
    merge over an object base that returns is an object that still has
    every top-level key of the base. *)
Theorem threeWayMerge_never_deletes (b : list (string * json)) (local remote : json)
        (r : merged_result) :
  threeWayMerge (JObj b) local remote = Done r ->
  exists m, merged r = JObj m /\ forall k, has_key k b = true -> has_key k m = true.
Proof.
  unfold threeWayMerge. intros H.
  destruct (compareChanges (JObj b) local) as [lc | | ]; cbn [bind] in H; try discriminate H.
  destruct (compareChanges (JObj b) remote) as [rc | | ]; cbn [bind] in H;
    try discriminate H.
  destruct (apply_changes (findConflicts lc rc) lc (JObj b)) as [r1 | | ] eqn:H1;
    cbn [bind] in H; try discriminate H.
  destruct (apply_changes (findConflicts lc rc) rc r1) as [r2 | | ] eqn:H2;
    cbn [bind] in H; try discriminate H.
  injection H as <-. cbn [merged].
  destruct (apply_changes_keeps_keys b _ lc b r1 ltac:(auto) H1) as [m1 [-> Hm1]].
  apply (apply_changes_keeps_keys b _ rc m1 r2 Hm1 H2).
Qed.

Lemma threeWayMerge_never_deletes_witness :
  exists m, JObj [("x", JNum 1); ("y", JNum 2)] = JObj m
            /\ forall k, has_key k [("x", JNum 1); ("y", JNum 2)] = true -> has_key k m = true.
Proof.
  apply (threeWayMerge_never_deletes [("x", JNum 1); ("y", JNum 2)]
           (JObj [("x", JNum 1)]) (JObj [("x", JNum 1)])
           (mkMerged (JObj [("x", JNum 1); ("y", JNum 2)]) [])).
  reflexivity.
Defined.

(** ** The quoting of the CSV export *)

Lemma read_quoted_escape (cell rest : string) :
  no_quote_ahead rest = true ->
  read_quoted (escape_quotes cell ++ String dquote rest) = Some (cell, rest).
Proof.
  intros Hrest. induction cell as [ | c cell IH ].
  - cbn [escape_quotes append read_quoted]. rewrite Ascii.eqb_refl.
    destruct rest as [ | c' rest' ]; [ reflexivity | ].
    cbn [no_quote_ahead] in Hrest. apply negb_true_iff in Hrest. rewrite Hrest. reflexivity.
  - cbn [escape_quotes]. destruct (Ascii.eqb c dquote) eqn:Hc.
    + apply Ascii.eqb_eq in Hc. subst c.
      cbn [append read_quoted]. rewrite Ascii.eqb_refl, IH. reflexivity.
    + cbn [append read_quoted]. rewrite Hc, IH. reflexivity.
Qed.

Lemma read_cell_csv_cell (cell rest : string) :
  no_quote_ahead rest = true ->
  read_cell (csv_cell cell ++ rest) = Some (cell, rest).
Proof.
  intros Hrest. unfold csv_cell. cbn [append read_cell]. rewrite Ascii.eqb_refl.
  rewrite str_app_assoc. cbn [append]. apply read_quoted_escape. exact Hrest.
Qed.

Lemma csv_row_cons (cell : string) (row : list string) :
  csv_row (cell :: row)
  = (csv_cell cell ++ match row with
                      | [] => EmptyString
                      | _ => String "," (csv_row row)
                      end)%string.
Proof.
  unfold csv_row. destruct row as [ | c row ]; cbn [map join].
  - clear. induction (csv_cell cell) as [ | a s IH ]; cbn [append]; congruence.
  - reflexivity.
Qed.

Lemma csv_row_injective (row1 : list string) :
  forall row2, csv_row row1 = csv_row row2 -> row1 = row2.
Proof.
  induction row1 as [ | c1 row1 IH ]; intros [ | c2 row2 ] H.
  - reflexivity.
  - rewrite csv_row_cons in H. discriminate H.
  - rewrite csv_row_cons in H. discriminate H.
  - rewrite !csv_row_cons in H.
    assert (Hread : forall c (row : list string),
               read_cell (csv_cell c ++ match row with
                                        | [] => EmptyString
                                        | _ => String "," (csv_row row)
                                        end)
               = Some (c, match row with
                          | [] => EmptyString
                          | _ => String "," (csv_row row)
                          end)).
    { intros c row. apply read_cell_csv_cell. destruct row; reflexivity. }
    apply (f_equal read_cell) in H. rewrite (Hread c1 row1), (Hread c2 row2) in H.
    injection H as -> Htail. apply f_equal.
    destruct row1 as [ | a1 row1 ], row2 as [ | a2 row2 ]; try discriminate Htail.
    + reflexivity.
    + apply IH. injection Htail as Htail. exact Htail.
Qed.

(** X29.  The quoting of the CSV export loses nothing, whatever
    characters a cell holds: a reader that takes a doubled quote for a
    quote and a single one for the end of the cell reads a written cell
    back, with the text that follows it left over, and two rows are
    written as the same line only when they are the same row. *)
Theorem csv_quoting_is_reversible :
  (forall cell rest, no_quote_ahead rest = true ->
                     read_cell (csv_cell cell ++ rest) = Some (cell, rest))
  /\ (forall row1 row2, csv_row row1 = csv_row row2 -> row1 = row2).
Proof.
  split.
  - apply read_cell_csv_cell.
  - intros row1 row2. apply csv_row_injective.
Qed.

Lemma csv_quoting_is_reversible_witness :
  read_cell (csv_cell (String dquote "a,b") ++ ",") = Some (String dquote "a,b", ",").
Proof.
  apply (proj1 csv_quoting_is_reversible). reflexivity.
Defined.
